(** * Answerability benchmark engine: crawler, chunker, scorer, synthesizer,
    aggregator.

  Shallow embedding of [ai_tool_anayze/backend/benchmark.py] (the
  per-question engine, module [Analyze]) and of [backend/benchmark.py]
  (the single-call engine, module [Backend]), with the text and URL
  primitives they share.

  Conventions of the embedding:
  - a Python [str] is a [string] of 8-bit characters; the character
    classes ([str.isspace], [\s], [\d], [a-z0-9], [str.lower],
    [str.upper]) are the ASCII ones, characters above 127 are inert;
  - a Python [float] that the code obtains by dividing two integers is the
    exact rational ([Q]); [round(x, 2)] rounds that rational to the nearest
    hundredth, ties to even;
  - the network, the HTML parser, the completion service, the JSON decoder
    and the process environment are collaborators, passed as records of
    functions; the calls made to the completion service and to the fetcher
    are logged in the state that the effectful functions thread;
  - [print] and the clock ([time.time]) do not reach the result and are
    left out. *)

From Stdlib Require Import QArith Qround Lqa Ascii.
From stdpp Require Import gmap strings list sorting pretty.

Local Open Scope nat_scope.

(** ** Text primitives *)

Module Text.

Definition code (c : ascii) : N := N_of_ascii c.

Definition between (lo hi : N) (c : ascii) : bool :=
  ((lo <=? code c) && (code c <=? hi))%N.

(** [str.isspace] and the regular expression class [\s] on ASCII:
    TAB, LF, VT, FF, CR, the separators FS, GS, RS, US, and SPACE. *)
Definition isspace (c : ascii) : bool := between 9 13 c || between 28 32 c.

(** [\d] on ASCII. *)
Definition isdigit (c : ascii) : bool := between 48 57 c.

Definition isupper (c : ascii) : bool := between 65 90 c.
Definition islower (c : ascii) : bool := between 97 122 c.

(** The class [a-z0-9] of [_tokenize]. *)
Definition is_token_char (c : ascii) : bool := islower c || isdigit c.

Definition lower_char (c : ascii) : ascii :=
  if isupper c then ascii_of_N (code c + 32) else c.
Definition upper_char (c : ascii) : ascii :=
  if islower c then ascii_of_N (code c - 32) else c.

Fixpoint map_chars (f : ascii → ascii) (s : string) : string :=
  match s with
  | EmptyString => EmptyString
  | String a s' => String (f a) (map_chars f s')
  end.

(** [str.lower] and [str.upper]. *)
Definition lower : string → string := map_chars lower_char.
Definition upper : string → string := map_chars upper_char.

Definition starts_with (p : ascii → bool) (s : string) : bool :=
  match s with
  | EmptyString => false
  | String b _ => p b
  end.

(** The maximal runs of characters satisfying [p], left to right. This is
    [re.findall] for a pattern [[class]+] and, with [p] the non-space
    characters, [str.split()] without arguments. *)
Fixpoint runs (p : ascii → bool) (s : string) : list string :=
  match s with
  | EmptyString => []
  | String a s' =>
      if p a then
        if starts_with p s' then
          match runs p s' with
          | r :: rs => String a r :: rs
          | [] => [String a EmptyString]
          end
        else String a EmptyString :: runs p s'
      else runs p s'
  end.

(** [text.split()]. *)
Definition split (text : string) : list string :=
  runs (λ c, negb (isspace c)) text.

(** [sep.join(parts)]. *)
Fixpoint join (sep : string) (parts : list string) : string :=
  match parts with
  | [] => EmptyString
  | [x] => x
  | x :: rest => x +:+ sep +:+ join sep rest
  end.

Fixpoint lstrip_by (p : ascii → bool) (s : string) : string :=
  match s with
  | EmptyString => EmptyString
  | String a s' => if p a then lstrip_by p s' else s
  end.

Fixpoint rstrip_by (p : ascii → bool) (s : string) : string :=
  match s with
  | EmptyString => EmptyString
  | String a s' =>
      match rstrip_by p s' with
      | EmptyString => if p a then EmptyString else String a EmptyString
      | r => String a r
      end
  end.

(** [str.strip()]. *)
Definition strip (s : string) : string :=
  rstrip_by isspace (lstrip_by isspace s).

(** [re.sub(r"\s+", " ", text)]: every maximal run of white space becomes
    one space. *)
Fixpoint collapse_spaces (s : string) : string :=
  match s with
  | EmptyString => EmptyString
  | String a s' =>
      if isspace a then
        if starts_with isspace s' then collapse_spaces s'
        else String " " (collapse_spaces s')
      else String a (collapse_spaces s')
  end.

Definition _normalize_text (text : string) : string :=
  strip (collapse_spaces text).

(** [needle in hay]. *)
Fixpoint contains (needle hay : string) : bool :=
  String.prefix needle hay ||
  match hay with
  | EmptyString => false
  | String _ hay' => contains needle hay'
  end.

(** [s[:n]]. *)
Fixpoint take_chars (n : nat) (s : string) : string :=
  match n, s with
  | S n', String a s' => String a (take_chars n' s')
  | _, _ => EmptyString
  end.

(** [re.findall(r"[a-z0-9]+", text.lower())]. *)
Definition _tokenize (text : string) : list string :=
  runs is_token_char (lower text).

(** Every character of the string is of the class. *)
Fixpoint all_chars (p : ascii → bool) (s : string) : bool :=
  match s with
  | EmptyString => true
  | String a s' => p a && all_chars p s'
  end.

(** A non-empty string of characters of the class: a word when the class
    is the characters that are not white space, a token when it is
    [a-z0-9]. *)
Definition is_run (p : ascii → bool) (s : string) : Prop :=
  s ≠ EmptyString ∧ all_chars p s = true.

End Text.

(** ** Chunker *)

Module Chunker.
Import Text.

(** [words[start:end]] for [0 <= start]. *)
Definition slice {A} (l : list A) (start stop : nat) : list A :=
  take (stop - start) (drop start l).

(** The [while start < len(words)] loop of [_chunk_text]. The three
    integers are natural numbers here: the callers pass the defaults, and
    [max(0, end - overlap)] is the truncated subtraction. [None] is a
    loop that has not finished within [fuel] iterations. *)
Fixpoint chunk_loop (fuel : nat) (words : list string)
    (chunk_size overlap start : nat) : option (list string) :=
  match fuel with
  | 0 => None
  | S fuel' =>
      if decide (start < length words) then
        let stop := length words `min` (start + chunk_size) in
        let chunk := join " " (slice words start stop) in
        if decide (length words ≤ stop) then Some [chunk]
        else
          cons chunk <$>
            chunk_loop fuel' words chunk_size overlap (0 `max` (stop - overlap))
      else Some []
  end.

Definition _chunk_text (text : string) (chunk_size overlap : nat)
    : option (list string) :=
  match text with
  | EmptyString => Some []
  | _ =>
      let words := split text in
      chunk_loop (S (length words)) words chunk_size overlap 0
  end.

(** The word sequences of the chunks, with the first [overlap] words
    removed from every chunk after the first, concatenated. *)
Definition drop_overlaps (overlap : nat) (chunks : list string)
    : list string :=
  match chunks with
  | [] => []
  | c :: rest => split c ++ concat (map (λ c', drop overlap (split c')) rest)
  end.

End Chunker.

(** ** Retriever and scorer *)

Module Retriever.
Import Text.

(** [collections.Counter(tokens)]; [count_of c t] is [c[t]], which is 0
    for a token that was never counted. *)
Definition Counter (tokens : list string) : gmap string nat :=
  foldr (λ t m, <[t := S (default 0 (m !! t))]> m) ∅ tokens.

Definition count_of (c : gmap string nat) (t : string) : nat :=
  default 0 (c !! t).

(** [a / b] on integers; every call has [b >= 1]. *)
Definition true_div (a b : nat) : Q := Z.of_nat a # Pos.of_nat b.

Definition _score_overlap (query chunk : string) : Q :=
  let q_tokens := _tokenize query in
  match q_tokens with
  | [] => 0%Q
  | _ =>
      let c_tokens := _tokenize chunk in
      let c_counts := Counter c_tokens in
      true_div (sum_list (count_of c_counts <$> q_tokens))
               (1 `max` length q_tokens)
  end.

(** A scored chunk [(url, chunk, score)]. *)
Definition scored : Type := string * string * Q.

Definition score_of (x : scored) : Q := x.2.

Definition Qltb (x y : Q) : bool := negb (Qle_bool y x).

(** [scored.sort(key=lambda x: x[2], reverse=True)]: the sort of Python
    lists is stable, also with [reverse=True]. The stable sort is written
    here as an insertion sort that inserts from the right: an element goes
    in front of the first element whose score is not strictly greater. *)
Fixpoint insert_desc (x : scored) (l : list scored) : list scored :=
  match l with
  | [] => [x]
  | y :: l' =>
      if Qltb (score_of x) (score_of y) then y :: insert_desc x l'
      else x :: y :: l'
  end.

Definition sort_desc (l : list scored) : list scored :=
  foldr insert_desc [] l.

(** [top_k] is a count (the callers pass the default 3). *)
Definition _select_top_chunks (query : string)
    (chunks : list (string * string)) (top_k : nat) : list scored :=
  let scored :=
    (λ uc : string * string, (uc.1, uc.2, _score_overlap query uc.2)) <$> chunks in
  take top_k (sort_desc scored).

End Retriever.

(** ** Effects: exceptions and the completion service *)

Module Effects.

Inductive exn : Type :=
  | RuntimeError (msg : string)
  | ValueError (msg : string)
  | TypeError (msg : string)
  | AttributeError (msg : string)
  | OtherError (msg : string).

(** [str(e)]. *)
Definition exn_str (e : exn) : string :=
  match e with
  | RuntimeError m | ValueError m | TypeError m | AttributeError m
  | OtherError m => m
  end.

Inductive result (A : Type) : Type :=
  | Ok (a : A)
  | Raise (e : exn).
Global Arguments Ok {A} a.
Global Arguments Raise {A} e.

(** One request [client.chat.completions.create(...)]. *)
Record completion_call : Type := {
  call_api_key : string;
  call_model : string;
  call_messages : list (string * string);
  call_temperature : Q;
  call_max_tokens : option nat
}.

(** The completion collaborator: the environment variable
    [OPENAI_API_KEY] as [os.getenv] reads it, and the service. Given the
    requests made so far and the new request, [create] is what
    [client.chat.completions.create(...)] followed by
    [.choices[0].message.content] evaluates to: the text, or the exception
    raised on the way. Building the client, [OpenAI(api_key=...)], sends
    nothing and is taken to succeed. *)
Record Completion : Type := {
  OPENAI_API_KEY : option string;
  create : list completion_call → completion_call → result string
}.

(** A computation that may call the completion service: it threads the
    log of the requests made, and keeps it when it raises. *)
Definition prog (A : Type) : Type :=
  list completion_call → result A * list completion_call.

Definition ret {A} (a : A) : prog A := λ log, (Ok a, log).

Definition raise {A} (e : exn) : prog A := λ log, (Raise e, log).

Definition bind {A B} (m : prog A) (k : A → prog B) : prog B :=
  λ log,
    match m log with
    | (Ok a, log') => k a log'
    | (Raise e, log') => (Raise e, log')
    end.

(** [for x in xs: s = body(s, x)]. *)
Fixpoint for_each {A S} (body : S → A → prog S) (s : S) (xs : list A)
    : prog S :=
  match xs with
  | [] => ret s
  | x :: xs' => bind (body s x) (λ s', for_each body s' xs')
  end.

(** [os.getenv(name)] followed by [if not api_key]. *)
Definition truthy_key (k : option string) : option string :=
  match k with
  | Some (String a s) => Some (String a s)
  | _ => None
  end.

Definition double_quote : string := String (ascii_of_nat 34) EmptyString.
Definition newline : string := String (ascii_of_nat 10) EmptyString.

(** [str(n)] for a non-negative integer. *)
Definition str_of_nat (n : nat) : string := pretty n.

End Effects.

Notation "'let*' x := m 'in' k" := (Effects.bind m (λ x, k))
(at level 10, x name, m at level 100, k at level 200, only parsing).

(** ** Answer synthesizer *)

Module Synthesizer.
Import Text Retriever Effects.

(** [enumerate(top_chunks, start=1)] with the two lists it fills. *)
Fixpoint context_blocks (idx : nat) (top_chunks : list scored)
    : list string * list string :=
  match top_chunks with
  | [] => ([], [])
  | (url, chunk, _) :: rest =>
      let '(blocks, sources) := context_blocks (S idx) rest in
      (("[" +:+ str_of_nat idx +:+ "] " +:+ url +:+ newline +:+ chunk) :: blocks,
       url :: sources)
  end.

Definition _build_context (top_chunks : list scored) : string * list string :=
  let '(blocks, sources) := context_blocks 1 top_chunks in
  (join (newline +:+ newline) blocks, sources).

Definition system_msg : string :=
  "You answer questions using only the provided sources. " +:+
  "If the answer is not in the sources, reply with " +:+
  double_quote +:+ "NOT FOUND" +:+ double_quote +:+ ". " +:+
  "Cite sources using [n] after sentences.".

Definition _call_openai_answer (L : Completion)
    (query context model : string) : prog string :=
  match truthy_key (OPENAI_API_KEY L) with
  | None => raise (RuntimeError "OPENAI_API_KEY is not set")
  | Some api_key =>
      let user_msg :=
        "Question: " +:+ query +:+ newline +:+ newline +:+
        "Sources:" +:+ newline +:+ context in
      let call := {|
        call_api_key := api_key;
        call_model := model;
        call_messages := [("system", system_msg); ("user", user_msg)];
        call_temperature := 2 # 10;
        call_max_tokens := None |} in
      λ log,
        match create L log call with
        | Ok content => (Ok (strip content), log ++ [call])
        | Raise e => (Raise e, log ++ [call])
        end
  end.

Definition is_open (c : ascii) : bool := (c =? "[")%char.
Definition is_close (c : ascii) : bool := (c =? "]")%char.

(** The digits of a marker: [digits_close s] is [Some d] when [s] is [d],
    a non-empty run of digits, followed by a closing bracket. *)
Fixpoint digits_close (s : string) : option string :=
  match s with
  | EmptyString => None
  | String a s' =>
      if isdigit a then
        if starts_with is_close s' then Some (String a EmptyString)
        else String a <$> digits_close s'
      else None
  end.

(** [re.findall(r"\[(\d+)\]", answer)]: the digit groups of the matches,
    left to right. A match holds no opening bracket after its first
    character, so no match starts inside another one, and the scan that
    resumes after each match finds a match at exactly the positions where
    one starts. *)
Fixpoint findall_markers (answer : string) : list string :=
  match answer with
  | EmptyString => []
  | String a s' =>
      if is_open a then
        match digits_close s' with
        | Some d => d :: findall_markers s'
        | None => findall_markers s'
        end
      else findall_markers s'
  end.

Definition digit_value (c : ascii) : Z := (Z.of_N (code c) - 48)%Z.

(** [int(match)] on a string of digits. *)
Definition int_of_digits (s : string) : Z :=
  let fix go (acc : Z) (s : string) : Z :=
    match s with
    | EmptyString => acc
    | String a s' => go (10 * acc + digit_value a)%Z s'
    end in
  go 0%Z s.

Record citation : Type := { url : string; section : string }.

(** The set [cited] that the loop of [_extract_citations] builds. *)
Definition cited_urls (answer : string) (sources : list string) : gset string :=
  foldl (λ (cited : gset string) (m : string),
           let idx := (int_of_digits m - 1)%Z in
           if decide (0 ≤ idx < Z.of_nat (length sources))%Z then
             match sources !! Z.to_nat idx with
             | Some u => cited ∪ {[u]}
             | None => cited
             end
           else cited)
        ∅ (findall_markers answer).

(** [sorted(cited)] orders the strings of the set by code point. *)
Definition sorted (s : gset string) : list string :=
  merge_sort String.le (elements s).

Definition _extract_citations (answer : string) (sources : list string)
    : list citation :=
  (λ u, {| url := u; section := "page" |}) <$> sorted (cited_urls answer sources).

(** The relevance gate compares the score, a quotient of two integers,
    with the literal [0.2]. *)
Definition relevance_threshold : Q := 2 # 10.

Definition _build_answer (L : Completion) (query : string)
    (top_chunks : list scored) (model : string)
    : prog (string * list citation * bool) :=
  match top_chunks with
  | [] => ret ("NOT FOUND", [], false)
  | first :: _ =>
      if Qltb (score_of first) relevance_threshold then
        ret ("NOT FOUND", [], false)
      else
        let '(context, sources) := _build_context top_chunks in
        let* answer := _call_openai_answer L query context model in
        let is_answerable := negb (contains "NOT FOUND" (upper answer)) in
        let citations := _extract_citations answer sources in
        ret (answer, citations, is_answerable)
  end.

End Synthesizer.

(** ** URLs *)

Module Url.
Import Text Effects.

(** The characters that [urlsplit] strips from the left of a URL (C0
    controls and space) and those it deletes everywhere (TAB, CR, LF). *)
Definition is_c0_or_space (c : ascii) : bool := (code c <=? 32)%N.

Definition is_unsafe (c : ascii) : bool :=
  (code c =? 9)%N || (code c =? 10)%N || (code c =? 13)%N.

Fixpoint remove_chars (p : ascii → bool) (s : string) : string :=
  match s with
  | EmptyString => EmptyString
  | String a s' =>
      if p a then remove_chars p s' else String a (remove_chars p s')
  end.

Definition isalpha (c : ascii) : bool := isupper c || islower c.

(** [scheme_chars]: letters, digits, [+], [-] and [.]. *)
Definition is_scheme_char (c : ascii) : bool :=
  isalpha c || isdigit c ||
  (code c =? 43)%N || (code c =? 45)%N || (code c =? 46)%N.

(** The text before the first colon and the text after it. *)
Fixpoint split_colon (s : string) : option (string * string) :=
  match s with
  | EmptyString => None
  | String a s' =>
      if (code a =? 58)%N then Some (EmptyString, s')
      else
        match split_colon s' with
        | Some (pre, rest) => Some (String a pre, rest)
        | None => None
        end
  end.

(** The URL without its scheme, when it has one: the text before the
    first colon is a scheme when it starts with a letter and holds
    scheme characters only. *)
Definition after_scheme (url : string) : string :=
  match split_colon url with
  | Some (String a pre, rest) =>
      if isalpha a && all_chars is_scheme_char (String a pre) then rest
      else url
  | _ => url
  end.

(** The delimiters that end the network location: [/], [?] and [#]. *)
Definition is_netloc_end (c : ascii) : bool :=
  (code c =? 47)%N || (code c =? 63)%N || (code c =? 35)%N.

Fixpoint take_until (p : ascii → bool) (s : string) : string :=
  match s with
  | EmptyString => EmptyString
  | String a s' => if p a then EmptyString else String a (take_until p s')
  end.

(** The network location that [urllib.parse.urlsplit] cuts out of a URL,
    before it validates it. *)
Definition raw_netloc (url : string) : string :=
  let url := remove_chars is_unsafe (lstrip_by is_c0_or_space url) in
  match after_scheme url with
  | String "/" (String "/" rest) => take_until is_netloc_end rest
  | _ => EmptyString
  end.

(** [urlparse(url).netloc]. The library rejects some network locations
    with a [ValueError] (unbalanced brackets, an invalid bracketed host);
    [netloc_ok] is that validation, a function of the network location. *)
Definition netloc (netloc_ok : string → bool) (url : string) : result string :=
  let n := raw_netloc url in
  if netloc_ok n then Ok n else Raise (ValueError "Invalid IPv6 URL").

(** [s.rstrip('/')]. *)
Definition rstrip_slash (s : string) : string :=
  rstrip_by (λ c, (code c =? 47)%N) s.

End Url.

(** ** Crawler *)

Module Crawler.
Import Text Effects Url.

Record PageContent : Type := { url : string; title : string; text : string }.

(** What [requests.get(url, timeout=10)] does: it raises a
    [requests.RequestException], raises something else, or returns a
    response with its [status_code] and [text]. *)
Inductive http_outcome : Type :=
  | RequestException
  | HttpRaises (e : exn)
  | Response (status_code : Z) (body : string).

(** The web collaborators. [requests_get] is given the URLs requested so
    far, so that a fetcher may answer the same URL differently over time.
    The HTML parser is seen through what the code reads from it. *)
Record Web : Type := {
  requests_get : list string → string → http_outcome;
  (** [soup.get_text(" ")] once [script], [style] and [noscript] are gone *)
  soup_text : string → string;
  (** [soup.title.string] when the title and its string are truthy *)
  soup_title : string → option string;
  (** the [href] of every [a] element that has one, in document order *)
  soup_hrefs : string → list string;
  urljoin : string → string → string;
  (** the first component of [urldefrag] *)
  urldefrag : string → string;
  netloc_ok : string → bool
}.

Definition _extract_text (W : Web) (html : string) : string :=
  _normalize_text (soup_text W html).

(** The loop of [_extract_links]: the limit is tested after the append. *)
Fixpoint links_loop (W : Web) (base_url : string) (hrefs links : list string)
    (max_links : nat) : list string :=
  match hrefs with
  | [] => links
  | href :: hrefs' =>
      let joined := urljoin W base_url href in
      let clean := urldefrag W joined in
      let links := links ++ [clean] in
      if decide (max_links ≤ length links) then links
      else links_loop W base_url hrefs' links max_links
  end.

Definition _extract_links (W : Web) (base_url html : string) (max_links : nat)
    : list string :=
  links_loop W base_url (soup_hrefs W html) [] max_links.

Definition _is_same_host (W : Web) (root url : string) : result bool :=
  match netloc (netloc_ok W) root with
  | Raise e => Raise e
  | Ok r =>
      match netloc (netloc_ok W) url with
      | Raise e => Raise e
      | Ok u => Ok (bool_decide (r = u))
      end
  end.

(** [for link in links: if _is_same_host(start_url, link) and link not in
    seen: queue.append(link)]. *)
Fixpoint enqueue_links (W : Web) (start_url : string) (seen : gset string)
    (links queue : list string) : result (list string) :=
  match links with
  | [] => Ok queue
  | link :: links' =>
      match _is_same_host W start_url link with
      | Raise e => Raise e
      | Ok same =>
          enqueue_links W start_url seen links'
            (if same && bool_decide (link ∉ seen) then queue ++ [link]
             else queue)
      end
  end.

(** The state of the crawl loop, with the log of the requests sent. *)
Record crawl_state : Type := {
  seen : gset string;
  queue : list string;
  pages : list PageContent;
  requested : list string
}.

(** The state after a URL that gave no page: it is marked as seen, and
    the request is logged. *)
Definition skipped (st : crawl_state) (url : string) (queue' : list string)
    : crawl_state :=
  {| seen := seen st ∪ {[url]}; queue := queue'; pages := pages st;
     requested := requested st ++ [url] |}.

(** The [while queue and len(pages) < max_pages] loop, shared by the two
    engines. [None] is a loop that has not finished within [fuel]
    iterations; the result is the pages and the requests sent. *)
Fixpoint crawl_loop (W : Web) (start_url : string)
    (max_pages max_links_per_page : nat) (fuel : nat) (st : crawl_state)
    : option (result (list PageContent * list string)) :=
  match fuel with
  | 0 => None
  | S fuel' =>
      match queue st with
      | [] => Some (Ok (pages st, requested st))
      | url :: queue' =>
          if decide (length (pages st) < max_pages) then
            if decide (url ∈ seen st) then
              crawl_loop W start_url max_pages max_links_per_page fuel'
                {| seen := seen st; queue := queue'; pages := pages st;
                   requested := requested st |}
            else
              match requests_get W (requested st) url with
              | RequestException =>
                  crawl_loop W start_url max_pages max_links_per_page fuel'
                    (skipped st url queue')
              | HttpRaises e => Some (Raise e)
              | Response status_code html =>
                  if decide (400 ≤ status_code)%Z then
                    crawl_loop W start_url max_pages max_links_per_page fuel'
                      (skipped st url queue')
                  else
                    let text := _extract_text W html in
                    let title :=
                      match soup_title W html with
                      | Some t => _normalize_text t
                      | None => EmptyString
                      end in
                    match
                      enqueue_links W start_url (seen st ∪ {[url]})
                        (_extract_links W url html max_links_per_page) queue'
                    with
                    | Raise e => Some (Raise e)
                    | Ok queue'' =>
                        crawl_loop W start_url max_pages max_links_per_page fuel'
                          {| seen := seen st ∪ {[url]};
                             queue := queue'';
                             pages :=
                               pages st ++
                               [{| url := url; title := title; text := text |}];
                             requested := requested st ++ [url] |}
                    end
              end
          else Some (Ok (pages st, requested st))
      end
  end.

(** Iterations that always suffice: every iteration pops one URL, and
    only a page that is kept, of which there are at most [max_pages],
    appends links, at most [max 1 max_links_per_page] of them. *)
Definition crawl_fuel (queue : list string) (max_pages max_links_per_page : nat)
    : nat :=
  S (length queue + max_pages * (1 `max` max_links_per_page)).

Definition crawl_from (W : Web) (start_url : string) (queue : list string)
    (max_pages max_links_per_page : nat)
    : option (result (list PageContent * list string)) :=
  crawl_loop W start_url max_pages max_links_per_page
    (crawl_fuel queue max_pages max_links_per_page)
    {| seen := ∅; queue := queue; pages := []; requested := [] |}.

End Crawler.

(** ** The report *)

Module Report.
Import Synthesizer.

Inductive status : Type := answered | not_found.

#[global] Instance status_eq_dec : EqDecision status.
Proof. solve_decision. Defined.

(** [round(x, 2)] on the exact quotient: the nearest hundredth, a tie
    going to the even one. *)
Definition round_half_even (x : Q) : Z :=
  let f := Qfloor x in
  match (x - inject_Z f ?= 1 # 2)%Q with
  | Lt => f
  | Gt => (f + 1)%Z
  | Eq => if Z.even f then f else (f + 1)%Z
  end.

Definition round2 (x : Q) : Q := round_half_even (x * 100) # 100.

(** The dictionaries of the report. [V] is the type of the [query] and
    [answer] entries and of the missing topics, [B] the type of the
    [answerable] and [citation_ok] entries: strings and booleans in the
    per-question engine, decoded JSON values in the single-call engine. *)
Record metrics (B : Type) : Type := {
  answerable : B;
  citation_ok : B;
  hallucination : bool;
  completeness : Q
}.

Record query_result (V B : Type) : Type := {
  query : V;
  answer : V;
  result_status : status;
  citations : list citation;
  result_metrics : metrics B
}.

(** The entry [completeness] of [overall_scores] is
    [overall_completeness]. *)
Record overall_scores : Type := {
  answerability_rate : Q;
  citation_coverage : Q;
  hallucination_rate : Q;
  overall_completeness : Q
}.

Record report (V B : Type) : Type := {
  site_url : string;
  crawled_pages : nat;
  indexed_chunks : nat;
  queries_run : nat;
  overall : overall_scores;
  query_results : list (query_result V B);
  missing_topics : list V
}.

Global Arguments answerable {B} _.
Global Arguments citation_ok {B} _.
Global Arguments hallucination {B} _.
Global Arguments completeness {B} _.
Global Arguments query {V B} _.
Global Arguments answer {V B} _.
Global Arguments result_status {V B} _.
Global Arguments citations {V B} _.
Global Arguments result_metrics {V B} _.
Global Arguments site_url {V B} _.
Global Arguments crawled_pages {V B} _.
Global Arguments indexed_chunks {V B} _.
Global Arguments queries_run {V B} _.
Global Arguments overall {V B} _.
Global Arguments query_results {V B} _.
Global Arguments missing_topics {V B} _.

Definition DEFAULT_QUERIES : list string := [
  "What services do you offer?";
  "What is your pricing?";
  "Where are you located?";
  "What are your business hours?";
  "Do you offer refunds or a money-back guarantee?"
].

(** [list(queries) if queries else DEFAULT_QUERIES]. *)
Definition queries_or_default (queries : option (list string)) : list string :=
  match queries with
  | Some (q :: qs) => q :: qs
  | _ => DEFAULT_QUERIES
  end.

(** [bool(l)] for a list. *)
Definition nonempty {A} (l : list A) : bool :=
  match l with [] => false | _ => true end.

(** The four rates of a report. *)
Definition rates (o : overall_scores) : list Q :=
  [answerability_rate o; citation_coverage o; hallucination_rate o;
   overall_completeness o].

End Report.

(** ** The per-question engine: [ai_tool_anayze/backend/benchmark.py] *)

Module Analyze.
Import Text Chunker Retriever Effects Synthesizer Url Crawler Report.

Definition crawl_site (W : Web) (start_url : string)
    (max_pages max_links_per_page : nat)
    : option (result (list PageContent * list string)) :=
  crawl_from W start_url [start_url] max_pages max_links_per_page.

Definition _completeness_score (query answer : string) : Q :=
  let q_tokens : gset string := list_to_set (_tokenize query) in
  if decide (q_tokens = ∅) then 0%Q
  else
    let a_tokens : gset string := list_to_set (_tokenize answer) in
    true_div (size (q_tokens ∩ a_tokens)) (size q_tokens).

(** [chunks]: every chunk of every page, with the URL of its page. *)
Fixpoint index_pages (pages : list PageContent)
    : option (list (string * string)) :=
  match pages with
  | [] => Some []
  | page :: pages' =>
      cs ← _chunk_text (text page) 800 120;
      rest ← index_pages pages';
      Some (((λ chunk, (Crawler.url page, chunk)) <$> cs) ++ rest)
  end.

(** The variables that the loop over the queries updates. *)
Record tally : Type := {
  results : list (query_result string bool);
  answerable_count : nat;
  citation_ok_count : nat;
  hallucinations : nat;
  completeness_scores : list Q;
  missing : list string
}.

Definition empty_tally : tally :=
  {| results := []; answerable_count := 0; citation_ok_count := 0;
     hallucinations := 0; completeness_scores := []; missing := [] |}.

(** The body of [for query in queries_list]. *)
Definition query_step (L : Completion) (model : string)
    (chunks : list (string * string)) (t : tally) (q : string) : prog tally :=
  let top_chunks := _select_top_chunks q chunks 3 in
  let* r := _build_answer L q top_chunks model in
  let '(ans, cits, is_answerable) := r in
  let completeness := _completeness_score q ans in
  ret {|
    answerable_count :=
      if is_answerable then answerable_count t + 1 else answerable_count t;
    citation_ok_count :=
      if is_answerable
      then citation_ok_count t + (if nonempty cits then 1 else 0)
      else citation_ok_count t;
    hallucinations :=
      if is_answerable then hallucinations t + 0 else hallucinations t;
    missing := if is_answerable then missing t else missing t ++ [q];
    completeness_scores := completeness_scores t ++ [completeness];
    results :=
      results t ++ [{|
        query := q;
        answer := ans;
        result_status := if is_answerable then answered else not_found;
        citations := cits;
        result_metrics := {|
          answerable := is_answerable;
          citation_ok := nonempty cits;
          hallucination := false;
          completeness := round2 completeness |} |}] |}.

Definition Qsum (l : list Q) : Q := foldr Qplus 0%Q l.

(** [round(count / total, 2)]. *)
Definition rate (count total : nat) : Q := round2 (true_div count total).

Definition make_report (site_url : string) (pages : list PageContent)
    (chunks : list (string * string)) (queries_list : list string)
    (t : tally) : report string bool :=
  let total := 1 `max` length queries_list in
  {| site_url := site_url;
     crawled_pages := length pages;
     indexed_chunks := length chunks;
     queries_run := length queries_list;
     overall := {|
       answerability_rate := rate (answerable_count t) total;
       citation_coverage := rate (citation_ok_count t) total;
       hallucination_rate := rate (hallucinations t) total;
       overall_completeness :=
         match completeness_scores t with
         | [] => 0%Q
         | _ => round2 (Qsum (completeness_scores t) / inject_Z (Z.of_nat total))
         end |};
     query_results := results t;
     missing_topics := missing t |}.

(** The outcome of a run: the report or the exception that ends the run,
    with the requests sent to the completion service. [None] is a run
    whose crawl or chunking has not finished within its fuel. *)
Definition run_answerability_benchmark (W : Web) (L : Completion)
    (site_url : string) (queries : option (list string)) (model : string)
    : option (result (report string bool) * list completion_call) :=
  let queries_list := queries_or_default queries in
  match crawl_site W site_url 15 50 with
  | None => None
  | Some (Raise e) => Some (Raise e, [])
  | Some (Ok (pages, _)) =>
      match index_pages pages with
      | None => None
      | Some chunks =>
          Some
            match for_each (query_step L model chunks) empty_tally queries_list [] with
            | (Raise e, log) => (Raise e, log)
            | (Ok t, log) =>
                (Ok (make_report site_url pages chunks queries_list t), log)
            end
      end
  end.

End Analyze.

(** ** The single-call engine: [backend/benchmark.py] *)

Module Backend.
Import Text Retriever Effects Synthesizer Url Crawler Report.

(** A decoded JSON document, as [json.loads] returns it. An object is the
    list of its entries; the value of a key is its first entry. *)
#[local] Unset Elimination Schemes.
Inductive json : Type :=
  | JNull
  | JBool (b : bool)
  | JNum (q : Q)
  | JStr (s : string)
  | JArr (items : list json)
  | JObj (fields : list (string * json)).
#[local] Set Elimination Schemes.

(** The truth value of a decoded value. *)
Definition truthy (v : json) : bool :=
  match v with
  | JNull => false
  | JBool b => b
  | JNum q => negb (Qeq_bool q 0)
  | JStr s => negb (bool_decide (s = EmptyString))
  | JArr items => nonempty items
  | JObj fields => nonempty fields
  end.

(** [d.get(key, default)]. *)
Fixpoint dict_get (fields : list (string * json)) (key : string)
    (default : json) : json :=
  match fields with
  | [] => default
  | (k, v) :: fields' =>
      if bool_decide (k = key) then v else dict_get fields' key default
  end.

Definition priority_paths : list string := [
  ""; "/contact"; "/contact-us"; "/about"; "/about-us"; "/pricing";
  "/prices"; "/plans"; "/faq"; "/support"; "/help"; "/locations";
  "/hours"; "/refund"; "/refund-policy"; "/terms"; "/services"
].

Definition crawl_site (W : Web) (start_url : string)
    (max_pages max_links_per_page : nat)
    : option (result (list PageContent * list string)) :=
  let base := rstrip_slash start_url in
  let priority_urls := (λ path, base +:+ path) <$> priority_paths in
  let queue := priority_urls ++ [start_url] in
  crawl_from W start_url queue max_pages max_links_per_page.

(** The report of a crawl without pages. *)
Definition empty_crawl_report (site_url : string) (queries_list : list string)
    : report json json :=
  {| site_url := site_url;
     crawled_pages := 0;
     indexed_chunks := 0;
     queries_run := length queries_list;
     overall := {|
       answerability_rate := 0;
       citation_coverage := 0;
       hallucination_rate := 0;
       overall_completeness := 0 |};
     query_results :=
       (λ q, {|
          query := JStr q;
          answer := JStr "Could not crawl website";
          result_status := not_found;
          citations := [];
          result_metrics := {|
            answerable := JBool false;
            citation_ok := JBool false;
            hallucination := false;
            completeness := 0 |} |}) <$> queries_list;
     missing_topics := JStr <$> queries_list |}.

Definition longer_than (n : N) (s : string) : bool :=
  (n <? N.of_nat (String.length s))%N.

Definition truncate (n : N) (s : string) : string := take_chars (N.to_nat n) s.

(** The loop that builds [combined_content], and its truncation. *)
Definition combined_content (pages : list PageContent) : string :=
  let combined :=
    foldl (λ acc page,
             let page_text :=
               if longer_than 8000 (text page) then truncate 8000 (text page)
               else text page in
             acc +:+ newline +:+ newline +:+ "=== PAGE: " +:+ Crawler.url page +:+
             " ===" +:+ newline +:+ page_text)
          EmptyString pages in
  if longer_than 50000 combined
  then truncate 50000 combined +:+ newline +:+ "...[content truncated]..."
  else combined.

(** [enumerate] of the questions, numbered from 1. *)
Definition questions_text (queries_list : list string) : string :=
  join newline (imap (λ i q, str_of_nat (i + 1) +:+ ". " +:+ q) queries_list).

Definition quoted (s : string) : string := double_quote +:+ s +:+ double_quote.

Definition prompt (domain questions content : string) : string :=
  join newline [
    "You are analyzing the website " +:+ domain +:+
      ". Based on the website content provided below, answer each question thoroughly.";
    "";
    "IMPORTANT INSTRUCTIONS:";
    "- Search through ALL the page content carefully before answering";
    "- Look for addresses, locations, office info in contact pages";
    "- Look for pricing, plans, or " +:+ quoted "get a demo" +:+ " / " +:+
      quoted "contact sales" +:+ " if no public pricing";
    "- For business hours, look for support hours, office hours, or operating hours";
    "- For refunds, look for terms of service, refund policy, or money-back guarantees";
    "- If info is partially available, provide what you found";
    "- Only say " +:+ quoted "NOT FOUND" +:+
      " if you truly cannot find ANY relevant information";
    "";
    "Questions to answer:";
    questions;
    "";
    "Website Content (from multiple pages):";
    content;
    "";
    "Respond in JSON format exactly like this:";
    "[";
    "  {" +:+ quoted "query" +:+ ": " +:+ quoted "question text" +:+ ", " +:+
      quoted "answer" +:+ ": " +:+
      quoted "detailed answer based on content, or NOT FOUND if truly not available" +:+
      ", " +:+ quoted "found" +:+ ": true/false}";
    "]";
    "";
    "Return ONLY the valid JSON array, no markdown, no extra text."
  ].

Fixpoint strip_prefix (p s : string) : option string :=
  match p, s with
  | EmptyString, _ => Some s
  | String a p', String b s' =>
      if bool_decide (a = b) then strip_prefix p' s' else None
  | _, _ => None
  end.

Definition strip_suffix (p s : string) : option string :=
  String.rev <$> strip_prefix (String.rev p) (String.rev s).

Definition fence : string := "```".

(** The two [re.sub] calls under [if response_text.startswith(fence)]: the
    opening fence with an optional [json] and an optional line feed, then
    the closing fence with an optional line feed before it. The text was
    stripped, so the [$] of the second pattern is the end of the text. *)
Definition strip_fences (response_text : string) : string :=
  match strip_prefix fence response_text with
  | None => response_text
  | Some r =>
      let r := default r (strip_prefix "json" r) in
      let r := default r (strip_prefix newline r) in
      match strip_suffix fence r with
      | None => r
      | Some r' => default r' (strip_suffix newline r')
      end
  end.

Definition error_results (answer : string) (queries_list : list string) : json :=
  JArr ((λ q, JObj [("query", JStr q); ("answer", JStr answer);
                    ("found", JBool false)]) <$> queries_list).

(** The [try] statement: the request, the decoding of the reply, and the
    two handlers. [json_loads] is [None] on a [JSONDecodeError]. *)
Definition ask (L : Completion) (json_loads : string → option json)
    (api_key model user_prompt : string) (queries_list : list string)
    : json * list completion_call :=
  let call := {|
    call_api_key := api_key;
    call_model := model;
    call_messages := [("user", user_prompt)];
    call_temperature := 1 # 10;
    call_max_tokens := Some 2000 |} in
  match create L [] call with
  | Raise e =>
      (error_results ("Error: " +:+ exn_str e) queries_list, [call])
  | Ok content =>
      let response_text := strip_fences (strip content) in
      match json_loads response_text with
      | None => (error_results "Error parsing response" queries_list, [call])
      | Some results => (results, [call])
      end
  end.

(** The values that [for ... in enumerate(results)] visits. *)
Fixpoint chars_of (s : string) : list json :=
  match s with
  | EmptyString => []
  | String a s' => JStr (String a EmptyString) :: chars_of s'
  end.

Definition iterate (results : json) : result (list json) :=
  match results with
  | JArr items => Ok items
  | JObj fields => Ok ((λ kv : string * json, JStr kv.1) <$> fields)
  | JStr s => Ok (chars_of s)
  | _ => Raise (TypeError "object is not iterable")
  end.

Record tally : Type := {
  results : list (query_result json json);
  answered_count : nat;
  missing : list json
}.

(** The body of [for i, result in enumerate(results)]. *)
Definition process (site_url : string) (pages : list PageContent)
    (queries_list : list string) (t : tally) (i : nat) (r : json)
    : result tally :=
  match r with
  | JObj fields =>
      let q :=
        dict_get fields "query"
          (match queries_list !! i with
           | Some q => JStr q
           | None => JStr ("Question " +:+ str_of_nat (i + 1))
           end) in
      let ans := dict_get fields "answer" (JStr "NOT FOUND") in
      let found := dict_get fields "found" (JBool false) in
      let is_answered : result bool :=
        if truthy found then
          match ans with
          | JStr a => Ok (negb (contains "NOT FOUND" (upper a)))
          | _ => Raise (AttributeError "object has no attribute 'upper'")
          end
        else Ok false in
      match is_answered with
      | Raise e => Raise e
      | Ok ok =>
          Ok {|
            answered_count := if ok then answered_count t + 1 else answered_count t;
            missing := if ok then missing t else missing t ++ [q];
            results :=
              results t ++ [{|
                query := q;
                answer := ans;
                result_status := if ok then answered else not_found;
                citations :=
                  if truthy found then
                    [{| Synthesizer.url :=
                          match pages with
                          | page :: _ => Crawler.url page
                          | [] => site_url
                          end;
                        section := "page" |}]
                  else [];
                result_metrics := {|
                  answerable := found;
                  citation_ok := found;
                  hallucination := false;
                  completeness := if truthy found then 1 else 0 |} |}] |}
      end
  | _ => Raise (AttributeError "object has no attribute 'get'")
  end.

Fixpoint process_all (site_url : string) (pages : list PageContent)
    (queries_list : list string) (t : tally) (i : nat) (items : list json)
    : result tally :=
  match items with
  | [] => Ok t
  | r :: items' =>
      match process site_url pages queries_list t i r with
      | Raise e => Raise e
      | Ok t' => process_all site_url pages queries_list t' (S i) items'
      end
  end.

Definition make_report (site_url : string) (pages : list PageContent)
    (queries_list : list string) (t : tally) : report json json :=
  let total := 1 `max` length queries_list in
  {| site_url := site_url;
     crawled_pages := length pages;
     indexed_chunks := length pages;
     queries_run := length queries_list;
     overall := {|
       answerability_rate := round2 (true_div (answered_count t) total);
       citation_coverage := round2 (true_div (answered_count t) total);
       hallucination_rate := 0;
       overall_completeness := round2 (true_div (answered_count t) total) |};
     query_results := results t;
     missing_topics := missing t |}.

(** The outcome of a run, as for the per-question engine. *)
Definition run_answerability_benchmark (W : Web) (L : Completion)
    (json_loads : string → option json)
    (site_url : string) (queries : option (list string)) (model : string)
    : option (result (report json json) * list completion_call) :=
  let queries_list := queries_or_default queries in
  match crawl_site W site_url 10 50 with
  | None => None
  | Some (Raise e) => Some (Raise e, [])
  | Some (Ok ([], _)) => Some (Ok (empty_crawl_report site_url queries_list), [])
  | Some (Ok (pages, _)) =>
      let content := combined_content pages in
      match netloc (netloc_ok W) site_url with
      | Raise e => Some (Raise e, [])
      | Ok domain =>
          let user_prompt := prompt domain (questions_text queries_list) content in
          match truthy_key (OPENAI_API_KEY L) with
          | None => Some (Raise (RuntimeError "OPENAI_API_KEY is not set"), [])
          | Some api_key =>
              let '(results, log) :=
                ask L json_loads api_key model user_prompt queries_list in
              Some
                match iterate results with
                | Raise e => (Raise e, log)
                | Ok items =>
                    match
                      process_all site_url pages queries_list
                        {| results := []; answered_count := 0; missing := [] |}
                        0 items
                    with
                    | Raise e => (Raise e, log)
                    | Ok t => (Ok (make_report site_url pages queries_list t), log)
                    end
                end
          end
      end
  end.

End Backend.

(** ** Definitions that follow the wording of the specification *)

Module Spec.
Import Text Retriever Effects Synthesizer Url Crawler Report.

(** The occurrence count of a token in a list of tokens. *)
Definition occurrences (t : string) (tokens : list string) : nat :=
  length (filter (λ x, x = t) tokens).

(** The relevance score as the specification words it: the sum over the
    tokens of the query of the token's occurrence count in the chunk,
    divided by the number of tokens of the query. *)
Definition score_spec (query chunk : string) : Q :=
  (inject_Z (Z.of_nat
     (sum_list ((λ t, occurrences t (_tokenize chunk)) <$> _tokenize query)))
   / inject_Z (Z.of_nat (length (_tokenize query))))%Q.

(** Non-increasing scores. *)
Definition score_ge (a b : scored) : Prop := (score_of b <= score_of a)%Q.

#[global] Instance same_score_dec (s : Q) (x : scored) :
  Decision (score_of x == s)%Q := Qeq_dec (score_of x) s.

(** The chunks of the input with their scores, in input order: the list
    [scored] before it is sorted. *)
Definition score_all (query : string) (chunks : list (string * string))
    : list scored :=
  (λ uc : string * string, (uc.1, uc.2, _score_overlap query uc.2)) <$> chunks.

(** The highest score of a list of scored chunks. *)
Definition highest_score (top_chunks : list scored) : option Q :=
  match top_chunks with
  | [] => None
  | x :: rest =>
      Some (foldr (λ y m, if Qltb m (score_of y) then score_of y else m)
                  (score_of x) rest)
  end.

(** The answer holds a marker [[n]]: an opening bracket, a non-empty run
    of digits that reads [n], a closing bracket. *)
Definition marker_in (answer : string) (n : Z) : Prop :=
  ∃ pre d post : string,
    answer = pre +:+ "[" +:+ d +:+ "]" +:+ post ∧
    is_run isdigit d ∧ int_of_digits d = n.







(** A rate: a number of the closed interval from 0 to 1. *)
Definition is_rate (x : Q) : Prop := (0 <= x)%Q ∧ (x <= 1)%Q.

(** The relevance gate closes on a question: no chunk was selected, or
    the first selected chunk scores below the threshold. *)
Definition gated (q : string) (chunks : list (string * string)) : bool :=
  match _select_top_chunks q chunks 3 with
  | [] => true
  | first :: _ => Qltb (score_of first) relevance_threshold
  end.

(** The result that the per-question engine records for a question on
    which the gate closes. *)
Definition gated_result (q : string) : query_result string bool :=
  {| query := q;
     answer := "NOT FOUND";
     result_status := not_found;
     citations := [];
     result_metrics := {|
       answerable := false;
       citation_ok := false;
       hallucination := false;
       completeness := round2 (Analyze._completeness_score q "NOT FOUND") |} |}.

(** The results whose status is [not_found], in order. *)
Definition not_found_results {V B} (rs : list (query_result V B))
    : list (query_result V B) :=
  filter (λ r, result_status r = not_found) rs.

(** The update of the loop variables by a question on which the gate
    closes. *)
Definition gated_step (t : Analyze.tally) (q : string) : Analyze.tally :=
  {| Analyze.results := Analyze.results t ++ [gated_result q];
     Analyze.answerable_count := Analyze.answerable_count t;
     Analyze.citation_ok_count := Analyze.citation_ok_count t;
     Analyze.hallucinations := Analyze.hallucinations t;
     Analyze.completeness_scores :=
       Analyze.completeness_scores t ++ [Analyze._completeness_score q "NOT FOUND"];
     Analyze.missing := Analyze.missing t ++ [q] |}.

(** What the loop variables of the per-question engine satisfy after the
    questions [done]. *)
Definition tally_inv (done : list string) (t : Analyze.tally) : Prop :=
  query <$> Analyze.results t = done ∧
  Analyze.missing t = query <$> not_found_results (Analyze.results t) ∧
  Analyze.answerable_count t ≤ length (Analyze.results t) ∧
  Analyze.citation_ok_count t ≤ length (Analyze.results t) ∧
  Analyze.hallucinations t = 0 ∧
  length (Analyze.completeness_scores t) = length (Analyze.results t) ∧
  Forall is_rate (Analyze.completeness_scores t) ∧
  Forall (λ r, completeness (result_metrics r)
               = round2 (Analyze._completeness_score (query r) (answer r)))
         (Analyze.results t).

(** The configuration error of a missing credential. *)
Definition missing_credential : exn := RuntimeError "OPENAI_API_KEY is not set".

End Spec.

(** ** Collaborators and inputs of the worked examples *)

Module Fixtures.
Import Text Retriever Effects Synthesizer Url Crawler Report.

(** A completion service with a credential that always gives the same
    reply. *)
Definition stub_service : Completion :=
  {| OPENAI_API_KEY := Some "key"; create := λ _ _, Ok "Consulting [1]." |}.

(** A web in which every request is answered with an empty page, and
    every network location is accepted. *)
Definition open_web : Web := {|
  requests_get := λ _ _, Response 200 EmptyString;
  soup_text := λ html, html;
  soup_title := λ _, None;
  soup_hrefs := λ _, [];
  urljoin := λ _ href, href;
  urldefrag := λ u, u;
  netloc_ok := λ _, true |}.


(** A site of two pages on one host, with a link that leaves the host. *)
Definition two_page_web : Web := {|
  requests_get := λ _ u,
    if bool_decide (u = "https://shop.example/") then
      Response 200 "home"
    else if bool_decide (u = "https://shop.example/pricing") then
      Response 200 "pricing"
    else Response 404 EmptyString;
  soup_text := λ html,
    if bool_decide (html = "home")
    then "We offer consulting and design services for $500/month."
    else "Plans start at $500 per month.";
  soup_title := λ html, Some html;
  soup_hrefs := λ html,
    if bool_decide (html = "home")
    then ["/pricing"; "https://other.example/"; "/pricing#plans"]
    else ["/"];
  urljoin := λ _ href,
    if String.prefix "https://" href then href
    else "https://shop.example" +:+ href;
  urldefrag := take_until (λ c, (code c =? 35)%N);
  netloc_ok := λ _, true |}.

(** A web in which every request fails. *)
Definition closed_web : Web := {|
  requests_get := λ _ _, RequestException;
  soup_text := λ html, html;
  soup_title := λ _, None;
  soup_hrefs := λ _, [];
  urljoin := λ _ href, href;
  urldefrag := λ u, u;
  netloc_ok := λ _, true |}.

(** A completion service without credential. *)
Definition no_key_service : Completion :=
  {| OPENAI_API_KEY := None; create := λ _ _, Ok "unused" |}.

(** A reply that answers two questions, as JSON text, the service that
    always gives it, and a decoder that knows this text only. *)
Definition two_answers_text : string :=
  "[{" +:+ Backend.quoted "query" +:+ ": " +:+
    Backend.quoted "What is your pricing?" +:+ ", " +:+
    Backend.quoted "answer" +:+ ": " +:+
    Backend.quoted "Plans start at $500 per month." +:+ ", " +:+
    Backend.quoted "found" +:+ ": true}, {" +:+
    Backend.quoted "query" +:+ ": " +:+
    Backend.quoted "What services do you offer?" +:+ ", " +:+
    Backend.quoted "answer" +:+ ": " +:+
    Backend.quoted "Consulting and design." +:+ ", " +:+
    Backend.quoted "found" +:+ ": true}]".

Definition two_answers_service : Completion :=
  {| OPENAI_API_KEY := Some "key"; create := λ _ _, Ok two_answers_text |}.

Definition decode_two_answers (s : string) : option Backend.json :=
  if bool_decide (s = two_answers_text) then
    Some (Backend.JArr [
      Backend.JObj [("query", Backend.JStr "What is your pricing?");
                    ("answer", Backend.JStr "Plans start at $500 per month.");
                    ("found", Backend.JBool true)];
      Backend.JObj [("query", Backend.JStr "What services do you offer?");
                    ("answer", Backend.JStr "Consulting and design.");
                    ("found", Backend.JBool true)]])
  else None.

(** A question of 251 distinct tokens, the first of which is "not". *)
Definition long_question : string :=
  "not 1 2 3 4 5 6 7 8 9 10 11 12 13 14 15 16 17 18 19 20 21 22 23 24 25 26 27 28 29 30 31 32 33 34 35 36 37 38 39 40 41 42 43 44 45 46 47 48 49 50 51 52 53 54 55 56 57 58 59 60 61 62 63 64 65 66 67 68 69 70 71 72 73 74 75 76 77 78 79 80 81 82 83 84 85 86 87 88 89 90 91 92 93 94 95 96 97 98 99 100 101 102 103 104 105 106 107 108 109 110 111 112 113 114 115 116 117 118 119 120 121 122 123 124 125 126 127 128 129 130 131 132 133 134 135 136 137 138 139 140 141 142 143 144 145 146 147 148 149 150 151 152 153 154 155 156 157 158 159 160 161 162 163 164 165 166 167 168 169 170 171 172 173 174 175 176 177 178 179 180 181 182 183 184 185 186 187 188 189 190 191 192 193 194 195 196 197 198 199 200 201 202 203 204 205 206 207 208 209 210 211 212 213 214 215 216 217 218 219 220 221 222 223 224 225 226 227 228 229 230 231 232 233 234 235 236 237 238 239 240 241 242 243 244 245 246 247 248 249 250".

End Fixtures.

(** ** The benchmark endpoints of the API: [backend/main.py] *)

Module Service.
Import Text Effects Url Crawler Report.

(** [s.replace(old, "")] for a non-empty [old]: the occurrences of [old]
    are removed from left to right, and the scan resumes after each one.
    [skip] counts the characters of the current occurrence still to be
    dropped. *)
Fixpoint remove_all_go (old : string) (skip : nat) (s : string) : string :=
  match s with
  | EmptyString => EmptyString
  | String a s' =>
      match skip with
      | S k => remove_all_go old k s'
      | 0 =>
          if String.prefix old s
          then remove_all_go old (String.length old - 1) s'
          else String a (remove_all_go old 0 s')
      end
  end.

Definition remove_all (old s : string) : string := remove_all_go old 0 s.

Definition get_domain_from_url (netloc_ok : string → bool) (url : string)
    : result string :=
  match netloc netloc_ok url with
  | Raise e => Raise e
  | Ok parsed_netloc => Ok (remove_all "www." parsed_netloc)
  end.

(** The value stored under [benchmark_data]: the report of a run, or the
    dictionary with the [error] of a failed one. *)
Inductive benchmark_data : Type :=
  | BenchReport (r : report Backend.json Backend.json)
  | BenchError (msg : string).

(** A session of [audit_sessions]. The two benchmark entries are [None]
    when the key is absent or holds [None]: the code reads them with
    [.get] only. *)
Record session : Type := {
  url : string;
  status : string;
  progress : Z;
  message : string;
  audit_data : option Backend.json;
  llmstxt_content : option string;
  error : option string;
  benchmark_status : option string;
  session_benchmark_data : option benchmark_data
}.

(** What a handler gives back: its response, the [HTTPException] it
    raises, or another exception. *)
Inductive reply (A : Type) : Type :=
  | Reply (a : A)
  | HTTPException (status_code : nat) (detail : string)
  | Crash (e : exn).
Global Arguments Reply {A} a.
Global Arguments HTTPException {A} status_code detail.
Global Arguments Crash {A} e.

Record AuditStatusResponse : Type := {
  audit_session_id : string;
  audit_status : string;
  audit_progress : Z;
  audit_message : string;
  response_audit_data : option Backend.json;
  response_llmstxt_content : option string;
  audit_error : option string
}.

Record BenchmarkResponse : Type := {
  session_id : string;
  response_status : string;
  response_site_url : option string;
  response_crawled_pages : option nat;
  response_indexed_chunks : option nat;
  response_queries_run : option nat;
  response_overall_scores : option overall_scores;
  response_query_results : option (list (query_result Backend.json Backend.json));
  response_missing_topics : option (list Backend.json);
  response_error : option string
}.

(** [BenchmarkResponse(session_id=..., status=...)]: the other fields
    take their default [None]. *)
Definition status_only (sid st : string) : BenchmarkResponse :=
  {| session_id := sid; response_status := st;
     response_site_url := None; response_crawled_pages := None;
     response_indexed_chunks := None; response_queries_run := None;
     response_overall_scores := None; response_query_results := None;
     response_missing_topics := None; response_error := None |}.

(** The handler [start_audit], for the identifier that [uuid4] gives and
    the URL of the request: it stores a new session (over any session of
    the same identifier) and queues the audit, which is not part of this
    model. *)
Definition start_audit (sessions : gmap string session) (new_id request_url : string)
    : AuditStatusResponse * gmap string session :=
  ({| audit_session_id := new_id;
      audit_status := "pending";
      audit_progress := 0;
      audit_message := "Audit started...";
      response_audit_data := None;
      response_llmstxt_content := None;
      audit_error := None |},
   <[new_id := {| url := request_url;
                  status := "pending";
                  progress := 0;
                  message := "Audit queued...";
                  audit_data := None;
                  llmstxt_content := None;
                  error := None;
                  benchmark_status := None;
                  session_benchmark_data := None |}]> sessions).

Definition get_audit_status (sessions : gmap string session) (sid : string)
    : reply AuditStatusResponse :=
  match sessions !! sid with
  | None => HTTPException 404 "Session not found"
  | Some s =>
      Reply {| audit_session_id := sid;
               audit_status := status s;
               audit_progress := progress s;
               audit_message := message s;
               response_audit_data := audit_data s;
               response_llmstxt_content := llmstxt_content s;
               audit_error := error s |}
  end.

Definition set_benchmark (st : option string) (d : option benchmark_data)
    (s : session) : session :=
  {| url := url s; status := status s; progress := progress s;
     message := message s; audit_data := audit_data s;
     llmstxt_content := llmstxt_content s; error := error s;
     benchmark_status := st; session_benchmark_data := d |}.

(** The handler [run_benchmark]: the two writes to the session, and the
    response; the task it queues is [run_benchmark_task]. *)
Definition run_benchmark (sessions : gmap string session) (sid : string)
    : reply BenchmarkResponse * gmap string session :=
  match sessions !! sid with
  | None => (HTTPException 404 "Session not found", sessions)
  | Some s =>
      match url s with
      | EmptyString => (HTTPException 400 "No URL in session", sessions)
      | _ =>
          (Reply (status_only sid "running"),
           <[sid := set_benchmark (Some "running") None s]> sessions)
      end
  end.

(** [audit_sessions[session_id][key] = value] raises a [KeyError] for an
    unknown session. *)
Definition write_benchmark (sessions : gmap string session) (sid : string)
    (st : string) (d : benchmark_data) : result (gmap string session) :=
  match sessions !! sid with
  | None => Raise (OtherError sid)
  | Some s => Ok (<[sid := set_benchmark (Some st) (Some d) s]> sessions)
  end.

(** The task [run_benchmark_task]: the run of the single-call engine,
    then the writes to the sessions as they are when the run ends. A
    report is stored as completed; an exception of the run, or of that
    write, is stored as failed; an exception of this last write ends the
    task. [None] is a run that has not finished within its fuel. *)
Definition run_benchmark_task (W : Web) (L : Completion)
    (json_loads : string → option Backend.json)
    (sessions : gmap string session) (sid site_url : string)
    (custom_queries : option (list string))
    : option (result (gmap string session)) :=
  let queries :=
    match custom_queries with
    | Some (q :: qs) => Some (q :: qs)
    | _ => None
    end in
  match
    Backend.run_answerability_benchmark W L json_loads site_url queries
      "gpt-4o-mini"
  with
  | None => None
  | Some (Ok r, _) =>
      Some
        match write_benchmark sessions sid "completed" (BenchReport r) with
        | Ok sessions' => Ok sessions'
        | Raise e => write_benchmark sessions sid "failed" (BenchError (exn_str e))
        end
  | Some (Raise e, _) =>
      Some (write_benchmark sessions sid "failed" (BenchError (exn_str e)))
  end.

Definition get_benchmark_status (sessions : gmap string session) (sid : string)
    : reply BenchmarkResponse :=
  match sessions !! sid with
  | None => HTTPException 404 "Session not found"
  | Some s =>
      match benchmark_status s with
      | None | Some EmptyString => Reply (status_only sid "not_started")
      | Some st =>
          if bool_decide (st = "running") then Reply (status_only sid "running")
          else if bool_decide (st = "failed") then
            Reply {|
              session_id := sid; response_status := "failed";
              response_site_url := None; response_crawled_pages := None;
              response_indexed_chunks := None; response_queries_run := None;
              response_overall_scores := None; response_query_results := None;
              response_missing_topics := None;
              response_error :=
                match session_benchmark_data s with
                | Some (BenchError msg) => Some msg
                | Some (BenchReport _) => None
                | None => Some "Unknown error"
                end |}
          else
            match session_benchmark_data s with
            | Some (BenchReport r) =>
                Reply {|
                  session_id := sid; response_status := "completed";
                  response_site_url := Some (site_url r);
                  response_crawled_pages := Some (crawled_pages r);
                  response_indexed_chunks := Some (indexed_chunks r);
                  response_queries_run := Some (queries_run r);
                  response_overall_scores := Some (overall r);
                  response_query_results := Some (query_results r);
                  response_missing_topics := Some (missing_topics r);
                  response_error := None |}
            | Some (BenchError _) => Reply (status_only sid "completed")
            | None => Crash (AttributeError "object has no attribute 'get'")
            end
      end
  end.

End Service.

(** ** Further collaborators and inputs of worked examples *)

Module Examples.
Import Text Retriever Effects Synthesizer Url Crawler Report.

(** A page with four links, read by a parser that joins nothing. *)
Definition four_links_web : Web := {|
  requests_get := λ _ _, RequestException;
  soup_text := λ html, html;
  soup_title := λ _, None;
  soup_hrefs := λ _, ["/a#top"; "/b"; "/c"; "/d"];
  urljoin := λ base href, base +:+ href;
  urldefrag := take_until (λ c, (code c =? 35)%N);
  netloc_ok := λ _, true |}.

(** A completion service that is down: every request raises. *)
Definition failing_service : Completion := {|
  OPENAI_API_KEY := Some "sk-test";
  create := λ _ _, Raise (OtherError "Connection error.") |}.

(** A decoder that rejects every text. *)
Definition no_json (s : string) : option Backend.json := None.


End Examples.

(** ** Further properties, as definitions *)

Module Props.
Import Text Chunker Retriever Effects Synthesizer Url Crawler Report.

(** The quotient of [a] by [b], rounded up. *)
Definition ceil_div (a b : nat) : nat := (a + b - 1) / b.

(** The number of windows of [chunk_size] words, each starting
    [chunk_size - overlap] words after the one before, that it takes to
    reach the end of [n] words. *)
Definition window_count (chunk_size overlap n : nat) : nat :=
  match n with
  | 0 => 0
  | _ => S (ceil_div (n - chunk_size) (chunk_size - overlap))
  end.

(** The [i]-th window of the words, joined by single spaces. *)
Definition window (words : list string) (chunk_size overlap i : nat) : string :=
  join " " (slice words (i * (chunk_size - overlap))
                        (i * (chunk_size - overlap) + chunk_size)).

Definition windows (words : list string) (chunk_size overlap : nat)
    : list string :=
  window words chunk_size overlap
    <$> seq 0 (window_count chunk_size overlap (length words)).

(** The result counts as answered, and as answered with a citation. *)
Definition is_answered {V B} (r : query_result V B) : bool :=
  bool_decide (result_status r = answered).

Definition is_cited {V B} (r : query_result V B) : bool :=
  is_answered r && nonempty (citations r).

Definition count_if {A} (p : A → bool) (l : list A) : nat :=
  length (filter (λ x, p x = true) l).

(** The request that the per-question engine sends for a question: the
    system message and the question with the context of its top chunks. *)
Definition request_for (api_key model : string)
    (chunks : list (string * string)) (q : string) : completion_call :=
  {| call_api_key := api_key;
     call_model := model;
     call_messages :=
       [("system", system_msg);
        ("user",
         "Question: " +:+ q +:+ newline +:+ newline +:+ "Sources:" +:+ newline
           +:+ (_build_context (_select_top_chunks q chunks 3)).1)];
     call_temperature := 2 # 10;
     call_max_tokens := None |}.

(** The questions that pass the relevance gate. *)
Definition ungated (chunks : list (string * string)) (qs : list string)
    : list string :=
  filter (λ q, Spec.gated q chunks = false) qs.

(** The entries of a result of the per-question engine agree with each
    other. *)
Definition result_consistent (r : query_result string bool) : Prop :=
  answerable (result_metrics r) = is_answered r ∧
  citation_ok (result_metrics r) = nonempty (citations r) ∧
  hallucination (result_metrics r) = false ∧
  length (citations r) ≤ 3.

(** The counters of the loop of the per-question engine count the
    results. *)
Definition counts_inv (t : Analyze.tally) : Prop :=
  Analyze.answerable_count t = count_if is_answered (Analyze.results t) ∧
  Analyze.citation_ok_count t = count_if is_cited (Analyze.results t) ∧
  Analyze.hallucinations t = 0 ∧
  Forall result_consistent (Analyze.results t).

(** The one request of the single-call engine. *)
Definition backend_request (api_key model domain : string)
    (queries_list : list string) (pages : list PageContent) : completion_call :=
  {| call_api_key := api_key;
     call_model := model;
     call_messages :=
       [("user", Backend.prompt domain (Backend.questions_text queries_list)
                   (Backend.combined_content pages))];
     call_temperature := 1 # 10;
     call_max_tokens := Some 2000 |}.

(** The loop variables of the single-call engine after a reply that was
    replaced by the message [msg] for every question. *)
Definition degraded_tally (msg : string) (queries_list : list string)
    : Backend.tally :=
  {| Backend.results :=
       (λ q, {|
          query := Backend.JStr q;
          answer := Backend.JStr msg;
          result_status := not_found;
          citations := [];
          result_metrics := {|
            answerable := Backend.JBool false;
            citation_ok := Backend.JBool false;
            hallucination := false;
            completeness := 0 |} |}) <$> queries_list;
     Backend.answered_count := 0;
     Backend.missing := Backend.JStr <$> queries_list |}.




(** The page is what the crawler makes of a response below 400 to a
    request for its URL, sent after the requests [earlier]. *)
Definition page_fetched (W : Web) (requested : list string) (p : PageContent)
    : Prop :=
  ∃ earlier status_code html,
    earlier ++ [Crawler.url p] `prefix_of` requested ∧
    requests_get W earlier (Crawler.url p) = Response status_code html ∧
    (status_code < 400)%Z ∧
    text p = _normalize_text (soup_text W html) ∧
    title p = match soup_title W html with
              | Some t => _normalize_text t
              | None => EmptyString
              end.

End Props.

(** * Theorems *)

(** ** Comparisons of scores *)

Module QFacts.
Import Retriever.

Lemma Qltb_lt (x y : Q) : Qltb x y = true ↔ (x < y)%Q.
Proof.
  unfold Qltb. rewrite negb_true_iff, <- not_true_iff_false, Qle_bool_iff.
  split; [apply Qnot_le_lt | apply Qlt_not_le].
Qed.

Lemma Qltb_ge (x y : Q) : Qltb x y = false ↔ (y <= x)%Q.
Proof.
  unfold Qltb. rewrite negb_false_iff. apply Qle_bool_iff.
Qed.

End QFacts.

(** ** Answer synthesizer: the relevance gate *)

Module SynthesizerFacts.
Import Text Retriever Effects Synthesizer Spec QFacts.

(** The running maximum never goes below its start. *)
Lemma running_max_ge (x0 : Q) (rest : list scored) :
  (x0 <= foldr (λ y m, if Qltb m (score_of y) then score_of y else m) x0 rest)%Q.
Proof.
  induction rest as [|y rest IH]; simpl.
  - apply Qle_refl.
  - destruct (Qltb _ (score_of y)) eqn:E; [|exact IH].
    apply Qltb_lt in E. eapply Qle_trans; [exact IH|]. by apply Qlt_le_weak.
Qed.

Lemma first_le_highest (x : scored) (rest : list scored) (m : Q) :
  highest_score (x :: rest) = Some m → (score_of x <= m)%Q.
Proof.
  intros [= <-]. apply running_max_ge.
Qed.

(** C1. When the list of top chunks is empty, or its highest score is
    strictly below 0.2, the synthesizer returns ("NOT FOUND", no citation,
    not answerable) and sends no request to the completion service: the
    log of requests is the one it was given. *)
Theorem gate_short_circuit (L : Completion) (q : string)
    (top_chunks : list scored) (model : string) (log : list completion_call) :
  top_chunks = [] ∨
    (∃ m, highest_score top_chunks = Some m ∧ (m < 2 # 10)%Q) →
  _build_answer L q top_chunks model log = (Ok ("NOT FOUND", [], false), log).
Proof.
  intros [-> | (m & Hm & Hlt)]; [done|].
  destruct top_chunks as [|x rest]; [done|].
  unfold _build_answer.
  assert (Qltb (score_of x) relevance_threshold = true) as ->; [|done].
  apply Qltb_lt. eapply Qle_lt_trans; [exact (first_le_highest _ _ _ Hm)|exact Hlt].
Qed.

(** C1 on two chunks that score 0.1 and 0. *)
Lemma gate_short_circuit_witness :
  _build_answer Fixtures.stub_service "What is your pricing?"
    [("https://a.example/", "we offer design", 1 # 10);
     ("https://a.example/b", "contact", 0 # 1)] "gpt-4o-mini" []
  = (Ok ("NOT FOUND", [], false), []).
Proof.
  apply gate_short_circuit. right. exists (1 # 10)%Q. split; [reflexivity|].
  reflexivity.
Defined.

(** Past the gate, with a credential, exactly one request is sent. *)
Lemma open_gate_calls_once (L : Completion) (q : string) (x : scored)
    (rest : list scored) (model : string) (log : list completion_call) (k : string) :
  (2 # 10 <= score_of x)%Q →
  truthy_key (OPENAI_API_KEY L) = Some k →
  length (_build_answer L q (x :: rest) model log).2 = S (length log).
Proof.
  intros Hge Hk. unfold _build_answer.
  apply Qltb_ge in Hge. unfold relevance_threshold. rewrite Hge.
  destruct (_build_context (x :: rest)) as [context sources].
  unfold bind, _call_openai_answer. rewrite Hk.
  destruct (create L log _); simpl; rewrite length_app; simpl; lia.
Qed.

End SynthesizerFacts.

(** ** Retriever: the relevance score *)

Module ScoreFacts.
Import Text Retriever Spec.

Lemma count_of_Counter (tokens : list string) (t : string) :
  count_of (Counter tokens) t = occurrences t tokens.
Proof.
  unfold count_of, occurrences.
  induction tokens as [|x tokens IH]; simpl; [by rewrite lookup_empty|].
  rewrite lookup_insert, filter_cons.
  destruct (decide (x = t)) as [->|Hne]; simpl; [|exact IH].
  by rewrite <- IH.
Qed.

Lemma occurrences_absent (t : string) (tokens : list string) :
  t ∉ tokens → occurrences t tokens = 0.
Proof.
  unfold occurrences. induction tokens as [|x tokens IH]; intros Hnot; [done|].
  rewrite filter_cons. apply not_elem_of_cons in Hnot as [Hne Hnot].
  destruct (decide (x = t)); [congruence|]. by apply IH.
Qed.

Lemma sum_occurrences_absent (qs cs : list string) :
  (∀ t, t ∈ qs → t ∉ cs) →
  sum_list ((λ t, occurrences t cs) <$> qs) = 0.
Proof.
  induction qs as [|t ts IH]; intros Hnone; [done|]. simpl.
  rewrite occurrences_absent by (apply Hnone; left).
  apply IH. intros u Hu. apply Hnone. by right.
Qed.

Lemma true_div_Qdiv (a b : nat) :
  b ≠ 0 →
  (true_div a b == inject_Z (Z.of_nat a) / inject_Z (Z.of_nat b))%Q.
Proof.
  intros Hb. unfold true_div.
  rewrite (Qmake_Qdiv (Z.of_nat a) (Pos.of_nat b)).
  by rewrite <- positive_nat_Z, Nat2Pos.id.
Qed.

Lemma true_div_zero (b : nat) : (true_div 0 b == 0)%Q.
Proof. reflexivity. Qed.

Lemma score_counts (query chunk : string) :
  _tokenize query ≠ [] →
  _score_overlap query chunk =
    true_div (sum_list ((λ t, occurrences t (_tokenize chunk)) <$> _tokenize query))
             (length (_tokenize query)).
Proof.
  intros Hq. unfold _score_overlap.
  destruct (_tokenize query) as [|t ts] eqn:E; [done|].
  f_equal. f_equal. apply list_fmap_ext. intros _ u _. apply count_of_Counter.
Qed.

(** C6. The relevance score of a chunk for a query is the sum, over the
    tokens of the query, of the token's occurrence count among the tokens
    of the chunk, divided by the number of tokens of the query; a query
    without tokens scores 0 against every chunk; a chunk that holds none
    of the tokens of the query scores 0. *)
Theorem score_overlap_spec (query chunk : string) :
  (_tokenize query ≠ [] →
     (_score_overlap query chunk == score_spec query chunk)%Q) ∧
  (_tokenize query = [] → _score_overlap query chunk = 0%Q) ∧
  ((∀ t, t ∈ _tokenize query → t ∉ _tokenize chunk) →
     (_score_overlap query chunk == 0)%Q).
Proof.
  split; [|split].
  - intros Hq. rewrite score_counts by done. unfold score_spec.
    apply true_div_Qdiv. by destruct (_tokenize query).
  - intros Hq. unfold _score_overlap. by rewrite Hq.
  - intros Hnone.
    destruct (decide (_tokenize query = [])) as [Hq|Hq].
    + unfold _score_overlap. by rewrite Hq.
    + rewrite score_counts by done.
      rewrite sum_occurrences_absent by done. apply true_div_zero.
Qed.

(** C6 on a chunk that holds "services" twice and "offer" once, on a
    query without tokens, and on a chunk without any token of the
    query. *)
Lemma score_overlap_spec_witness :
  (_score_overlap "What services do you offer?"
     "We offer consulting and design services; our services are priced monthly."
   == 3 # 5)%Q ∧
  _score_overlap "?!" "We offer consulting" = 0%Q ∧
  (_score_overlap "pricing plans" "We offer consulting" == 0)%Q.
Proof.
  pose proof (score_overlap_spec "What services do you offer?"
    "We offer consulting and design services; our services are priced monthly.")
    as (H1 & _ & _).
  pose proof (score_overlap_spec "?!" "We offer consulting") as (_ & H2 & _).
  pose proof (score_overlap_spec "pricing plans" "We offer consulting")
    as (_ & _ & H3).
  split; [|split].
  - rewrite H1 by (vm_compute; discriminate). reflexivity.
  - apply H2. reflexivity.
  - apply H3. intros t Ht. vm_compute in Ht.
    apply elem_of_cons in Ht as [->|Ht].
    + vm_compute. intros Hin. repeat (apply elem_of_cons in Hin as [Hin|Hin]; [discriminate|]).
      by apply elem_of_nil in Hin.
    + apply elem_of_cons in Ht as [->|Ht]; [|by apply elem_of_nil in Ht].
      vm_compute. intros Hin. repeat (apply elem_of_cons in Hin as [Hin|Hin]; [discriminate|]).
      by apply elem_of_nil in Hin.
Defined.

End ScoreFacts.

(** ** Retriever: the selection of the top chunks *)

Module SelectFacts.
Import Text Retriever Spec QFacts.

Lemma insert_desc_length (x : scored) (l : list scored) :
  length (insert_desc x l) = S (length l).
Proof.
  induction l as [|y l IH]; simpl; [done|].
  destruct (Qltb _ _); simpl; by rewrite ?IH.
Qed.

Lemma sort_desc_length (l : list scored) : length (sort_desc l) = length l.
Proof.
  induction l as [|x l IH]; simpl; [done|].
  by rewrite insert_desc_length, IH.
Qed.

Lemma insert_desc_perm (x : scored) (l : list scored) :
  insert_desc x l ≡ₚ x :: l.
Proof.
  induction l as [|y l IH]; simpl; [done|].
  destruct (Qltb _ _); [|done].
  rewrite IH. apply Permutation_swap.
Qed.

Lemma sort_desc_perm (l : list scored) : sort_desc l ≡ₚ l.
Proof.
  induction l as [|x l IH]; simpl; [done|].
  by rewrite insert_desc_perm, IH.
Qed.

Lemma insert_desc_sorted (x : scored) (l : list scored) :
  StronglySorted score_ge l → StronglySorted score_ge (insert_desc x l).
Proof.
  induction 1 as [|y l Hl IH Hy]; simpl.
  - repeat constructor.
  - destruct (Qltb (score_of x) (score_of y)) eqn:E.
    + constructor; [exact IH|].
      rewrite insert_desc_perm. constructor; [|exact Hy].
      apply Qltb_lt in E. by apply Qlt_le_weak.
    + apply Qltb_ge in E.
      constructor; [by constructor|].
      constructor; [exact E|].
      eapply Forall_impl; [exact Hy|].
      intros z Hz. unfold score_ge in *. by eapply Qle_trans.
Qed.

Lemma sort_desc_sorted (l : list scored) : StronglySorted score_ge (sort_desc l).
Proof.
  induction l as [|x l IH]; simpl; [constructor|].
  by apply insert_desc_sorted.
Qed.

(** Stability: an element is inserted in front of the elements of its own
    score, and the elements of the other scores do not see it. *)
Lemma filter_insert_desc (s : Q) (x : scored) (l : list scored) :
  filter (λ y, score_of y == s)%Q (insert_desc x l) =
  filter (λ y, score_of y == s)%Q (x :: l).
Proof.
  induction l as [|y l IH]; simpl; [done|].
  destruct (Qltb (score_of x) (score_of y)) eqn:E; [|done].
  apply Qltb_lt in E.
  rewrite (filter_cons _ y), IH, !filter_cons.
  destruct (decide (score_of x == s)%Q) as [Hx|Hx]; [|done].
  destruct (decide (score_of y == s)%Q) as [Hy|Hy]; [|done].
  exfalso. rewrite Hx, Hy in E. by apply Qlt_irrefl in E.
Qed.

Lemma filter_sort_desc (s : Q) (l : list scored) :
  filter (λ y, score_of y == s)%Q (sort_desc l) =
  filter (λ y, score_of y == s)%Q l.
Proof.
  induction l as [|x l IH]; simpl; [done|].
  by rewrite filter_insert_desc, !filter_cons, IH.
Qed.

Lemma StronglySorted_take {A} (R : relation A) (k : nat) (l : list A) :
  StronglySorted R l → StronglySorted R (take k l).
Proof.
  intros Hl. revert k. induction Hl as [|x l Hl IH Hx]; intros [|k]; simpl;
    try constructor; [apply IH|].
  by apply Forall_take.
Qed.

(** C5. The selection returns [min k n] of the [n] chunks, by
    non-increasing score, and the chunks of one score come in their input
    order: they are the first of that score in the input. *)
Theorem select_top_chunks_spec (query : string)
    (chunks : list (string * string)) (k : nat) :
  let top := _select_top_chunks query chunks k in
  length top = k `min` length chunks ∧
  top ⊆+ score_all query chunks ∧
  StronglySorted score_ge top ∧
  ∀ s : Q,
    filter (λ y, score_of y == s)%Q top
      `prefix_of` filter (λ y, score_of y == s)%Q (score_all query chunks).
Proof.
  unfold _select_top_chunks. fold (score_all query chunks).
  set (l := score_all query chunks).
  assert (length l = length chunks) as Hlen by apply length_fmap.
  simpl. split; [|split; [|split]].
  - by rewrite length_take, sort_desc_length, Hlen.
  - rewrite <- (sort_desc_perm l) at 2. apply sublist_submseteq, sublist_take.
  - apply StronglySorted_take, sort_desc_sorted.
  - intros s. rewrite <- (filter_sort_desc s l).
    rewrite <- (take_drop k (sort_desc l)) at 2.
    rewrite filter_app. by apply prefix_app_r.
Qed.

(** Two chunks of equal score keep their input order; the third place
    goes to the next best score. *)
Example select_top_chunks_ties :
  _select_top_chunks "refund policy"
    [("u1", "contact us"); ("u2", "refund"); ("u3", "policy policy refund");
     ("u4", "our policy"); ("u5", "refund refund policy")] 3
  = [("u3", "policy policy refund", 3 # 2);
     ("u5", "refund refund policy", 3 # 2);
     ("u2", "refund", 1 # 2)].
Proof. reflexivity. Qed.

End SelectFacts.

(** ** Strings *)

Module StringFacts.
Import Text.

Lemma str_app_cons (a : ascii) (s t : string) :
  String a s +:+ t = String a (s +:+ t).
Proof. reflexivity. Qed.

Lemma str_app_nil_l (s : string) : EmptyString +:+ s = s.
Proof. reflexivity. Qed.

Lemma str_app_nil_r (s : string) : s +:+ EmptyString = s.
Proof. induction s as [|a s IH]; [done|]. by rewrite str_app_cons, IH. Qed.

Lemma str_app_assoc (s t u : string) : (s +:+ t) +:+ u = s +:+ t +:+ u.
Proof. induction s as [|a s IH]; [done|]. by rewrite !str_app_cons, IH. Qed.


End StringFacts.

(** ** Answer synthesizer: the extraction of citations *)

Module CitationFacts.
Import Text Retriever Effects Synthesizer Spec StringFacts.

Lemma is_close_eq (c : ascii) : is_close c = true ↔ c = "]"%char.
Proof. apply Ascii.eqb_eq. Qed.

Lemma is_open_eq (c : ascii) : is_open c = true ↔ c = "["%char.
Proof. apply Ascii.eqb_eq. Qed.

Lemma digits_close_cons (a : ascii) (s : string) :
  digits_close (String a s) =
    if isdigit a then
      if starts_with is_close s then Some (String a EmptyString)
      else String a <$> digits_close s
    else None.
Proof. reflexivity. Qed.

Lemma digits_close_sound (s d : string) :
  digits_close s = Some d →
  is_run isdigit d ∧ ∃ post, s = d +:+ "]" +:+ post.
Proof.
  revert d. induction s as [|a s IH]; intros d; simpl; [done|].
  destruct (isdigit a) eqn:Ha; [|done].
  destruct (starts_with is_close s) eqn:Hc.
  - intros [= <-]. split; [split; [done|by simpl; rewrite Ha]|].
    destruct s as [|b s]; [done|]. simpl in Hc. apply is_close_eq in Hc as ->.
    by exists s.
  - destruct (digits_close s) as [d'|]; [|done]. intros [= <-].
    destruct (IH d' eq_refl) as ((_ & Hd') & post & ->).
    split; [split; [done|by simpl; rewrite Ha, Hd']|].
    by exists post.
Qed.

Lemma digits_close_complete (d post : string) :
  is_run isdigit d → digits_close (d +:+ "]" +:+ post) = Some d.
Proof.
  intros [Hne Hd]. induction d as [|a d IH]; [done|].
  simpl in Hd. apply andb_true_iff in Hd as [Ha Hd].
  rewrite str_app_cons, digits_close_cons, Ha.
  destruct d as [|b d]; [done|].
  rewrite (str_app_cons b).
  change (starts_with is_close (String b (d +:+ "]" +:+ post))) with (is_close b).
  destruct (is_close b) eqn:Hb.
  - apply is_close_eq in Hb as ->. simpl in Hd. discriminate.
  - rewrite <- str_app_cons, IH; done.
Qed.

Lemma findall_markers_cons (a : ascii) (s : string) :
  findall_markers (String a s) =
    if is_open a then
      match digits_close s with
      | Some d => d :: findall_markers s
      | None => findall_markers s
      end
    else findall_markers s.
Proof. reflexivity. Qed.

(** The scan finds the digit groups of all the markers, and only them. *)
Lemma findall_markers_spec (answer d : string) :
  d ∈ findall_markers answer ↔
  is_run isdigit d ∧ ∃ pre post, answer = pre +:+ "[" +:+ d +:+ "]" +:+ post.
Proof.
  induction answer as [|a s IH].
  - simpl. split; [by intros ?%elem_of_nil|].
    intros (_ & [|??] & post & ?); done.
  - assert (d ∈ findall_markers s →
            is_run isdigit d ∧
            ∃ pre post, String a s = pre +:+ "[" +:+ d +:+ "]" +:+ post) as Hrest.
    { intros (Hd & pre & post & ->)%IH. split; [done|].
      by exists (String a pre), post. }
    split.
    + simpl. destruct (is_open a) eqn:Ha; [|done].
      destruct (digits_close s) as [d0|] eqn:Hd0; [|done].
      intros [->|Hin]%elem_of_cons; [|by apply Hrest].
      apply is_open_eq in Ha as ->.
      apply digits_close_sound in Hd0 as (Hd & post & ->).
      split; [done|]. by exists EmptyString, post.
    + intros (Hd & pre & post & Heq). destruct pre as [|b pre].
      * rewrite str_app_nil_l, str_app_cons, str_app_nil_l in Heq. injection Heq as -> ->.
        rewrite findall_markers_cons.
        change (is_open "[") with true. cbv iota.
        rewrite digits_close_complete by done. left.
      * rewrite str_app_cons in Heq. injection Heq as -> ->.
        assert (d ∈ findall_markers (pre +:+ "[" +:+ d +:+ "]" +:+ post)) as Hin.
        { apply IH. split; [done|]. by exists pre, post. }
        rewrite findall_markers_cons. destruct (is_open b); [|done].
        destruct (digits_close _); [by right|done].
Qed.

(** The set that the loop builds: the sources that a marker in range
    points at. *)
Lemma elem_of_cited_loop (sources : list string) (ms : list string)
    (acc : gset string) (u : string) :
  u ∈ foldl (λ (cited : gset string) (m : string),
               let idx := (int_of_digits m - 1)%Z in
               if decide (0 ≤ idx < Z.of_nat (length sources))%Z then
                 match sources !! Z.to_nat idx with
                 | Some u => cited ∪ {[u]}
                 | None => cited
                 end
               else cited) acc ms ↔
  u ∈ acc ∨
  ∃ m, m ∈ ms ∧ (1 ≤ int_of_digits m ≤ Z.of_nat (length sources))%Z ∧
       sources !! Z.to_nat (int_of_digits m - 1) = Some u.
Proof.
  revert acc. induction ms as [|m ms IH]; intros acc; simpl.
  - split; [by left|]. intros [?|(m & ?%elem_of_nil & _)]; done.
  - rewrite IH. clear IH.
    destruct (decide (0 ≤ int_of_digits m - 1 < Z.of_nat (length sources))%Z)
      as [Hr|Hr].
    + destruct (sources !! Z.to_nat (int_of_digits m - 1)) as [v|] eqn:Hv.
      * rewrite elem_of_union, elem_of_singleton. split.
        -- intros [[?| ->]|(m' & ? & ? & ?)]; [by left| |].
           ++ right. exists m. split; [left|]. split; [lia|done].
           ++ right. exists m'. split; [by right|done].
        -- intros [?|(m' & [->|?]%elem_of_cons & ? & Hm')]; [by left; left| |].
           ++ left; right. congruence.
           ++ right. by exists m'.
      * split.
        -- intros [?|(m' & ? & ? & ?)]; [by left|].
           right. exists m'. split; [by right|done].
        -- intros [?|(m' & [->|?]%elem_of_cons & ? & Hm')]; [by left|congruence|].
           right. by exists m'.
    + split.
      * intros [?|(m' & ? & ? & ?)]; [by left|].
        right. exists m'. split; [by right|done].
      * intros [?|(m' & [->|?]%elem_of_cons & ? & Hm')]; [by left|lia|].
        right. by exists m'.
Qed.

Lemma elem_of_cited_urls (answer : string) (sources : list string) (u : string) :
  u ∈ cited_urls answer sources ↔
  ∃ n, marker_in answer n ∧ (1 ≤ n ≤ Z.of_nat (length sources))%Z ∧
       sources !! Z.to_nat (n - 1) = Some u.
Proof.
  unfold cited_urls. rewrite elem_of_cited_loop. split.
  - intros [?%not_elem_of_empty|(m & Hm & Hr & Hu)]; [done|].
    apply findall_markers_spec in Hm as (Hd & pre & post & ->).
    exists (int_of_digits m). split; [|done]. by exists pre, m, post.
  - intros (n & (pre & d & post & -> & Hd & <-) & Hr & Hu). right.
    exists d. split; [|done]. apply findall_markers_spec.
    split; [done|]. by exists pre, post.
Qed.

Lemma elem_of_sorted (s : gset string) (u : string) : u ∈ sorted s ↔ u ∈ s.
Proof. unfold sorted. by rewrite merge_sort_Permutation, elem_of_elements. Qed.



End CitationFacts.

(** ** Chunker: the chunks cover the words *)

Module ChunkFacts.
Import Text Chunker StringFacts.

Lemma runs_cons (p : ascii → bool) (a : ascii) (s : string) :
  runs p (String a s) =
    if p a then
      if starts_with p s then
        match runs p s with
        | r :: rs => String a r :: rs
        | [] => [String a EmptyString]
        end
      else String a EmptyString :: runs p s
    else runs p s.
Proof. reflexivity. Qed.

(** Every run is a non-empty string of characters of the class. *)
Lemma runs_are_runs (p : ascii → bool) (s : string) :
  Forall (is_run p) (runs p s).
Proof.
  induction s as [|a s IH]; [constructor|].
  rewrite runs_cons. destruct (p a) eqn:Ha; [|exact IH].
  destruct (starts_with p s).
  - destruct (runs p s) as [|r rs].
    + repeat constructor; [done|]. simpl. by rewrite Ha.
    + apply Forall_cons in IH as [[_ Hr] Hrs].
      constructor; [|exact Hrs]. split; [done|]. simpl. by rewrite Ha, Hr.
  - constructor; [|exact IH]. split; [done|]. simpl. by rewrite Ha.
Qed.

(** A run followed by text that starts outside the class is found whole. *)
Lemma runs_run_app (p : ascii → bool) (w rest : string) :
  is_run p w → starts_with p rest = false →
  runs p (w +:+ rest) = w :: runs p rest.
Proof.
  intros [Hne Hw] Hrest. induction w as [|a w IH]; [done|].
  simpl in Hw. apply andb_true_iff in Hw as [Ha Hw].
  rewrite str_app_cons, runs_cons, Ha.
  destruct w as [|b w].
  - rewrite str_app_nil_l, Hrest. done.
  - rewrite IH by done. rewrite str_app_cons.
    simpl in Hw. apply andb_true_iff in Hw as [Hb _].
    simpl. by rewrite Hb.
Qed.

Lemma runs_join (p : ascii → bool) (sep : ascii) (ws : list string) :
  p sep = false → Forall (is_run p) ws →
  runs p (join (String sep EmptyString) ws) = ws.
Proof.
  intros Hsep. induction 1 as [|w ws Hw Hws IH]; [done|].
  destruct ws as [|w' ws].
  - simpl. rewrite <- (str_app_nil_r w) at 1. by rewrite runs_run_app.
  - change (join (String sep EmptyString) (w :: w' :: ws))
      with (w +:+ String sep EmptyString +:+ join (String sep EmptyString) (w' :: ws)).
    rewrite str_app_cons, str_app_nil_l, runs_run_app by done.
    by rewrite runs_cons, Hsep, IH.
Qed.

Lemma split_words (text : string) :
  Forall (is_run (λ c, negb (isspace c))) (split text).
Proof. apply runs_are_runs. Qed.

(** Joining words with a space and splitting again gives the words. *)
Lemma split_join (ws : list string) :
  Forall (is_run (λ c, negb (isspace c))) ws → split (join " " ws) = ws.
Proof. intros Hws. by apply (runs_join _ " "%char). Qed.

Lemma split_slice (words : list string) (start stop : nat) :
  Forall (is_run (λ c, negb (isspace c))) words →
  split (join " " (slice words start stop)) = slice words start stop.
Proof. intros Hws. apply split_join. by apply Forall_take, Forall_drop. Qed.

Lemma chunk_loop_S (fuel : nat) (words : list string)
    (chunk_size overlap start : nat) :
  chunk_loop (S fuel) words chunk_size overlap start =
    if decide (start < length words) then
      let stop := length words `min` (start + chunk_size) in
      let chunk := join " " (slice words start stop) in
      if decide (length words ≤ stop) then Some [chunk]
      else
        cons chunk <$>
          chunk_loop fuel words chunk_size overlap (0 `max` (stop - overlap))
    else Some [].
Proof. reflexivity. Qed.

(** The chunks after the first: from a start that leaves more than the
    overlap, the loop finishes, and the chunks without their overlaps are
    the words from [start + overlap] on. *)
Lemma chunk_loop_rest (words : list string) (chunk_size overlap : nat) :
  overlap < chunk_size →
  Forall (is_run (λ c, negb (isspace c))) words →
  ∀ fuel start,
    start + overlap < length words →
    length words - start < fuel →
    ∃ cs, chunk_loop fuel words chunk_size overlap start = Some cs ∧
          concat (map (λ c, drop overlap (split c)) cs)
          = drop (start + overlap) words.
Proof.
  intros Hov Hws. induction fuel as [|fuel IH]; intros start Hstart Hfuel; [lia|].
  rewrite chunk_loop_S. cbv zeta.
  destruct (decide (start < length words)); [|lia].
  destruct (decide (length words ≤ length words `min` (start + chunk_size)))
    as [Hlast|Hmore].
  - eexists. split; [done|]. simpl.
    rewrite split_slice, app_nil_r by done. unfold slice.
    rewrite take_ge by (rewrite length_drop; lia).
    by rewrite drop_drop.
  - assert (length words `min` (start + chunk_size) = start + chunk_size) as Hstop
      by lia.
    rewrite Hstop in *.
    replace (0 `max` (start + chunk_size - overlap))
      with (start + chunk_size - overlap) by lia.
    destruct (IH (start + chunk_size - overlap)) as (cs & -> & Hcs); [lia..|].
    eexists. split; [done|]. simpl.
    rewrite split_slice, Hcs by done. unfold slice.
    replace (start + chunk_size - overlap + overlap) with (start + chunk_size) by lia.
    replace (start + chunk_size - start) with chunk_size by lia.
    rewrite <- (drop_drop words chunk_size start).
    rewrite <- drop_app_le by (rewrite length_take, length_drop; lia).
    by rewrite take_drop, drop_drop.
Qed.

Lemma chunk_text_covers (text : string) (chunk_size overlap : nat) :
  overlap < chunk_size →
  ∃ chunks, _chunk_text text chunk_size overlap = Some chunks ∧
            drop_overlaps overlap chunks = split text.
Proof.
  intros Hov. unfold _chunk_text.
  destruct text as [|a text]; [by exists []|].
  set (words := split (String a text)).
  pose proof (split_words (String a text)) as Hws. fold words in Hws.
  cbv zeta. rewrite chunk_loop_S. cbv zeta.
  destruct (decide (0 < length words)) as [Hpos|Hzero].
  - destruct (decide (length words ≤ length words `min` (0 + chunk_size)))
      as [Hlast|Hmore].
    + eexists. split; [done|]. simpl.
      rewrite split_slice, app_nil_r by done. unfold slice.
      rewrite drop_0. apply take_ge. lia.
    + assert (length words `min` (0 + chunk_size) = chunk_size) as Hstop by lia.
      rewrite Hstop.
      replace (0 `max` (chunk_size - overlap)) with (chunk_size - overlap) by lia.
      destruct (chunk_loop_rest words chunk_size overlap Hov Hws
                  (length words) (chunk_size - overlap)) as (cs & -> & Hcs);
        [lia..|].
      eexists. split; [done|]. simpl.
      rewrite split_slice, Hcs by done. unfold slice.
      replace (chunk_size - overlap + overlap) with chunk_size by lia.
      rewrite drop_0, Nat.sub_0_r. apply take_drop.
  - exists []. split; [done|]. simpl.
    destruct words; [done|simpl in Hzero; lia].
Qed.

(** C8. For every text, chunking with size 800 and overlap 120 returns
    chunks whose word sequences, once the leading 120 words are removed
    from every chunk after the first, concatenate to the word sequence of
    the text. *)
Theorem chunk_text_reconstructs (text : string) :
  ∃ chunks, _chunk_text text 800 120 = Some chunks ∧
            drop_overlaps 120 chunks = split text.
Proof. apply chunk_text_covers. lia. Qed.

(** With windows of three words that share one. *)
Example chunk_text_small :
  _chunk_text "we  offer consulting and design services today" 3 1
  = Some ["we offer consulting"; "consulting and design"; "design services today"].
Proof. reflexivity. Qed.

End ChunkFacts.

(** ** URLs: the priority paths keep the network location *)

Module UrlFacts.
Import Text Effects Url Spec StringFacts.



Lemma rstrip_by_cons (p : ascii → bool) (a : ascii) (s : string) :
  rstrip_by p (String a s) =
    match rstrip_by p s with
    | EmptyString => if p a then EmptyString else String a EmptyString
    | r => String a r
    end.
Proof. reflexivity. Qed.

















End UrlFacts.

(** ** Crawler: the crawl stays on the host of the seed *)

Module CrawlFacts.
Import Text Effects Url Crawler Spec UrlFacts.

Lemma crawl_loop_S (W : Web) (start_url : string)
    (max_pages max_links_per_page fuel : nat) (st : crawl_state) :
  crawl_loop W start_url max_pages max_links_per_page (S fuel) st =
    match queue st with
    | [] => Some (Ok (pages st, requested st))
    | url :: queue' =>
        if decide (length (pages st) < max_pages) then
          if decide (url ∈ seen st) then
            crawl_loop W start_url max_pages max_links_per_page fuel
              {| seen := seen st; queue := queue'; pages := pages st;
                 requested := requested st |}
          else
            match requests_get W (requested st) url with
            | RequestException =>
                crawl_loop W start_url max_pages max_links_per_page fuel
                  (skipped st url queue')
            | HttpRaises e => Some (Raise e)
            | Response status_code html =>
                if decide (400 ≤ status_code)%Z then
                  crawl_loop W start_url max_pages max_links_per_page fuel
                    (skipped st url queue')
                else
                  let text := _extract_text W html in
                  let title :=
                    match soup_title W html with
                    | Some t => _normalize_text t
                    | None => EmptyString
                    end in
                  match
                    enqueue_links W start_url (seen st ∪ {[url]})
                      (_extract_links W url html max_links_per_page) queue'
                  with
                  | Raise e => Some (Raise e)
                  | Ok queue'' =>
                      crawl_loop W start_url max_pages max_links_per_page fuel
                        {| seen := seen st ∪ {[url]};
                           queue := queue'';
                           pages :=
                             pages st ++
                             [{| url := url; title := title; text := text |}];
                           requested := requested st ++ [url] |}
                  end
            end
        else Some (Ok (pages st, requested st))
    end.
Proof. reflexivity. Qed.



Lemma enqueue_links_length (W : Web) (start_url : string)
    (seen : gset string) (links queue queue' : list string) :
  enqueue_links W start_url seen links queue = Ok queue' →
  length queue' ≤ length queue + length links.
Proof.
  revert queue. induction links as [|link links IH]; intros queue; simpl.
  - intros [= <-]. lia.
  - destruct (_is_same_host W start_url link) as [same|e]; [|done].
    intros Hq%IH.
    destruct (same && bool_decide (link ∉ seen));
      rewrite ?length_app in Hq; simpl in Hq; lia.
Qed.

Lemma links_loop_length (W : Web) (base_url : string)
    (hrefs links : list string) (max_links : nat) :
  length links < 1 `max` max_links →
  length (links_loop W base_url hrefs links max_links) ≤ 1 `max` max_links.
Proof.
  revert links. induction hrefs as [|href hrefs IH]; intros links Hlen; simpl.
  - lia.
  - destruct (decide _) as [Hfull|Hroom].
    + rewrite length_app. simpl. lia.
    + apply IH. rewrite length_app in *. simpl in *. lia.
Qed.

Lemma extract_links_length (W : Web) (base_url html : string) (max_links : nat) :
  length (_extract_links W base_url html max_links) ≤ 1 `max` max_links.
Proof. apply links_loop_length. simpl. lia. Qed.


(** The loop finishes within the fuel that [crawl_fuel] grants. *)
Lemma crawl_loop_finishes (W : Web) (start_url : string)
    (max_pages max_links_per_page : nat) :
  ∀ fuel st,
    length (queue st)
      + (max_pages - length (pages st)) * (1 `max` max_links_per_page) < fuel →
    is_Some (crawl_loop W start_url max_pages max_links_per_page fuel st).
Proof.
  set (M := 1 `max` max_links_per_page).
  assert (∀ u html, length (_extract_links W u html max_links_per_page) ≤ M)
    as HM by (intros; apply extract_links_length).
  clearbody M.
  induction fuel as [|fuel IH]; intros st Hfuel; [by apply Nat.nlt_0_r in Hfuel|].
  rewrite crawl_loop_S.
  destruct (queue st) as [|u queue'] eqn:Hqueue; [done|].
  simpl in Hfuel.
  destruct (decide (length (pages st) < max_pages)) as [Hroom|]; [|done].
  assert (∀ seen' requested',
            is_Some (crawl_loop W start_url max_pages max_links_per_page fuel
                       {| seen := seen'; queue := queue'; pages := pages st;
                          requested := requested' |})) as Hskip.
  { intros seen' requested'. apply IH. simpl.
    by apply Nat.succ_lt_mono. }
  destruct (decide (u ∈ seen st)); [apply Hskip|].
  destruct (requests_get W (requested st) u) as [|e|status html].
  - apply Hskip.
  - done.
  - destruct (decide (400 ≤ status)%Z); [apply Hskip|].
    cbv zeta.
    destruct (enqueue_links _ _ _ _ _) as [queue''|e] eqn:Henq; [|done].
    apply IH. simpl.
    apply enqueue_links_length in Henq.
    specialize (HM u html).
    rewrite length_app. simpl.
    assert (∃ room, max_pages - length (pages st) = S room ∧
                    max_pages - (length (pages st) + 1) = room)
      as (room & Hleft & ->)
      by (exists (max_pages - length (pages st) - 1); clear -Hroom; lia).
    rewrite Hleft in Hfuel. simpl in Hfuel.
    remember (room * M) as k. clear -Hfuel Henq HM. lia.
Qed.


Lemma crawl_from_finishes (W : Web) (start_url : string) (queue : list string)
    (max_pages max_links_per_page : nat) :
  is_Some (crawl_from W start_url queue max_pages max_links_per_page).
Proof.
  unfold crawl_from, crawl_fuel. apply crawl_loop_finishes. simpl. lia.
Qed.






End CrawlFacts.

(** ** Rounding and rates *)

Module RateFacts.
Import Retriever Report Spec.

Lemma round_half_even_bounds (x : Q) (n : Z) :
  (0 <= x)%Q → (x <= inject_Z n)%Q →
  (0 ≤ round_half_even x ≤ n)%Z.
Proof.
  intros H0 Hn. unfold round_half_even.
  assert (0 ≤ Qfloor x)%Z as Hf0.
  { change 0%Z with (Qfloor 0). by apply Qfloor_resp_le. }
  assert (Qfloor x ≤ n)%Z as Hfn.
  { rewrite <- (Qfloor_Z n). by apply Qfloor_resp_le. }
  destruct (Z.eq_dec (Qfloor x) n) as [Heq|Hne].
  - rewrite Heq.
    assert ((x - inject_Z n ?= 1 # 2)%Q = Lt) as ->; [|lia].
    apply (proj1 (Qlt_alt _ _)).
    generalize dependent (inject_Z n). intros m Hm. lra.
  - destruct (x - inject_Z (Qfloor x) ?= 1 # 2)%Q; [destruct (Z.even _)|..]; lia.
Qed.

Lemma round2_rate (x : Q) : is_rate x → is_rate (round2 x).
Proof.
  intros [H0 H1]. unfold round2.
  destruct (round_half_even_bounds (x * 100) 100) as [Hl Hu].
  - lra.
  - change (inject_Z 100) with 100%Q. lra.
  - split; unfold Qle; simpl; lia.
Qed.

Lemma round2_zero (x : Q) : (x == 0)%Q → (round2 x == 0)%Q.
Proof.
  intros Hx. unfold round2, round_half_even.
  assert (x * 100 == 0)%Q as H0 by lra.
  assert (Qfloor (x * 100) = 0%Z) as Hf by (rewrite H0; reflexivity).
  rewrite Hf.
  assert ((x * 100 - inject_Z 0 ?= 1 # 2)%Q = Lt) as ->; [|reflexivity].
  apply (proj1 (Qlt_alt _ _)). change (inject_Z 0) with 0%Q. lra.
Qed.

(** Rounding keeps a value above half a hundredth away from 0. *)
Lemma round2_pos (x : Q) : (1 # 200 < x)%Q → (0 < round2 x)%Q.
Proof.
  intros Hx. unfold round2.
  assert (1 ≤ round_half_even (x * 100))%Z as Hr; [|unfold Qlt; simpl; lia].
  unfold round_half_even.
  assert (0 ≤ Qfloor (x * 100))%Z as Hf0.
  { change 0%Z with (Qfloor 0). apply Qfloor_resp_le. lra. }
  destruct (Z.eq_dec (Qfloor (x * 100)) 0%Z) as [Heq|Hne].
  - rewrite Heq.
    assert ((x * 100 - inject_Z 0 ?= 1 # 2)%Q = Gt) as ->; [|lia].
    apply (proj1 (Qgt_alt _ _)). change (inject_Z 0) with 0%Q. lra.
  - destruct (x * 100 - inject_Z _ ?= 1 # 2)%Q; [destruct (Z.even _)|..]; lia.
Qed.

Lemma true_div_rate (a b : nat) : a ≤ b → is_rate (true_div a b).
Proof.
  intros Hab. unfold true_div, is_rate, Qle. simpl. split; [lia|].
  destruct b as [|b]; [replace a with 0 by lia; simpl; lia|].
  rewrite Z.mul_1_r, Z.mul_1_l.
  rewrite <- positive_nat_Z, Nat2Pos.id by done. lia.
Qed.

Lemma true_div_pos (a b : nat) : 0 < a → 0 < b → b < 200 →
  (1 # 200 < true_div a b)%Q.
Proof.
  intros Ha Hb Hlt. unfold true_div, Qlt. simpl.
  pose proof (positive_nat_Z (Pos.of_nat b)) as Hp.
  rewrite Nat2Pos.id in Hp by lia. lia.
Qed.

Lemma true_div_gt_0 (a b : nat) : 0 < a → (0 < true_div a b)%Q.
Proof. intros Ha. unfold true_div, Qlt. simpl. lia. Qed.

End RateFacts.

(** ** The per-question engine: the loop over the questions *)

Module AnalyzeFacts.
Import Text Chunker Retriever Effects Synthesizer Url Crawler Report Analyze.
Import Spec QFacts RateFacts ChunkFacts CrawlFacts.

Lemma completeness_score_rate (q a : string) : is_rate (_completeness_score q a).
Proof.
  unfold _completeness_score. destruct (decide _); [by split|].
  apply true_div_rate, subseteq_size, intersection_subseteq_l.
Qed.

(** A question that holds the token "not" or the token "found" shares it
    with the placeholder answer. *)
Lemma completeness_not_found (q : string) :
  "not" ∈ _tokenize q ∨ "found" ∈ _tokenize q →
  ∃ k n, 0 < k ∧ n = size (list_to_set (_tokenize q) : gset string) ∧
         _completeness_score q "NOT FOUND" = true_div k n.
Proof.
  intros Hq. unfold _completeness_score.
  change (_tokenize "NOT FOUND") with ["not"; "found"].
  set (qs := list_to_set (_tokenize q) : gset string).
  assert ("not" ∈ qs ∨ "found" ∈ qs) as Hqs.
  { destruct Hq; [left|right]; by apply elem_of_list_to_set. }
  assert (∃ w, w ∈ qs ∩ list_to_set ["not"; "found"]) as (w & Hw).
  { destruct Hqs as [Hin|Hin]; eexists; apply elem_of_intersection;
      (split; [exact Hin|]); apply elem_of_list_to_set;
      [left|right; left]. }
  destruct (decide (qs = ∅)) as [He|_].
  { rewrite He in Hw. apply elem_of_intersection in Hw as [Hw _].
    by apply not_elem_of_empty in Hw. }
  eexists _, _. split; [|split; reflexivity].
  apply Nat.neq_0_lt_0, size_non_empty_iff. intros He.
  apply He in Hw. by apply not_elem_of_empty in Hw.
Qed.

Lemma build_answer_gated (L : Completion) (q : string)
    (chunks : list (string * string)) (model : string)
    (log : list completion_call) :
  gated q chunks = true →
  _build_answer L q (_select_top_chunks q chunks 3) model log
    = (Ok ("NOT FOUND", [], false), log).
Proof.
  unfold gated, _build_answer.
  destruct (_select_top_chunks q chunks 3) as [|x rest]; [done|].
  by intros ->.
Qed.

Lemma build_answer_no_key (L : Completion) (q : string)
    (chunks : list (string * string)) (model : string)
    (log : list completion_call) :
  truthy_key (OPENAI_API_KEY L) = None →
  gated q chunks = false →
  _build_answer L q (_select_top_chunks q chunks 3) model log
    = (Raise missing_credential, log).
Proof.
  unfold gated, _build_answer. intros Hkey.
  destruct (_select_top_chunks q chunks 3) as [|x rest]; [done|].
  intros ->. destruct (_build_context (x :: rest)) as [context sources].
  unfold bind, _call_openai_answer. by rewrite Hkey.
Qed.

Lemma query_step_gated (L : Completion) (model : string)
    (chunks : list (string * string)) (t : tally) (q : string)
    (log : list completion_call) :
  gated q chunks = true →
  query_step L model chunks t q log = (Ok (gated_step t q), log).
Proof.
  intros Hg. unfold query_step, bind. by rewrite build_answer_gated.
Qed.

Lemma query_step_no_key (L : Completion) (model : string)
    (chunks : list (string * string)) (t : tally) (q : string)
    (log : list completion_call) :
  truthy_key (OPENAI_API_KEY L) = None →
  gated q chunks = false →
  query_step L model chunks t q log = (Raise missing_credential, log).
Proof.
  intros Hkey Hg. unfold query_step, bind. by rewrite build_answer_no_key.
Qed.

(** Without a credential the loop never sends a request: it ends with the
    tally of the gated questions, or with the configuration error at the
    first question that passes the gate. *)
Lemma for_each_no_key (L : Completion) (model : string)
    (chunks : list (string * string)) :
  truthy_key (OPENAI_API_KEY L) = None →
  ∀ qs t log,
    for_each (query_step L model chunks) t qs log =
      if forallb (λ q, gated q chunks) qs
      then (Ok (foldl gated_step t qs), log)
      else (Raise missing_credential, log).
Proof.
  intros Hkey. induction qs as [|q qs IH]; intros t log; [done|].
  simpl. unfold bind at 1. destruct (gated q chunks) eqn:Hg.
  - rewrite query_step_gated by done. apply IH.
  - by rewrite query_step_no_key.
Qed.

Lemma for_each_all_gated (L : Completion) (model : string)
    (chunks : list (string * string)) :
  ∀ qs t log,
    forallb (λ q, gated q chunks) qs = true →
    for_each (query_step L model chunks) t qs log
      = (Ok (foldl gated_step t qs), log).
Proof.
  induction qs as [|q qs IH]; intros t log; [done|].
  simpl. intros [Hg Hqs]%andb_true_iff. unfold bind at 1.
  rewrite query_step_gated by done. by apply IH.
Qed.

Lemma foldl_gated_step (qs : list string) (t : tally) :
  foldl gated_step t qs =
    {| results := results t ++ (gated_result <$> qs);
       answerable_count := answerable_count t;
       citation_ok_count := citation_ok_count t;
       hallucinations := hallucinations t;
       completeness_scores :=
         completeness_scores t ++ ((λ q, _completeness_score q "NOT FOUND") <$> qs);
       missing := missing t ++ qs |}.
Proof.
  revert t. induction qs as [|q qs IH]; intros t; simpl.
  - rewrite !app_nil_r. by destruct t.
  - rewrite IH. simpl. by rewrite <- !app_assoc.
Qed.

Lemma tally_inv_empty : tally_inv [] empty_tally.
Proof. repeat split; simpl; try done; constructor. Qed.

(** One more question keeps the invariant of the loop variables. *)
Lemma query_step_inv (L : Completion) (model : string)
    (chunks : list (string * string)) (done : list string) (t t' : tally)
    (q : string) (log log' : list completion_call) :
  tally_inv done t →
  query_step L model chunks t q log = (Ok t', log') →
  tally_inv (done ++ [q]) t'.
Proof.
  intros (Hq & Hm & Ha & Hc & Hh & Hl & Hr & Hcomp).
  unfold query_step, bind.
  destruct (_build_answer L q _ model log) as [[[[ans cits] is_ans]|e] log1];
    [|done].
  intros [= <- <-]. unfold tally_inv, not_found_results. simpl.
  rewrite !fmap_app, !length_app, filter_app, fmap_app, Hq, Hl. simpl.
  repeat split.
  - rewrite Hm. unfold not_found_results.
    rewrite filter_cons, filter_nil. simpl.
    destruct is_ans; simpl.
    + destruct (decide (answered = not_found)); [done|]. by rewrite app_nil_r.
    + destruct (decide (not_found = not_found)); [done|done].
  - destruct is_ans; lia.
  - destruct is_ans; [destruct (nonempty cits)|]; lia.
  - destruct is_ans; lia.
  - apply Forall_app. split; [done|].
    repeat constructor; apply completeness_score_rate.
  - apply Forall_app. split; [done|]. by repeat constructor.
Qed.

Lemma for_each_inv (L : Completion) (model : string)
    (chunks : list (string * string)) :
  ∀ qs done t t' log log',
    tally_inv done t →
    for_each (query_step L model chunks) t qs log = (Ok t', log') →
    tally_inv (done ++ qs) t'.
Proof.
  induction qs as [|q qs IH]; intros done t t' log log' Hinv; simpl.
  - intros [= <- <-]. by rewrite app_nil_r.
  - unfold bind at 1.
    destruct (query_step L model chunks t q log) as [[t1|e] log1] eqn:Hstep;
      [|done].
    intros Hrest. rewrite (assoc_L (++) done [q] qs : done ++ q :: qs = (done ++ [q]) ++ qs).
    eapply IH; [|exact Hrest]. by eapply query_step_inv.
Qed.

(** A run that returns a report went through the crawl, the chunking and
    the loop. *)
Lemma run_returns (W : Web) (L : Completion) (site : string)
    (queries : option (list string)) (model : string)
    (r : report string bool) (log : list completion_call) :
  run_answerability_benchmark W L site queries model = Some (Ok r, log) →
  ∃ pages requested chunks t,
    crawl_site W site 15 50 = Some (Ok (pages, requested)) ∧
    index_pages pages = Some chunks ∧
    for_each (query_step L model chunks) empty_tally
      (queries_or_default queries) [] = (Ok t, log) ∧
    r = make_report site pages chunks (queries_or_default queries) t.
Proof.
  unfold run_answerability_benchmark.
  destruct (crawl_site W site 15 50) as [[[pages requested]|e]|]; [|done..].
  destruct (index_pages pages) as [chunks|] eqn:Hindex; [|done].
  destruct (for_each _ _ _ _) as [[t|e] log1] eqn:Hloop; [|done].
  intros [= <- <-]. by exists pages, requested, chunks, t.
Qed.

Lemma index_pages_total (pages : list PageContent) :
  is_Some (index_pages pages).
Proof.
  induction pages as [|page pages [rest Hrest]]; [done|]. simpl.
  destruct (chunk_text_covers (text page) 800 120) as (cs & -> & _); [lia|].
  rewrite Hrest. done.
Qed.

(** Every run of the per-question engine ends: with a report or with an
    exception. *)
Lemma analyze_run_total (W : Web) (L : Completion) (site : string)
    (queries : option (list string)) (model : string) :
  is_Some (run_answerability_benchmark W L site queries model).
Proof.
  unfold run_answerability_benchmark.
  destruct (crawl_from_finishes W site [site] 15 50) as [out Hout].
  unfold crawl_site. rewrite Hout.
  destruct out as [[pages requested]|e]; [|done].
  destruct (index_pages_total pages) as [chunks ->]. done.
Qed.

Lemma Qsum_rates (l : list Q) :
  Forall is_rate l →
  (0 <= Qsum l)%Q ∧ (Qsum l <= inject_Z (Z.of_nat (length l)))%Q.
Proof.
  induction 1 as [|x l [Hx0 Hx1] Hl [IH0 IH1]]; simpl Qsum.
  - split; apply Qle_refl.
  - rewrite length_cons, Nat2Z.inj_succ, <- Z.add_1_r, inject_Z_plus.
    change (inject_Z 1) with 1%Q. split; lra.
Qed.

Lemma mean_rate (l : list Q) (total : nat) :
  Forall is_rate l → length l ≤ total → 0 < total →
  is_rate (Qsum l / inject_Z (Z.of_nat total)).
Proof.
  intros Hl Hlen Hpos. destruct (Qsum_rates l Hl) as [H0 H1].
  assert (0 < inject_Z (Z.of_nat total))%Q as Ht.
  { change 0%Q with (inject_Z 0). rewrite <- Zlt_Qlt. lia. }
  assert (inject_Z (Z.of_nat (length l)) <= inject_Z (Z.of_nat total))%Q as Hle.
  { rewrite <- Zle_Qle. lia. }
  split.
  - apply Qle_shift_div_l; [done|]. lra.
  - apply Qle_shift_div_r; [done|]. lra.
Qed.

End AnalyzeFacts.

(** ** The single-call engine: the processing of the reply *)

Module BackendFacts.
Import Text Retriever Effects Synthesizer Url Crawler Report Backend.
Import Spec RateFacts CrawlFacts.

(** What the loop variables of the single-call engine satisfy. *)
Lemma process_inv (site : string) (pages : list PageContent)
    (queries_list : list string) (t t' : tally) (i : nat) (r : json) :
  process site pages queries_list t i r = Ok t' →
  missing t = query <$> not_found_results (results t) →
  answered_count t ≤ length (results t) →
  missing t' = query <$> not_found_results (results t') ∧
  answered_count t' ≤ length (results t') ∧
  length (results t') = S (length (results t)).
Proof.
  unfold process. destruct r as [| | | | |fields]; try done.
  set (found := dict_get fields "found" (JBool false)).
  set (ans := dict_get fields "answer" (JStr "NOT FOUND")).
  destruct (if truthy found then _ else _) as [ok|e]; [|done].
  intros [= <-] Hm Ha. unfold not_found_results in *. simpl.
  rewrite filter_app, fmap_app, length_app, filter_cons, filter_nil. simpl.
  rewrite Hm. destruct ok; simpl.
  - destruct (decide (answered = not_found)); [done|].
    rewrite app_nil_r. split; [done|]. lia.
  - destruct (decide (not_found = not_found)); [|done].
    split; [done|]. lia.
Qed.

Lemma process_all_inv (site : string) (pages : list PageContent)
    (queries_list : list string) :
  ∀ items t t' i,
    process_all site pages queries_list t i items = Ok t' →
    missing t = query <$> not_found_results (results t) →
    answered_count t ≤ length (results t) →
    missing t' = query <$> not_found_results (results t') ∧
    answered_count t' ≤ length (results t') ∧
    length (results t') = length (results t) + length items.
Proof.
  induction items as [|r items IH]; intros t t' i; simpl.
  - intros [= <-] Hm Ha. split; [done|]. split; [done|]. lia.
  - destruct (process site pages queries_list t i r) as [t1|e] eqn:Hp; [|done].
    intros Hrest Hm Ha.
    destruct (process_inv _ _ _ _ _ _ _ Hp Hm Ha) as (Hm1 & Ha1 & Hl1).
    destruct (IH _ _ _ Hrest Hm1 Ha1) as (Hm' & Ha' & Hl').
    split; [done|]. split; [done|]. lia.
Qed.

(** A run that returns a report found no page, or went through the one
    request and the processing of its reply. *)
Lemma backend_run_returns (W : Web) (L : Completion)
    (json_loads : string → option json) (site : string)
    (queries : option (list string)) (model : string)
    (r : report json json) (log : list completion_call) :
  run_answerability_benchmark W L json_loads site queries model
    = Some (Ok r, log) →
  (r = empty_crawl_report site (queries_or_default queries) ∧ log = [] ∧
   ∃ requested, crawl_site W site 10 50 = Some (Ok ([], requested))) ∨
  (∃ page pages requested items t,
     crawl_site W site 10 50 = Some (Ok (page :: pages, requested)) ∧
     is_Some (truthy_key (OPENAI_API_KEY L)) ∧
     process_all site (page :: pages) (queries_or_default queries)
       {| results := []; answered_count := 0; missing := [] |} 0 items = Ok t ∧
     r = make_report site (page :: pages) (queries_or_default queries) t).
Proof.
  unfold run_answerability_benchmark.
  destruct (crawl_site W site 10 50) as [[[[|page pages] requested]|e]|];
    [|
     |done..].
  - intros [= <- <-]. left. split; [done|]. split; [done|]. by exists requested.
  - destruct (netloc (netloc_ok W) site) as [domain|e]; [|done].
    destruct (truthy_key (OPENAI_API_KEY L)) as [key|] eqn:Hkey; [|done].
    destruct (ask L json_loads key model _ _) as [reply log1].
    destruct (iterate reply) as [items|e]; [|done].
    destruct (process_all _ _ _ _ _ _) as [t|e] eqn:Hp; [|done].
    intros [= <- <-]. right. exists page, pages, requested, items, t.
    split; [done|]. split; [by exists key|]. done.
Qed.

(** Without a credential the single-call engine sends no request: it
    returns the report of an empty crawl, or raises. *)
Lemma backend_run_no_key (W : Web) (L : Completion)
    (json_loads : string → option json) (site : string)
    (queries : option (list string)) (model : string) :
  truthy_key (OPENAI_API_KEY L) = None →
  run_answerability_benchmark W L json_loads site queries model =
    match crawl_site W site 10 50 with
    | None => None
    | Some (Raise e) => Some (Raise e, [])
    | Some (Ok ([], _)) =>
        Some (Ok (empty_crawl_report site (queries_or_default queries)), [])
    | Some (Ok (_ :: _, _)) =>
        match netloc (netloc_ok W) site with
        | Raise e => Some (Raise e, [])
        | Ok _ => Some (Raise missing_credential, [])
        end
    end.
Proof.
  intros Hkey. unfold run_answerability_benchmark. rewrite Hkey.
  destruct (crawl_site W site 10 50) as [[[[|page pages] requested]|e]|];
    try done.
Qed.

(** Every run of the single-call engine ends: with a report or with an
    exception. *)
Lemma backend_run_total (W : Web) (L : Completion)
    (json_loads : string → option json) (site : string)
    (queries : option (list string)) (model : string) :
  is_Some (run_answerability_benchmark W L json_loads site queries model).
Proof.
  unfold run_answerability_benchmark, crawl_site.
  destruct (crawl_from_finishes W site
              (((λ path, rstrip_slash site +:+ path) <$> priority_paths) ++ [site])
              10 50) as [out Hout].
  rewrite Hout. destruct out as [[[|page pages] requested]|e]; [done| |done].
  destruct (netloc (netloc_ok W) site); [|done].
  destruct (truthy_key (OPENAI_API_KEY L)); [|done].
  by destruct (ask L json_loads _ _ _ _).
Qed.

End BackendFacts.

(** ** Aggregator: the report of a crawl without pages *)

Module EmptyCrawlFacts.
Import Text Chunker Retriever Effects Synthesizer Url Crawler Report.
Import Spec RateFacts AnalyzeFacts BackendFacts.

Lemma all_gated_without_chunks (qs : list string) :
  forallb (λ q, gated q []) qs = true.
Proof. by induction qs. Qed.

Lemma rate_zero (total : nat) : (Analyze.rate 0 total == 0)%Q.
Proof. unfold Analyze.rate. by apply round2_zero. Qed.

Lemma gated_results_not_found (qs : list string) :
  Forall (λ qr : query_result string bool,
            result_status qr = not_found ∧ answer qr = "NOT FOUND")
         (gated_result <$> qs).
Proof. apply Forall_fmap, Forall_true. done. Qed.

Lemma gated_results_queries (qs : list string) :
  query <$> (gated_result <$> qs) = qs.
Proof. rewrite <- list_fmap_compose. apply list_fmap_id. Qed.

(** The per-question engine on a crawl without pages. *)
Lemma analyze_empty_crawl (W : Web) (L : Completion) (site : string)
    (queries : option (list string)) (model : string) (requested : list string) :
  Analyze.crawl_site W site 15 50 = Some (Ok ([], requested)) →
  Analyze.run_answerability_benchmark W L site queries model =
    Some (Ok (Analyze.make_report site [] [] (queries_or_default queries)
                (foldl gated_step Analyze.empty_tally (queries_or_default queries))),
          []).
Proof.
  intros Hcrawl. unfold Analyze.run_answerability_benchmark.
  rewrite Hcrawl. simpl Analyze.index_pages. cbv iota.
  by rewrite for_each_all_gated by apply all_gated_without_chunks.
Qed.

(** C2 (amended). When the crawl yields no page, both engines return a
    report without sending a request to the completion service, with
    [crawled_pages = 0], [indexed_chunks = 0], every question in input
    order with the status [not_found], and the questions as missing
    topics. In the single-call engine the four overall scores are 0 and
    every answer is "Could not crawl website". In the per-question engine
    the answerability rate, the citation coverage and the hallucination
    rate are 0, every answer is "NOT FOUND", and the completeness is the
    one of that placeholder: per question its rounded token overlap with
    the question, overall the rounded mean of the overlaps. *)
Theorem empty_crawl_report_spec (W : Web) (L : Completion)
    (json_loads : string → option Backend.json) (site : string)
    (questions : list string) (model : string) :
  questions ≠ [] →
  (∀ requested,
     Backend.crawl_site W site 10 50 = Some (Ok ([], requested)) →
     ∃ r,
       Backend.run_answerability_benchmark W L json_loads site
         (Some questions) model = Some (Ok r, []) ∧
       crawled_pages r = 0 ∧ indexed_chunks r = 0 ∧
       queries_run r = length questions ∧
       Forall (λ x, x == 0)%Q (rates (overall r)) ∧
       query <$> query_results r = Backend.JStr <$> questions ∧
       Forall (λ qr, result_status qr = not_found ∧
                     answer qr = Backend.JStr "Could not crawl website")
              (query_results r) ∧
       missing_topics r = Backend.JStr <$> questions) ∧
  (∀ requested,
     Analyze.crawl_site W site 15 50 = Some (Ok ([], requested)) →
     ∃ r,
       Analyze.run_answerability_benchmark W L site (Some questions) model
         = Some (Ok r, []) ∧
       crawled_pages r = 0 ∧ indexed_chunks r = 0 ∧
       queries_run r = length questions ∧
       (answerability_rate (overall r) == 0)%Q ∧
       (citation_coverage (overall r) == 0)%Q ∧
       (hallucination_rate (overall r) == 0)%Q ∧
       query <$> query_results r = questions ∧
       Forall (λ qr, result_status qr = not_found ∧ answer qr = "NOT FOUND")
              (query_results r) ∧
       missing_topics r = questions ∧
       Forall (λ qr, completeness (result_metrics qr)
                     = round2 (Analyze._completeness_score (query qr) "NOT FOUND"))
              (query_results r) ∧
       overall_completeness (overall r) =
         round2 (Analyze.Qsum
                   ((λ q, Analyze._completeness_score q "NOT FOUND") <$> questions)
                 / inject_Z (Z.of_nat (length questions)))).
Proof.
  intros Hne.
  assert (queries_or_default (Some questions) = questions) as Hq
    by (by destruct questions).
  split.
  - intros requested Hcrawl. eexists. split.
    { unfold Backend.run_answerability_benchmark. rewrite Hcrawl, Hq. done. }
    simpl. repeat split.
    + by repeat constructor.
    + rewrite <- list_fmap_compose. done.
    + apply Forall_fmap, Forall_true. done.
  - intros requested Hcrawl. eexists. split.
    { rewrite (analyze_empty_crawl _ _ _ _ _ _ Hcrawl), Hq. done. }
    rewrite foldl_gated_step. simpl.
    repeat split; try apply rate_zero.
    + apply gated_results_queries.
    + apply gated_results_not_found.
    + apply Forall_fmap, Forall_true. done.
    + destruct questions as [|q qs]; [done|].
      replace (1 `max` length (q :: qs)) with (length (q :: qs))
        by (simpl; lia).
      done.
Qed.

(** C2 on a web in which every request fails. *)
Lemma empty_crawl_report_spec_witness :
  ∃ r,
    Backend.run_answerability_benchmark Fixtures.closed_web
      Fixtures.stub_service Fixtures.decode_two_answers "https://shop.example/"
      (Some ["What is your pricing?"; "Where are you located?"]) "gpt-4o-mini"
      = Some (Ok r, []) ∧
    Forall (λ x, x == 0)%Q (rates (overall r)) ∧
    missing_topics r =
      [Backend.JStr "What is your pricing?"; Backend.JStr "Where are you located?"].
Proof.
  destruct (empty_crawl_report_spec Fixtures.closed_web Fixtures.stub_service
              Fixtures.decode_two_answers "https://shop.example/"
              ["What is your pricing?"; "Where are you located?"] "gpt-4o-mini")
    as [Hb _]; [discriminate|].
  destruct (Hb ["https://shop.example"; "https://shop.example/contact";
                "https://shop.example/contact-us"; "https://shop.example/about";
                "https://shop.example/about-us"; "https://shop.example/pricing";
                "https://shop.example/prices"; "https://shop.example/plans";
                "https://shop.example/faq"; "https://shop.example/support";
                "https://shop.example/help"; "https://shop.example/locations";
                "https://shop.example/hours"; "https://shop.example/refund";
                "https://shop.example/refund-policy"; "https://shop.example/terms";
                "https://shop.example/services"; "https://shop.example/"])
    as (r & Hrun & _ & _ & _ & Hrates & _ & _ & Hmissing); [reflexivity|].
  exists r. by repeat split.
Defined.

(** C2 as stated fails in the per-question engine: without pages it
    answers "NOT FOUND", and reports the completeness of that placeholder,
    a third for this question. *)
Lemma empty_crawl_placeholder :
  ∃ r,
    Analyze.run_answerability_benchmark Fixtures.closed_web
      Fixtures.stub_service "https://shop.example/"
      (Some ["Is the refund policy not found?"]) "gpt-4o-mini"
      = Some (Ok r, []) ∧
    crawled_pages r = 0 ∧
    answer <$> query_results r = ["NOT FOUND"] ∧
    (overall_completeness (overall r) == 33 # 100)%Q.
Proof. eexists. split; [reflexivity|]. by repeat split. Qed.

End EmptyCrawlFacts.

(** ** Aggregator: a missing credential *)

Module CredentialFacts.
Import Text Chunker Retriever Effects Synthesizer Url Crawler Report.
Import Spec RateFacts AnalyzeFacts BackendFacts EmptyCrawlFacts.

(** C3 (amended). Without the credential neither engine sends a request
    to the completion service, and no result carries the missing
    credential as its answer. The per-question engine raises the
    configuration error exactly when a question passes the relevance
    gate, and returns the report of the gated questions otherwise. The
    single-call engine returns the report of an empty crawl when no page
    was crawled, and raises before it processes any question
    otherwise. *)
Theorem missing_credential_spec (W : Web) (L : Completion)
    (json_loads : string → option Backend.json) (site : string)
    (queries : option (list string)) (model : string) :
  truthy_key (OPENAI_API_KEY L) = None →
  let qs := queries_or_default queries in
  (∀ pages requested chunks,
     Analyze.crawl_site W site 15 50 = Some (Ok (pages, requested)) →
     Analyze.index_pages pages = Some chunks →
     Analyze.run_answerability_benchmark W L site queries model =
       Some (if forallb (λ q, gated q chunks) qs
             then (Ok (Analyze.make_report site pages chunks qs
                         (foldl gated_step Analyze.empty_tally qs)), [])
             else (Raise missing_credential, []))) ∧
  (∀ out log,
     Analyze.run_answerability_benchmark W L site queries model
       = Some (out, log) →
     log = [] ∧
     ∀ r, out = Ok r →
          Forall (λ qr, answer qr = "NOT FOUND" ∧ result_status qr = not_found)
                 (query_results r)) ∧
  (∀ requested,
     Backend.crawl_site W site 10 50 = Some (Ok ([], requested)) →
     Backend.run_answerability_benchmark W L json_loads site queries model
       = Some (Ok (Backend.empty_crawl_report site qs), [])) ∧
  (∀ page pages requested domain,
     Backend.crawl_site W site 10 50 = Some (Ok (page :: pages, requested)) →
     netloc (netloc_ok W) site = Ok domain →
     Backend.run_answerability_benchmark W L json_loads site queries model
       = Some (Raise missing_credential, [])) ∧
  (∀ out log,
     Backend.run_answerability_benchmark W L json_loads site queries model
       = Some (out, log) →
     log = [] ∧ ∀ r, out = Ok r → r = Backend.empty_crawl_report site qs).
Proof.
  intros Hkey qs.
  assert (∀ pages requested chunks,
     Analyze.crawl_site W site 15 50 = Some (Ok (pages, requested)) →
     Analyze.index_pages pages = Some chunks →
     Analyze.run_answerability_benchmark W L site queries model =
       Some (if forallb (λ q, gated q chunks) qs
             then (Ok (Analyze.make_report site pages chunks qs
                         (foldl gated_step Analyze.empty_tally qs)), [])
             else (Raise missing_credential, []))) as Hanalyze.
  { intros pages requested chunks Hcrawl Hindex.
    unfold Analyze.run_answerability_benchmark.
    rewrite Hcrawl, Hindex, for_each_no_key by done. fold qs.
    by destruct (forallb _ qs). }
  split; [exact Hanalyze|]. split; [|split; [|split]].
  - intros out log Hrun.
    destruct (Analyze.crawl_site W site 15 50) as [[[pages requested]|e]|] eqn:Hcrawl.
    + destruct (Analyze.index_pages pages) as [chunks|] eqn:Hindex.
      * rewrite (Hanalyze _ _ _ eq_refl Hindex) in Hrun.
        destruct (forallb _ qs); injection Hrun as <- <-;
          (split; [done|]); intros r [= <-].
        rewrite foldl_gated_step. simpl.
        apply Forall_fmap, Forall_true. done.
      * unfold Analyze.run_answerability_benchmark in Hrun.
        by rewrite Hcrawl, Hindex in Hrun.
    + unfold Analyze.run_answerability_benchmark in Hrun.
      rewrite Hcrawl in Hrun. injection Hrun as <- <-. done.
    + unfold Analyze.run_answerability_benchmark in Hrun.
      by rewrite Hcrawl in Hrun.
  - intros requested Hcrawl. by rewrite backend_run_no_key, Hcrawl.
  - intros page pages requested domain Hcrawl Hdomain.
    by rewrite backend_run_no_key, Hcrawl, Hdomain.
  - intros out log. rewrite backend_run_no_key by done.
    assert (∀ o : result (report Backend.json Backend.json),
              (∀ r, o = Ok r → r = Backend.empty_crawl_report site qs) →
              Some (o, []) = Some (out, log) →
              log = [] ∧ ∀ r, out = Ok r → r = Backend.empty_crawl_report site qs)
      as Hsettle by (by intros o Ho [= <- <-]).
    destruct (Backend.crawl_site W site 10 50)
      as [[[[|page pages] requested]|e]|]; [| | |done].
    + apply Hsettle. by intros r [= <-].
    + destruct (netloc (netloc_ok W) site); by apply Hsettle.
    + by apply Hsettle.
Qed.

(** C3 on the two-page site: without credential, the first of the
    default questions passes the gate, and the run raises the
    configuration error. *)
Lemma missing_credential_spec_witness :
  Analyze.run_answerability_benchmark Fixtures.two_page_web
    Fixtures.no_key_service "https://shop.example/" None "gpt-4o-mini"
  = Some (Raise missing_credential, []).
Proof.
  pose proof (missing_credential_spec Fixtures.two_page_web
                Fixtures.no_key_service Fixtures.decode_two_answers
                "https://shop.example/" None "gpt-4o-mini" eq_refl)
    as (Hrun & _).
  destruct (Analyze.crawl_site Fixtures.two_page_web "https://shop.example/" 15 50)
    as [[[pages requested]|e]|] eqn:Hcrawl;
    try (vm_compute in Hcrawl; discriminate).
  destruct (Analyze.index_pages pages) as [chunks|] eqn:Hindex.
  - rewrite (Hrun pages requested chunks eq_refl Hindex).
    vm_compute in Hcrawl. injection Hcrawl as <- <-.
    vm_compute in Hindex. injection Hindex as <-.
    reflexivity.
  - vm_compute in Hcrawl. injection Hcrawl as <- <-.
    vm_compute in Hindex. discriminate.
Defined.

(** C3 as stated fails: without credential, a run in which the gate
    closes on every question returns a report with a result for each
    question. *)
Lemma missing_credential_report :
  OPENAI_API_KEY Fixtures.no_key_service = None ∧
  ∃ r,
    Analyze.run_answerability_benchmark Fixtures.two_page_web
      Fixtures.no_key_service "https://shop.example/"
      (Some ["Where are you located?"; "What are your business hours?"])
      "gpt-4o-mini"
      = Some (Ok r, []) ∧
    crawled_pages r = 2 ∧
    answer <$> query_results r = ["NOT FOUND"; "NOT FOUND"].
Proof. split; [done|]. eexists. split; [reflexivity|]. by split. Qed.

End CredentialFacts.

(** ** Aggregator: the invariants of the report *)

Module ReportFacts.
Import Text Chunker Retriever Effects Synthesizer Url Crawler Report.
Import Spec RateFacts AnalyzeFacts BackendFacts.

Lemma analyze_rates (qs : list string) (t : Analyze.tally) :
  tally_inv qs t →
  Forall is_rate
    (rates (overall (Analyze.make_report EmptyString [] [] qs t))).
Proof.
  intros (Hq & Hm & Ha & Hc & Hh & Hl & Hr & _).
  assert (length (Analyze.results t) = length qs) as Hlen
    by (by rewrite <- Hq, length_fmap).
  assert (∀ n, n ≤ length qs → is_rate (Analyze.rate n (1 `max` length qs)))
    as Hrate.
  { intros n Hn. apply round2_rate, true_div_rate. lia. }
  unfold rates. simpl.
  apply Forall_cons; split; [apply Hrate; lia|].
  apply Forall_cons; split; [apply Hrate; lia|].
  apply Forall_cons; split; [apply Hrate; lia|].
  apply Forall_cons; split; [|constructor].
  destruct (Analyze.completeness_scores t) eqn:Hs; [by split|].
  apply round2_rate, mean_rate; [done|lia|lia].
Qed.

Lemma empty_crawl_missing (site : string) (qs : list string) :
  missing_topics (Backend.empty_crawl_report site qs) =
    query <$> not_found_results (query_results (Backend.empty_crawl_report site qs)).
Proof.
  unfold not_found_results. simpl.
  induction qs as [|q qs IH]; [done|].
  rewrite !fmap_cons, filter_cons. simpl.
  destruct (decide (not_found = not_found)); [|done].
  simpl. by f_equal.
Qed.

(** C4 (amended). In a report of the per-question engine the results
    are those of the input questions in order, the missing topics are the
    questions of the results whose status is [not_found], in order,
    [queries_run] is the number of results and of input questions, and
    the four rates lie between 0 and 1. In a report of the single-call
    engine [queries_run] is the number of input questions, the missing
    topics are the [query] entries of the results whose status is
    [not_found], in order, and the rates lie between 0 and 1 when there
    are no more results than input questions. *)
Theorem report_invariants (W : Web) (L : Completion)
    (json_loads : string → option Backend.json) (site : string)
    (queries : option (list string)) (model : string) :
  let qs := queries_or_default queries in
  (∀ r log,
     Analyze.run_answerability_benchmark W L site queries model
       = Some (Ok r, log) →
     query <$> query_results r = qs ∧
     missing_topics r = query <$> not_found_results (query_results r) ∧
     queries_run r = length (query_results r) ∧
     queries_run r = length qs ∧
     Forall is_rate (rates (overall r))) ∧
  (∀ r log,
     Backend.run_answerability_benchmark W L json_loads site queries model
       = Some (Ok r, log) →
     queries_run r = length qs ∧
     missing_topics r = query <$> not_found_results (query_results r) ∧
     (length (query_results r) ≤ length qs →
      Forall is_rate (rates (overall r)))).
Proof.
  intros qs. split.
  - intros r log (pages & requested & chunks & t & _ & _ & Hloop & ->)%run_returns.
    pose proof (for_each_inv L model chunks _ [] _ _ _ _ tally_inv_empty Hloop)
      as Hinv.
    change (tally_inv qs t) in Hinv.
    pose proof (analyze_rates qs t Hinv) as Hrates.
    destruct Hinv as (Hq & Hm & _).
    simpl. split; [done|]. split; [done|].
    split; [by rewrite <- (length_fmap query (Analyze.results t)), Hq|].
    split; [done|]. exact Hrates.
  - intros r log [(-> & _ & _)|(page & pages & requested & items & t & _ & _ & Hp & ->)]%backend_run_returns;
      fold qs.
    + split; [done|]. split; [apply empty_crawl_missing|].
      intros _. unfold rates. simpl.
      repeat (apply Forall_cons; split; [by split|]). constructor.
    + apply process_all_inv in Hp as (Hm & Ha & Hl); [|done|simpl; lia].
      simpl in *. split; [done|]. split; [done|].
      intros Hlen. unfold rates. simpl.
      assert (is_rate (round2 (true_div (Backend.answered_count t)
                                        (1 `max` length qs)))) as Hrate
        by (apply round2_rate, true_div_rate; lia).
      repeat (apply Forall_cons; split; [done || by split|]). constructor.
Qed.

(** C4 as stated fails in the single-call engine: the reply decides the
    number of results. With two answers to one question, the report has
    two results for [queries_run = 1], and an answerability rate of 2. *)
Lemma reply_decides_results :
  ∃ r log,
    Backend.run_answerability_benchmark Fixtures.two_page_web
      Fixtures.two_answers_service Fixtures.decode_two_answers
      "https://shop.example/"
      (Some ["What is your pricing?"]) "gpt-4o-mini"
      = Some (Ok r, log) ∧
    queries_run r = 1 ∧
    length (query_results r) = 2 ∧
    (answerability_rate (overall r) == 2)%Q.
Proof. eexists _, _. split; [vm_compute; reflexivity|]. by repeat split. Qed.

End ReportFacts.

(** ** Aggregator: the completeness of an unanswered question *)

Module CompletenessFacts.
Import Text Chunker Retriever Effects Synthesizer Url Crawler Report.
Import Spec RateFacts AnalyzeFacts.

(** C10 (amended). The completeness of every result is computed from
    the literal answer and rounded to two decimals, whatever the status;
    a question on which the gate closes is recorded with the answer
    "NOT FOUND" and the status [not_found]. So for a question that holds
    the token "not" or "found" and has the answer "NOT FOUND", the
    completeness is positive before rounding, and the reported one is
    positive when the question has fewer than 200 distinct tokens. *)
Theorem placeholder_completeness (W : Web) (L : Completion) (site : string)
    (queries : option (list string)) (model : string)
    (r : report string bool) (log : list completion_call) :
  Analyze.run_answerability_benchmark W L site queries model = Some (Ok r, log) →
  Forall
    (λ qr,
       completeness (result_metrics qr)
         = round2 (Analyze._completeness_score (query qr) (answer qr)) ∧
       (answer qr = "NOT FOUND" →
        "not" ∈ _tokenize (query qr) ∨ "found" ∈ _tokenize (query qr) →
        (0 < Analyze._completeness_score (query qr) (answer qr))%Q ∧
        (size (list_to_set (_tokenize (query qr)) : gset string) < 200 →
         (0 < completeness (result_metrics qr))%Q)))
    (query_results r) ∧
  ∀ q chunks t log0,
    gated q chunks = true →
    Analyze.query_step L model chunks t q log0 = (Ok (gated_step t q), log0) ∧
    answer (gated_result q) = "NOT FOUND" ∧
    result_status (gated_result q) = not_found.
Proof.
  intros (pages & requested & chunks & t & _ & _ & Hloop & ->)%run_returns.
  split.
  - pose proof (for_each_inv L model chunks _ [] _ _ _ _ tally_inv_empty Hloop)
      as (_ & _ & _ & _ & _ & _ & _ & Hcomp).
    simpl. eapply Forall_impl; [exact Hcomp|].
    intros qr Hqr. split; [exact Hqr|].
    intros Hans Htok. rewrite Hqr, Hans.
    destruct (completeness_not_found _ Htok) as (k & n & Hk & Hn & ->).
    split; [by apply true_div_gt_0|].
    intros Hsize. apply round2_pos, true_div_pos; [done| |lia].
    rewrite Hn. apply Nat.neq_0_lt_0, size_non_empty_iff.
    intros Hempty.
    destruct Htok as [Hin|Hin]; apply (elem_of_list_to_set (C:=gset string)) in Hin;
      apply Hempty in Hin; by apply not_elem_of_empty in Hin.
  - intros q chunks0 t0 log0 Hg. split; [by apply query_step_gated|done].
Qed.

(** C10 on the two-page site: an answered question, and a question with
    the tokens "not" and "found" on which the gate closes. *)
Lemma placeholder_completeness_witness :
  ∃ r log,
    Analyze.run_answerability_benchmark Fixtures.two_page_web
      Fixtures.stub_service "https://shop.example/"
      (Some ["What services do you offer?"; "Is the refund policy not found?"])
      "gpt-4o-mini" = Some (Ok r, log) ∧
    ((λ qr, (answer qr, completeness (result_metrics qr))) <$> query_results r)
      = [("Consulting [1].", 0 # 100); ("NOT FOUND", 33 # 100)]%Q ∧
    Forall
      (λ qr,
         completeness (result_metrics qr)
           = round2 (Analyze._completeness_score (query qr) (answer qr)))
      (query_results r).
Proof.
  destruct (Analyze.run_answerability_benchmark _ _ _ _ _)
    as [[[r|e] log]|] eqn:Hrun; try (vm_compute in Hrun; discriminate).
  exists r, log. split; [done|].
  destruct (placeholder_completeness _ _ _ _ _ _ _ Hrun) as [Hall _].
  split; [|by eapply Forall_impl; [exact Hall|]; intros qr [? _]].
  vm_compute in Hrun. by injection Hrun as <- <-.
Defined.

(** C10 as stated fails for a long question: the gate closes on a
    question of 251 distinct tokens, one of them "not", and the reported
    completeness, 1/251 rounded to two decimals, is 0. *)
Lemma long_question_completeness :
  ∃ r qr,
    Analyze.run_answerability_benchmark Fixtures.closed_web
      Fixtures.stub_service "https://shop.example/"
      (Some [Fixtures.long_question]) "gpt-4o-mini" = Some (Ok r, []) ∧
    query_results r = [qr] ∧
    "not" ∈ _tokenize (query qr) ∧
    gated (query qr) [] = true ∧
    result_status qr = not_found ∧
    (Analyze._completeness_score (query qr) (answer qr) == 1 # 251)%Q ∧
    (completeness (result_metrics qr) == 0)%Q.
Proof.
  eexists _, _. split; [vm_compute; reflexivity|].
  split; [reflexivity|]. split; [vm_compute; left|].
  split; [reflexivity|]. split; [reflexivity|]. split; by vm_compute.
Qed.

End CompletenessFacts.

(** * Further properties of the code *)

(** ** Page extractor and crawler: bounds and revisits *)

Module CrawlBoundFacts.
Import Text Effects Url Crawler Spec CrawlFacts.



(** With a limit of 2, and with a limit of 0. *)
Example extract_links_limits :
  _extract_links Examples.four_links_web "https://shop.example" "page" 2
    = ["https://shop.example/a"; "https://shop.example/b"] ∧
  _extract_links Examples.four_links_web "https://shop.example" "page" 0
    = ["https://shop.example/a"].
Proof. split; reflexivity. Qed.

(** The invariant of the crawl loop on revisits: the requested URLs are
    distinct and seen, the pages are pages of requested URLs, in the order
    of the requests, and there are at most [max_pages] of them. *)
Lemma crawl_loop_no_revisit (W : Web) (start_url : string)
    (max_pages max_links_per_page : nat) :
  ∀ fuel st out_pages out_requested,
    NoDup (requested st) →
    (∀ u, u ∈ requested st → u ∈ seen st) →
    url <$> pages st `sublist_of` requested st →
    length (pages st) ≤ max_pages →
    crawl_loop W start_url max_pages max_links_per_page fuel st
      = Some (Ok (out_pages, out_requested)) →
    NoDup out_requested ∧
    url <$> out_pages `sublist_of` out_requested ∧
    length out_pages ≤ max_pages.
Proof.
  induction fuel as [|fuel IH]; intros st ps rs Hnd Hseen Hsub Hlen; [done|].
  rewrite crawl_loop_S.
  destruct (queue st) as [|u queue'] eqn:Hqueue.
  { by intros [= <- <-]. }
  destruct (decide (length (pages st) < max_pages)) as [Hroom|];
    [|by intros [= <- <-]].
  destruct (decide (u ∈ seen st)) as [Hin|Hnew].
  { by apply IH. }
  assert (NoDup (requested st ++ [u])) as Hnd'.
  { apply NoDup_app. split; [done|]. split; [|apply NoDup_singleton].
    intros v Hv ->%list_elem_of_singleton. by apply Hnew, Hseen. }
  assert (∀ v, v ∈ requested st ++ [u] → v ∈ seen st ∪ {[u]}) as Hseen'.
  { intros v [Hv| ->%list_elem_of_singleton]%elem_of_app.
    - apply elem_of_union. left. by apply Hseen.
    - apply elem_of_union. right. by apply elem_of_singleton. }
  assert (url <$> pages st `sublist_of` requested st ++ [u]) as Hsub'.
  { by apply sublist_inserts_r. }
  destruct (requests_get W (requested st) u) as [|e|status html].
  - by apply IH.
  - done.
  - destruct (decide (400 ≤ status)%Z); [by apply IH|].
    cbv zeta.
    destruct (enqueue_links _ _ _ _ _) as [queue''|e] eqn:Henq; [|done].
    apply IH; simpl; [done|done| |rewrite length_app; simpl; lia].
    rewrite fmap_app. simpl. by apply sublist_app.
Qed.

Lemma crawl_from_no_revisit (W : Web) (start_url : string) (queue : list string)
    (max_pages max_links_per_page : nat) (out_pages : list PageContent)
    (out_requested : list string) :
  crawl_from W start_url queue max_pages max_links_per_page
    = Some (Ok (out_pages, out_requested)) →
  NoDup out_requested ∧
  url <$> out_pages `sublist_of` out_requested ∧
  length out_pages ≤ max_pages.
Proof.
  unfold crawl_from. apply crawl_loop_no_revisit; simpl.
  - constructor.
  - by intros u ?%elem_of_nil.
  - constructor.
  - lia.
Qed.

(** X2. A crawl returns at most [max_pages] pages, requests no URL twice,
    and its pages are pages of distinct requested URLs, in the order of
    the requests; this holds for both crawlers. *)
Theorem crawl_no_revisit (W : Web) (start_url : string)
    (max_pages max_links_per_page : nat) :
  (∀ out_pages out_requested,
     Analyze.crawl_site W start_url max_pages max_links_per_page
       = Some (Ok (out_pages, out_requested)) →
     length out_pages ≤ max_pages ∧ NoDup out_requested ∧
     NoDup (url <$> out_pages) ∧
     url <$> out_pages `sublist_of` out_requested) ∧
  (∀ out_pages out_requested,
     Backend.crawl_site W start_url max_pages max_links_per_page
       = Some (Ok (out_pages, out_requested)) →
     length out_pages ≤ max_pages ∧ NoDup out_requested ∧
     NoDup (url <$> out_pages) ∧
     url <$> out_pages `sublist_of` out_requested).
Proof.
  split; intros ps rs (Hnd & Hsub & Hlen)%crawl_from_no_revisit;
    (split; [done|]); (split; [done|]); (split; [|done]);
    by eapply sublist_NoDup.
Qed.

(** X2 on the site of two pages, whose first page links to the second
    twice. *)
Lemma crawl_no_revisit_witness :
  ∃ ps rs,
    Analyze.crawl_site Fixtures.two_page_web "https://shop.example/" 15 50
      = Some (Ok (ps, rs)) ∧
    rs = ["https://shop.example/"; "https://shop.example/pricing"] ∧
    NoDup (url <$> ps).
Proof.
  destruct (crawl_no_revisit Fixtures.two_page_web "https://shop.example/" 15 50)
    as [H _].
  destruct (Analyze.crawl_site _ _ _ _) as [[[ps rs]|]|] eqn:E;
    try (vm_compute in E; discriminate).
  exists ps, rs. split; [done|].
  destruct (H ps rs eq_refl) as (_ & _ & Hnd & _). split; [|done].
  vm_compute in E. by injection E as <- <-.
Defined.

End CrawlBoundFacts.

(** ** Text normalisation *)

Module NormalizeFacts.
Import Text StringFacts ChunkFacts.

Local Abbreviation nonspace := (λ c : ascii, negb (isspace c)).

Lemma join_cons_char (sep : string) (a : ascii) (r : string) (rs : list string) :
  join sep (String a r :: rs) = String a (join sep (r :: rs)).
Proof. by destruct rs. Qed.

Lemma join_runs_nonempty (p : ascii → bool) (sep : string) (ws : list string) :
  Forall (is_run p) ws → ws ≠ [] → join sep ws ≠ EmptyString.
Proof.
  intros Hws Hne. destruct ws as [|w ws]; [done|].
  apply Forall_cons in Hws as [[Hw _] _].
  destruct w as [|a w]; [done|]. by rewrite join_cons_char.
Qed.

Lemma starts_with_runs (p : ascii → bool) (s : string) :
  starts_with p s = true → runs p s ≠ [].
Proof.
  destruct s as [|a s]; [done|]. simpl. intros ->.
  destruct (starts_with p s); [by destruct (runs p s)|done].
Qed.

(** The text without white space at its end and with its other runs of
    white space collapsed: the words joined by single spaces, after one
    space when the text starts with white space. *)
Lemma rstrip_collapse (t : string) :
  rstrip_by isspace (collapse_spaces t) =
    match split t with
    | [] => EmptyString
    | ws => (if starts_with isspace t then " " else EmptyString) +:+ join " " ws
    end.
Proof.
  unfold split. induction t as [|a t IH]; [done|].
  pose proof (runs_are_runs nonspace t) as Hruns.
  rewrite runs_cons. simpl collapse_spaces. simpl starts_with.
  destruct (isspace a) eqn:Ha; simpl negb; cbv iota.
  - destruct (starts_with isspace t) eqn:Ht.
    + rewrite IH. done.
    + rewrite UrlFacts.rstrip_by_cons, IH.
      destruct (runs nonspace t) as [|w ws] eqn:Hw; [done|].
      rewrite str_app_nil_l.
      destruct (join " " (w :: ws)) eqn:Hj; [|done].
      by apply (join_runs_nonempty nonspace) in Hj.
  - rewrite UrlFacts.rstrip_by_cons, IH, Ha.
    destruct (starts_with nonspace t) eqn:Hp.
    + assert (starts_with isspace t = false) as ->.
      { destruct t; [done|]. simpl in *. by destruct (isspace _). }
      pose proof (starts_with_runs _ _ Hp) as Hne.
      destruct (runs nonspace t) as [|w ws]; [done|].
      rewrite !str_app_nil_l, join_cons_char.
      destruct (join " " (w :: ws)) eqn:Hj; [|done].
      by apply (join_runs_nonempty nonspace) in Hj.
    + destruct (runs nonspace t) as [|w ws] eqn:Hw; [done|].
      assert (starts_with isspace t = true) as ->.
      { destruct t; [done|]. simpl in *. by destruct (isspace _). }
      rewrite str_app_nil_l.
      change (join " " (String a EmptyString :: w :: ws))
        with (String a (" " +:+ join " " (w :: ws))).
      destruct (" " +:+ join " " (w :: ws)) eqn:Hj; done.
Qed.

Lemma lstrip_collapse_space (a : ascii) (t : string) :
  isspace a = true →
  lstrip_by isspace (collapse_spaces (String a t))
    = lstrip_by isspace (collapse_spaces t).
Proof. intros Ha. simpl. rewrite Ha. by destruct (starts_with isspace t). Qed.

Lemma normalize_text_join (text : string) :
  _normalize_text text = join " " (split text).
Proof.
  unfold _normalize_text, strip.
  induction text as [|a t IH]; [done|].
  destruct (isspace a) eqn:Ha.
  - rewrite lstrip_collapse_space, IH by done.
    unfold split. by rewrite runs_cons, Ha.
  - assert (lstrip_by isspace (collapse_spaces (String a t))
            = collapse_spaces (String a t)) as ->.
    { simpl. rewrite Ha. simpl. by rewrite Ha. }
    rewrite rstrip_collapse. simpl starts_with. rewrite Ha.
    destruct (split (String a t)) eqn:Hs; [|by rewrite str_app_nil_l].
    exfalso. revert Hs. apply starts_with_runs. simpl. by rewrite Ha.
Qed.

(** X3. [_normalize_text] returns the words of the text joined by single
    spaces; it keeps the words, and normalising twice is normalising
    once. *)
Theorem normalize_text_words (text : string) :
  _normalize_text text = join " " (split text) ∧
  split (_normalize_text text) = split text ∧
  _normalize_text (_normalize_text text) = _normalize_text text.
Proof.
  assert (split (_normalize_text text) = split text) as Hwords.
  { rewrite normalize_text_join. apply split_join, split_words. }
  split; [apply normalize_text_join|]. split; [done|].
  by rewrite (normalize_text_join (_normalize_text text)), Hwords,
    normalize_text_join.
Qed.

Example normalize_text_page :
  _normalize_text "  Opening   hours:
    9 to 5 " = "Opening hours: 9 to 5".
Proof. reflexivity. Qed.

End NormalizeFacts.

(** ** Chunker: the shape of the chunks *)

Module ChunkShapeFacts.
Import Text Chunker Props StringFacts ChunkFacts.

Lemma ceil_div_0 (b : nat) : ceil_div 0 b = 0.
Proof.
  unfold ceil_div. destruct b as [|b]; [done|].
  apply Nat.div_small. lia.
Qed.

Lemma ceil_div_step (a b : nat) :
  0 < a → 0 < b → ceil_div a b = S (ceil_div (a - b) b).
Proof.
  intros Ha Hb. unfold ceil_div.
  destruct (decide (b ≤ a)) as [Hle|Hlt].
  - replace (a + b - 1) with ((a - b + b - 1) + 1 * b) by lia.
    rewrite Nat.div_add by lia. lia.
  - replace (a - b) with 0 by lia.
    replace (a + b - 1) with ((a - 1) + 1 * b) by lia.
    rewrite Nat.div_add by lia.
    rewrite !Nat.div_small by lia. done.
Qed.

(** Below the number of windows after the first, a whole window fits. *)
Lemma below_ceil_div (a b i : nat) : 0 < b → i < ceil_div a b → i * b < a.
Proof.
  intros Hb Hi. unfold ceil_div in Hi.
  pose proof (Nat.Div0.mul_div_le (a + b - 1) b) as Hle.
  destruct (decide (a = 0)) as [->|Ha].
  { rewrite Nat.div_small in Hi by lia. lia. }
  remember ((a + b - 1) / b) as k eqn:Hk. clear Hk.
  assert (S i * b ≤ b * k) as Hmul.
  { rewrite (Nat.mul_comm b k). apply Nat.mul_le_mono_r. lia. }
  lia.
Qed.

Lemma slice_stop {A} (l : list A) (start chunk_size : nat) :
  slice l start (length l `min` (start + chunk_size))
    = slice l start (start + chunk_size).
Proof.
  unfold slice. destruct (decide (start + chunk_size ≤ length l)).
  - by replace (length l `min` (start + chunk_size)) with (start + chunk_size) by lia.
  - rewrite !take_ge; [done|rewrite length_drop; lia..].
Qed.

Lemma fmap_seq_S {A} (f : nat → A) (n : nat) :
  f <$> seq 0 (S n) = f 0 :: ((λ j, f (S j)) <$> seq 0 n).
Proof.
  change (seq 0 (S n)) with (0 :: seq 1 n).
  rewrite fmap_cons, <- (fmap_S_seq 0), <- list_fmap_compose. done.
Qed.

(** From every start inside the words, the loop returns the windows from
    there on. *)
Lemma chunk_loop_windows (words : list string) (chunk_size overlap : nat) :
  overlap < chunk_size →
  ∀ fuel start,
    start < length words →
    length words - start < fuel →
    chunk_loop fuel words chunk_size overlap start =
      Some ((λ j, join " " (slice words (start + j * (chunk_size - overlap))
                              (start + j * (chunk_size - overlap) + chunk_size)))
              <$> seq 0 (S (ceil_div (length words - start - chunk_size)
                                     (chunk_size - overlap)))).
Proof.
  intros Hov. induction fuel as [|fuel IH]; intros start Hstart Hfuel; [lia|].
  rewrite chunk_loop_S. cbv zeta.
  destruct (decide (start < length words)); [|lia].
  rewrite slice_stop.
  destruct (decide (length words ≤ length words `min` (start + chunk_size)))
    as [Hlast|Hmore].
  - replace (length words - start - chunk_size) with 0 by lia.
    rewrite ceil_div_0. simpl. by rewrite Nat.add_0_r.
  - replace (0 `max` (length words `min` (start + chunk_size) - overlap))
      with (start + (chunk_size - overlap)) by lia.
    rewrite IH by lia.
    rewrite (ceil_div_step (length words - start - chunk_size)) by lia.
    rewrite (fmap_seq_S _ (S _)). cbn [fmap option_fmap option_map].
    rewrite Nat.mul_0_l, Nat.add_0_r. do 2 f_equal.
    replace (length words - (start + (chunk_size - overlap)) - chunk_size)
      with (length words - start - chunk_size - (chunk_size - overlap)) by lia.
    apply list_fmap_ext. intros _ j _.
    remember (chunk_size - overlap) as step eqn:Hstep.
    replace (start + step + j * step) with (start + S j * step) by lia.
    done.
Qed.

Lemma chunk_text_is_windows (text : string) (chunk_size overlap : nat) :
  overlap < chunk_size →
  _chunk_text text chunk_size overlap
    = Some (windows (split text) chunk_size overlap).
Proof.
  intros Hov. unfold _chunk_text, windows, window.
  destruct text as [|a text]; [done|].
  set (words := split (String a text)). cbv zeta.
  destruct (decide (0 < length words)) as [Hpos|Hzero].
  - rewrite chunk_loop_windows by lia.
    unfold window_count. destruct (length words) as [|n] eqn:Hn; [lia|].
    rewrite Nat.sub_0_r. done.
  - rewrite chunk_loop_S. destruct (decide (0 < length words)); [lia|].
    by replace (length words) with 0 by lia.
Qed.

(** X4. With an overlap below the chunk size, [_chunk_text] returns, for
    every text, the windows of [chunk_size] words that start every
    [chunk_size - overlap] words, each joined by single spaces: none for a
    text without words, and otherwise one more than the words beyond the
    first window divided by the step, rounded up; with the sizes that the
    engine uses, that is 1 up to 800 words and the words beyond the first
    120 over 680, rounded up, from there on. *)
Theorem chunk_text_windows (text : string) (chunk_size overlap : nat) :
  overlap < chunk_size →
  ∃ chunks,
    _chunk_text text chunk_size overlap = Some chunks ∧
    chunks = windows (split text) chunk_size overlap ∧
    length chunks = window_count chunk_size overlap (length (split text)) ∧
    (0 < length (split text) →
     window_count 800 120 (length (split text))
       = 1 `max` ceil_div (length (split text) - 120) 680).
Proof.
  intros Hov. eexists. split; [by apply chunk_text_is_windows|].
  split; [done|]. split.
  - unfold windows. by rewrite length_fmap, length_seq.
  - intros Hpos. unfold window_count.
    destruct (length (split text)) as [|n] eqn:Hn; [lia|]. cbv beta iota.
    destruct (decide (S n ≤ 800)) as [Hle|Hgt].
    + replace (S n - 800) with 0 by lia. rewrite ceil_div_0.
      assert (ceil_div (S n - 120) 680 < 2) as Hone; [|lia].
      unfold ceil_div. apply Nat.Div0.div_lt_upper_bound. lia.
    + change (800 - 120) with 680.
      rewrite (ceil_div_step (S n - 120) 680) by lia.
      replace (S n - 120 - 680) with (S n - 800) by lia. lia.
Qed.

(** X4 on windows of three words that share one. *)
Lemma chunk_text_windows_witness :
  ∃ chunks,
    _chunk_text "we  offer consulting and design services today" 3 1
      = Some chunks ∧
    chunks = ["we offer consulting"; "consulting and design";
              "design services today"] ∧
    length chunks = 3.
Proof.
  destruct (chunk_text_windows
              "we  offer consulting and design services today" 3 1)
    as (chunks & H1 & H2 & H3 & _); [lia|].
  exists chunks. split; [exact H1|]. split; [|by rewrite H3].
  by rewrite H2.
Defined.

Lemma windows_lookup (words : list string) (chunk_size overlap i : nat)
    (c : string) :
  windows words chunk_size overlap !! i = Some c →
  c = window words chunk_size overlap i ∧
  i < window_count chunk_size overlap (length words).
Proof.
  unfold windows. rewrite list_lookup_fmap.
  destruct (seq 0 _ !! i) as [k|] eqn:Hk; [|done].
  apply lookup_seq in Hk as [-> Hi]. simpl. by intros [= <-].
Qed.

(** X5. With an overlap below the chunk size, every chunk has at most
    [chunk_size] words, every chunk but the last has exactly [chunk_size],
    and every chunk after the first starts with the last [overlap] words
    of the chunk before it. *)
Theorem chunk_text_shape (text : string) (chunk_size overlap : nat)
    (chunks : list string) :
  overlap < chunk_size →
  _chunk_text text chunk_size overlap = Some chunks →
  ∀ i c, chunks !! i = Some c →
    length (split c) ≤ chunk_size ∧
    ∀ c', chunks !! S i = Some c' →
      length (split c) = chunk_size ∧
      take overlap (split c') = drop (chunk_size - overlap) (split c).
Proof.
  intros Hov. rewrite chunk_text_is_windows by done. intros [= <-] i c Hc.
  pose proof (split_words text) as Hws. set (words := split text) in *.
  apply windows_lookup in Hc as [-> _]. unfold window.
  rewrite split_slice by done. split.
  { unfold slice. rewrite length_take. lia. }
  intros c' [-> Hnext]%windows_lookup. unfold window.
  rewrite split_slice by done.
  unfold window_count in Hnext.
  destruct (length words) as [|n] eqn:Hn; [lia|]. rewrite <- Hn in *.
  apply Nat.succ_lt_mono, below_ceil_div in Hnext; [|lia].
  remember (chunk_size - overlap) as step eqn:Hstep.
  remember (i * step) as start eqn:Hstart.
  replace (S i * step) with (start + step) by lia.
  unfold slice. split.
  - rewrite length_take, length_drop. lia.
  - replace (start + chunk_size - start) with (step + overlap) by lia.
    replace (start + step + chunk_size - (start + step)) with chunk_size by lia.
    rewrite take_take, <- take_drop_commute, drop_drop.
    by replace (overlap `min` chunk_size) with overlap by lia.
Qed.

(** X5 on windows of three words that share one: the second chunk starts
    with the last word of the first. *)
Lemma chunk_text_shape_witness :
  length (split "we offer consulting") = 3 ∧
  take 1 (split "consulting and design") = drop (3 - 1) (split "we offer consulting").
Proof.
  refine (proj2 (chunk_text_shape
    "we  offer consulting and design services today" 3 1
    ["we offer consulting"; "consulting and design"; "design services today"]
    _ _ 0 "we offer consulting" _) "consulting and design" _);
    [lia|reflexivity..].
Defined.

(** An overlap that is not below the chunk size never lets the loop
    advance past a start that leaves more than one chunk. *)
Lemma chunk_loop_stuck (words : list string) (chunk_size overlap : nat) :
  chunk_size ≤ overlap →
  ∀ fuel start,
    start + chunk_size < length words →
    chunk_loop fuel words chunk_size overlap start = None.
Proof.
  intros Hov. induction fuel as [|fuel IH]; intros start Hstart; [done|].
  rewrite chunk_loop_S. cbv zeta.
  destruct (decide (start < length words)); [|lia].
  destruct (decide (length words ≤ length words `min` (start + chunk_size)));
    [lia|].
  rewrite IH; [done|lia].
Qed.

(** X6. With an overlap that is not below the chunk size, the loop of
    [_chunk_text] does not finish on a text of more than [chunk_size]
    words: no number of iterations gives a result. *)
Theorem chunk_text_never_returns (text : string) (chunk_size overlap : nat) :
  chunk_size ≤ overlap →
  chunk_size < length (split text) →
  (∀ fuel, chunk_loop fuel (split text) chunk_size overlap 0 = None) ∧
  _chunk_text text chunk_size overlap = None.
Proof.
  intros Hov Hlen.
  assert (∀ fuel, chunk_loop fuel (split text) chunk_size overlap 0 = None) as Hloop.
  { intros fuel. apply chunk_loop_stuck; [done|]. simpl. lia. }
  split; [done|]. unfold _chunk_text.
  destruct text as [|a text]; [simpl in Hlen; lia|]. apply Hloop.
Qed.

(** X6 with chunks of two words that overlap by two. *)
Lemma chunk_text_never_returns_witness :
  _chunk_text "what are your business hours" 2 2 = None.
Proof.
  apply (chunk_text_never_returns "what are your business hours" 2 2);
    [lia|vm_compute; lia].
Defined.

End ChunkShapeFacts.

(** ** Retriever: when a chunk scores, and which chunks are left out *)

Module RelevanceFacts.
Import Text Retriever Spec QFacts ScoreFacts SelectFacts.

Lemma occurrences_pos (t : string) (tokens : list string) :
  0 < occurrences t tokens ↔ t ∈ tokens.
Proof.
  unfold occurrences. induction tokens as [|x tokens IH].
  - split; [simpl; lia|by intros ?%elem_of_nil].
  - rewrite filter_cons, elem_of_cons.
    destruct (decide (x = t)) as [->|Hne]; simpl.
    + split; [by left|lia].
    + rewrite IH. split; [by right|]. by intros [->|].
Qed.

Lemma sum_occurrences_pos (qs cs : list string) :
  0 < sum_list ((λ t, occurrences t cs) <$> qs) ↔ ∃ t, t ∈ qs ∧ t ∈ cs.
Proof.
  induction qs as [|q qs IH].
  - split; [simpl; lia|]. by intros (t & ?%elem_of_nil & _).
  - rewrite fmap_cons.
    set (rest := sum_list ((λ t, occurrences t cs) <$> qs)) in *.
    change (0 < occurrences q cs + rest ↔ ∃ t, t ∈ q :: qs ∧ t ∈ cs).
    split.
    + intros Hpos. destruct (decide (0 < occurrences q cs)) as [Hq|Hq].
      * exists q. split; [left|by apply occurrences_pos].
      * destruct (proj1 IH) as (t & Ht & Hc); [lia|].
        exists t. split; [by right|done].
    + intros (t & [->|Ht]%elem_of_cons & Hc).
      * apply occurrences_pos in Hc. lia.
      * assert (0 < rest); [|lia]. apply IH. by exists t.
Qed.

Lemma true_div_pos_iff (a b : nat) : (0 < true_div a b)%Q ↔ 0 < a.
Proof. unfold true_div, Qlt. simpl. lia. Qed.

(** X7. The relevance score is never negative, and it is positive exactly
    when some token of the query is a token of the chunk. *)
Theorem score_overlap_positive (query chunk : string) :
  (0 <= _score_overlap query chunk)%Q ∧
  ((0 < _score_overlap query chunk)%Q ↔
     ∃ t, t ∈ _tokenize query ∧ t ∈ _tokenize chunk).
Proof.
  destruct (decide (_tokenize query = [])) as [Hq|Hq].
  - unfold _score_overlap. rewrite Hq. split; [done|]. split; [done|].
    by intros (t & ?%elem_of_nil & _).
  - rewrite score_counts by done. split.
    + unfold true_div, Qle. simpl. lia.
    + by rewrite true_div_pos_iff, sum_occurrences_pos.
Qed.

Example score_overlap_shared_token :
  (0 < _score_overlap "Refund policy?" "No refund after 30 days.")%Q ∧
  (_score_overlap "Refund policy?" "Refunds after 30 days." == 0)%Q.
Proof. split; reflexivity. Qed.





(** X9. Every chunk that the selection leaves out scores at most as much
    as every chunk that it returns: the returned chunks and the chunks
    left out are the scored chunks, and no chunk left out scores above a
    returned one. *)
Theorem select_top_chunks_best (query : string)
    (chunks : list (string * string)) (k : nat) :
  ∃ left_out,
    score_all query chunks ≡ₚ _select_top_chunks query chunks k ++ left_out ∧
    ∀ x y, x ∈ _select_top_chunks query chunks k → y ∈ left_out →
      (score_of y <= score_of x)%Q.
Proof.
  unfold _select_top_chunks. fold (score_all query chunks).
  set (l := score_all query chunks). simpl.
  exists (drop k (sort_desc l)). split.
  - by rewrite take_drop, sort_desc_perm.
  - intros x y Hx Hy.
    pose proof (sort_desc_sorted l) as Hsorted.
    rewrite <- (take_drop k (sort_desc l)) in Hsorted.
    exact (StronglySorted_app_1_elem_of _ _ _ _ _ Hsorted Hx Hy).
Qed.

End RelevanceFacts.

(** ** Aggregator: the completeness of an answer *)

Module CoverageFacts.
Import Text Retriever Analyze Spec RateFacts.

Lemma true_div_one (a b : nat) : 0 < b → (true_div a b == 1)%Q ↔ a = b.
Proof.
  intros Hb. unfold true_div, Qeq. simpl.
  pose proof (positive_nat_Z (Pos.of_nat b)) as Hp.
  rewrite Nat2Pos.id in Hp by lia. lia.
Qed.

Lemma true_div_zero_iff (a b : nat) : (true_div a b == 0)%Q ↔ a = 0.
Proof. unfold true_div, Qeq. simpl. lia. Qed.

(** X10. For a question that has tokens, the completeness score of an
    answer is 1 exactly when every token of the question is a token of
    the answer, and 0 exactly when none is; for a question without
    tokens it is 0. *)
Theorem completeness_score_extremes (query answer : string) :
  (_tokenize query = [] → _completeness_score query answer = 0%Q) ∧
  (_tokenize query ≠ [] →
     ((_completeness_score query answer == 1)%Q ↔
        ∀ t, t ∈ _tokenize query → t ∈ _tokenize answer) ∧
     ((_completeness_score query answer == 0)%Q ↔
        ∀ t, t ∈ _tokenize query → t ∉ _tokenize answer)).
Proof.
  unfold _completeness_score.
  set (qs := list_to_set (_tokenize query) : gset string).
  set (ans := list_to_set (_tokenize answer) : gset string).
  split.
  - intros Hq. subst qs. rewrite Hq. done.
  - intros Hq.
    assert (qs ≠ ∅) as Hne.
    { destruct (_tokenize query) as [|t ts] eqn:E; [done|].
      intros Hempty. apply (not_elem_of_empty (C:=gset string) t).
      rewrite <- Hempty. subst qs. apply elem_of_list_to_set. left. }
    destruct (decide (qs = ∅)) as [|_]; [done|].
    assert (0 < size qs) as Hsize.
    { destruct (decide (size qs = 0)) as [H0|]; [|lia].
      by apply size_empty_iff, leibniz_equiv in H0. }
    split.
    + rewrite true_div_one by done. split.
      * intros Heq t Ht.
        assert (qs ∩ ans ≡ qs) as Hsub.
        { apply set_subseteq_size_equiv; [apply intersection_subseteq_l|lia]. }
        assert (t ∈ qs ∩ ans) as Hin
          by (apply Hsub; subst qs; by apply elem_of_list_to_set).
        apply elem_of_intersection in Hin as [_ Hin].
        subst ans. by apply elem_of_list_to_set in Hin.
      * intros Hall. f_equal. apply leibniz_equiv.
        apply set_equiv. intros t. rewrite elem_of_intersection.
        split; [by intros [? _]|]. intros Ht. split; [done|].
        subst qs ans. apply elem_of_list_to_set.
        apply Hall. by apply elem_of_list_to_set in Ht.
    + rewrite true_div_zero_iff, size_empty_iff. split.
      * intros Hempty t Ht Ha.
        apply (not_elem_of_empty (C:=gset string) t). rewrite <- Hempty.
        subst qs ans. apply elem_of_intersection.
        split; by apply elem_of_list_to_set.
      * intros Hnone t. split; [|by intros ?%not_elem_of_empty].
        intros [Hq' Ha]%elem_of_intersection. subst qs ans.
        apply elem_of_list_to_set in Hq', Ha. by destruct (Hnone t).
Qed.

(** X10 on an answer that repeats every word of the question. *)
Lemma completeness_score_extremes_witness :
  (_completeness_score "Where are you located?"
     "You asked where we are located: Berlin." == 1)%Q.
Proof.
  apply (proj2 (completeness_score_extremes "Where are you located?"
           "You asked where we are located: Berlin.")).
  - vm_compute. discriminate.
  - intros t Ht. vm_compute in Ht. vm_compute.
    repeat (apply elem_of_cons in Ht as [->|Ht];
            [repeat ((by left) || right)|]).
    by apply elem_of_nil in Ht.
Defined.

End CoverageFacts.

(** ** Answer synthesizer: what an answer cites, and what it costs *)

Module AnswerFacts.
Import Text Retriever Effects Synthesizer Report Spec Props.
Import QFacts CitationFacts SelectFacts.

Lemma context_blocks_sources (top_chunks : list scored) :
  ∀ idx, (context_blocks idx top_chunks).2 = (λ x : scored, x.1.1) <$> top_chunks.
Proof.
  induction top_chunks as [|[[u c] s] rest IH]; intros idx; [done|]. simpl.
  specialize (IH (S idx)).
  destruct (context_blocks (S idx) rest) as [blocks sources].
  simpl in *. by rewrite IH.
Qed.

Lemma build_context_sources (top_chunks : list scored) :
  (_build_context top_chunks).2 = (λ x : scored, x.1.1) <$> top_chunks.
Proof.
  unfold _build_context. pose proof (context_blocks_sources top_chunks 1) as H.
  by destruct (context_blocks 1 top_chunks).
Qed.

Lemma sorted_NoDup (s : gset string) : NoDup (sorted s).
Proof.
  unfold sorted. rewrite merge_sort_Permutation. apply NoDup_elements.
Qed.

(** The citations are pages of the sources, one per page at most. *)
Lemma extract_citations_sources (answer : string) (sources : list string) :
  Forall (λ c, url c ∈ sources ∧ section c = "page")
         (_extract_citations answer sources) ∧
  length (_extract_citations answer sources) ≤ length sources.
Proof.
  unfold _extract_citations.
  assert (∀ u, u ∈ sorted (cited_urls answer sources) → u ∈ sources) as Hsub.
  { intros u (n & _ & _ & Hu)%elem_of_sorted%elem_of_cited_urls.
    by eapply list_elem_of_lookup_2. }
  split.
  - apply Forall_fmap, Forall_forall. intros u Hu. simpl. split; [by apply Hsub|done].
  - rewrite length_fmap. apply submseteq_length, NoDup_submseteq; [|done].
    apply sorted_NoDup.
Qed.

(** The synthesizer past the gate: one request, and the reply decides. *)
Lemma build_answer_past_gate (L : Completion) (q : string)
    (first : scored) (rest : list scored) (model : string)
    (log : list completion_call) :
  Qltb (score_of first) relevance_threshold = false →
  _build_answer L q (first :: rest) model log =
    match truthy_key (OPENAI_API_KEY L) with
    | None => (Raise missing_credential, log)
    | Some api_key =>
        let call := {|
          call_api_key := api_key;
          call_model := model;
          call_messages :=
            [("system", system_msg);
             ("user",
              "Question: " +:+ q +:+ newline +:+ newline +:+ "Sources:"
                +:+ newline +:+ (_build_context (first :: rest)).1)];
          call_temperature := 2 # 10;
          call_max_tokens := None |} in
        match create L log call with
        | Ok content =>
            (Ok (strip content,
                 _extract_citations (strip content)
                   (_build_context (first :: rest)).2,
                 negb (contains "NOT FOUND" (upper (strip content)))),
             log ++ [call])
        | Raise e => (Raise e, log ++ [call])
        end
    end.
Proof.
  intros Hgate. unfold _build_answer. rewrite Hgate.
  destruct (_build_context (first :: rest)) as [context sources].
  unfold bind, _call_openai_answer.
  destruct (truthy_key (OPENAI_API_KEY L)) as [api_key|]; [|done].
  simpl. by destruct (create L log _).
Qed.

(** X11. When the synthesizer returns, every citation is the page of one
    of the chunks it was given, there are at most as many citations as
    chunks, the answer counts as answerable exactly when its upper case
    does not hold "NOT FOUND", and either nothing was sent and nothing is
    cited, or one request was sent, for the given model, and the answer is
    its reply without the white space around it. *)
Theorem build_answer_cites_context (L : Completion) (q : string)
    (top_chunks : list scored) (model : string)
    (log log' : list completion_call) (ans : string) (cits : list citation)
    (is_answerable : bool) :
  _build_answer L q top_chunks model log = (Ok (ans, cits, is_answerable), log') →
  Forall (λ c, url c ∈ (λ x : scored, x.1.1) <$> top_chunks ∧ section c = "page")
         cits ∧
  length cits ≤ length top_chunks ∧
  is_answerable = negb (contains "NOT FOUND" (upper ans)) ∧
  ((log' = log ∧ cits = [] ∧ is_answerable = false) ∨
   ∃ call content,
     log' = log ++ [call] ∧ call_model call = model ∧
     create L log call = Ok content ∧ ans = strip content).
Proof.
  destruct top_chunks as [|first rest].
  { intros [= <- <- <- <-]. split; [constructor|]. split; [done|].
    split; [done|]. by left. }
  destruct (Qltb (score_of first) relevance_threshold) eqn:Hgate.
  { unfold _build_answer. rewrite Hgate. intros [= <- <- <- <-].
    split; [constructor|]. split; [simpl; lia|]. split; [done|]. by left. }
  rewrite build_answer_past_gate by done.
  destruct (truthy_key (OPENAI_API_KEY L)) as [api_key|]; [|done]. cbv zeta.
  destruct (create L log _) as [content|e] eqn:Hcreate; [|done].
  intros [= <- <- <- <-].
  destruct (extract_citations_sources (strip content)
              (_build_context (first :: rest)).2) as [Hall Hlen].
  rewrite build_context_sources in Hall, Hlen.
  rewrite length_fmap in Hlen. rewrite build_context_sources.
  split; [done|]. split; [done|]. split; [done|].
  right. eexists _, content. by repeat split.
Qed.

(** X11 on a reply that cites the first of two chunks. *)
Lemma build_answer_cites_context_witness :
  _build_answer Fixtures.stub_service "What services do you offer?"
    [("https://a.example/", "we offer consulting", 2 # 5);
     ("https://a.example/b", "contact", 0 # 1)] "gpt-4o-mini" []
    = (Ok ("Consulting [1].", [{| url := "https://a.example/"; section := "page" |}],
           true),
       [Props.request_for "key" "gpt-4o-mini" [("https://a.example/", "we offer consulting");
          ("https://a.example/b", "contact")] "What services do you offer?"]) ∧
  length [{| url := "https://a.example/"; section := "page" |}] ≤ 2.
Proof.
  assert (_build_answer Fixtures.stub_service "What services do you offer?"
    [("https://a.example/", "we offer consulting", 2 # 5);
     ("https://a.example/b", "contact", 0 # 1)] "gpt-4o-mini" []
    = (Ok ("Consulting [1].", [{| url := "https://a.example/"; section := "page" |}],
           true),
       [Props.request_for "key" "gpt-4o-mini" [("https://a.example/", "we offer consulting");
          ("https://a.example/b", "contact")] "What services do you offer?"])) as H
    by (vm_compute; reflexivity).
  split; [exact H|].
  exact (proj1 (proj2 (build_answer_cites_context _ _ _ _ _ _ _ _ _ H))).
Defined.

End AnswerFacts.

(** ** The per-question engine: counters, requests and failures *)

Module RunFacts.
Import Text Chunker Retriever Effects Synthesizer Url Crawler Report Analyze.
Import Spec Props QFacts RateFacts AnalyzeFacts AnswerFacts.

Lemma top_chunks_length (q : string) (chunks : list (string * string)) :
  length (_select_top_chunks q chunks 3) ≤ 3.
Proof. unfold _select_top_chunks. simpl. rewrite length_take. lia. Qed.

(** A question that passes the gate costs one request, which the
    question and the chunks determine. *)
Lemma build_answer_request (L : Completion) (q : string)
    (chunks : list (string * string)) (model : string)
    (log : list completion_call) (api_key : string) :
  truthy_key (OPENAI_API_KEY L) = Some api_key →
  gated q chunks = false →
  _build_answer L q (_select_top_chunks q chunks 3) model log =
    match create L log (request_for api_key model chunks q) with
    | Ok content =>
        (Ok (strip content,
             _extract_citations (strip content)
               (_build_context (_select_top_chunks q chunks 3)).2,
             negb (contains "NOT FOUND" (upper (strip content)))),
         log ++ [request_for api_key model chunks q])
    | Raise e => (Raise e, log ++ [request_for api_key model chunks q])
    end.
Proof.
  intros Hkey Hg. unfold gated in Hg. unfold request_for.
  destruct (_select_top_chunks q chunks 3) as [|first rest]; [done|].
  rewrite build_answer_past_gate by done. by rewrite Hkey.
Qed.

Lemma ungated_cons (chunks : list (string * string)) (q : string)
    (qs : list string) :
  ungated chunks (q :: qs) =
    if gated q chunks then ungated chunks qs else q :: ungated chunks qs.
Proof.
  unfold ungated. rewrite filter_cons.
  destruct (gated q chunks); by destruct (decide _).
Qed.

(** With a service that is down, the loop ends at the first question that
    passes the gate, after the one request for it. *)
Lemma for_each_failing (L : Completion) (model : string)
    (chunks : list (string * string)) (api_key : string) (e : exn) :
  truthy_key (OPENAI_API_KEY L) = Some api_key →
  (∀ log call, create L log call = Raise e) →
  ∀ qs t log,
    for_each (query_step L model chunks) t qs log =
      match ungated chunks qs with
      | [] => (Ok (foldl gated_step t qs), log)
      | q :: _ => (Raise e, log ++ [request_for api_key model chunks q])
      end.
Proof.
  intros Hkey Hdown. induction qs as [|q qs IH]; intros t log; [done|].
  rewrite ungated_cons. simpl. unfold bind at 1.
  destruct (gated q chunks) eqn:Hg.
  - rewrite query_step_gated by done. apply IH.
  - unfold query_step, bind.
    rewrite (build_answer_request _ _ _ _ _ api_key), Hdown by done. done.
Qed.

(** X12. When every request to the completion service raises, a run of
    the per-question engine whose questions all stop at the relevance
    gate returns the report of the gated questions and sends nothing;
    otherwise it ends with the exception of the service, after the one
    request for the first question that passes the gate, and without a
    report. *)
Theorem failing_service_aborts (W : Web) (L : Completion) (site model : string)
    (queries : option (list string)) (pages : list PageContent)
    (requested : list string) (chunks : list (string * string))
    (api_key : string) (e : exn) :
  truthy_key (OPENAI_API_KEY L) = Some api_key →
  (∀ log call, create L log call = Raise e) →
  crawl_site W site 15 50 = Some (Ok (pages, requested)) →
  index_pages pages = Some chunks →
  run_answerability_benchmark W L site queries model =
    Some match ungated chunks (queries_or_default queries) with
         | [] =>
             (Ok (make_report site pages chunks (queries_or_default queries)
                    (foldl gated_step empty_tally (queries_or_default queries))),
              [])
         | q :: _ => (Raise e, [request_for api_key model chunks q])
         end.
Proof.
  intros Hkey Hdown Hcrawl Hindex. unfold run_answerability_benchmark.
  rewrite Hcrawl, Hindex, (for_each_failing _ _ _ api_key e) by done.
  by destruct (ungated chunks _).
Qed.

(** X12 on the site of two pages: the default questions end at the first
    one, after one request. *)
Lemma failing_service_aborts_witness :
  ∃ call,
    run_answerability_benchmark Fixtures.two_page_web Examples.failing_service
      "https://shop.example/" None "gpt-4o-mini"
    = Some (Raise (OtherError "Connection error."), [call]).
Proof.
  destruct (crawl_site Fixtures.two_page_web "https://shop.example/" 15 50)
    as [[[ps rs]|]|] eqn:Hcrawl; try (vm_compute in Hcrawl; discriminate).
  destruct (index_pages ps) as [chunks|] eqn:Hindex;
    [|by destruct (index_pages_total ps) as [? ?]; congruence].
  rewrite (failing_service_aborts Fixtures.two_page_web Examples.failing_service
             "https://shop.example/" "gpt-4o-mini" None ps rs chunks "sk-test"
             (OtherError "Connection error.") eq_refl (λ _ _, eq_refl)
             Hcrawl Hindex).
  vm_compute in Hcrawl. injection Hcrawl as <- <-.
  vm_compute in Hindex. injection Hindex as <-.
  eexists. vm_compute. reflexivity.
Defined.

Lemma count_if_snoc {A} (p : A → bool) (l : list A) (x : A) :
  count_if p (l ++ [x]) = count_if p l + (if p x then 1 else 0).
Proof.
  unfold count_if. rewrite filter_app, length_app, filter_cons, filter_nil.
  destruct (p x); by destruct (decide _).
Qed.

Lemma count_if_le {A} (p p' : A → bool) (l : list A) :
  (∀ x, p x = true → p' x = true) →
  count_if p l ≤ count_if p' l ∧ count_if p' l ≤ length l.
Proof.
  intros Himp. unfold count_if. induction l as [|x l [IH1 IH2]]; [done|].
  rewrite !filter_cons. specialize (Himp x).
  destruct (p x), (p' x); repeat destruct (decide _); simpl; try lia;
    try congruence.
Qed.

(** One question more: the counters still count the results, and the
    requests are those of the questions that passed the gate. *)
Lemma query_step_counts (L : Completion) (model : string)
    (chunks : list (string * string)) (t t' : tally) (q : string)
    (log log' : list completion_call) :
  counts_inv t →
  query_step L model chunks t q log = (Ok t', log') →
  counts_inv t' ∧
  log' = log ++ (request_for (default EmptyString (truthy_key (OPENAI_API_KEY L)))
                   model chunks <$> ungated chunks [q]).
Proof.
  intros (Ha & Hc & Hh & Hall). unfold query_step, bind.
  rewrite ungated_cons.
  destruct (_build_answer L q (_select_top_chunks q chunks 3) model log)
    as [[[[ans cits] is_ans]|e] log1] eqn:Hanswer; [|done].
  intros [= <- <-].
  assert (length cits ≤ 3 ∧
          log1 = log ++ (request_for
                   (default EmptyString (truthy_key (OPENAI_API_KEY L)))
                   model chunks <$> (if gated q chunks then [] else [q])))
    as [Hcits Hlog].
  { destruct (gated q chunks) eqn:Hg.
    - rewrite build_answer_gated in Hanswer by done.
      injection Hanswer as <- <- <- <-. simpl. rewrite app_nil_r.
      split; [lia|done].
    - destruct (truthy_key (OPENAI_API_KEY L)) as [api_key|] eqn:Hkey;
        [|by rewrite build_answer_no_key in Hanswer].
      rewrite (build_answer_request _ _ _ _ _ api_key) in Hanswer by done.
      destruct (create L log _) as [content|]; [|done].
      injection Hanswer as <- <- <- <-. split; [|done].
      etrans; [apply extract_citations_sources|].
      rewrite build_context_sources, length_fmap. apply top_chunks_length. }
  split; [|by destruct (gated q chunks)].
  unfold counts_inv. simpl. rewrite !count_if_snoc, Ha, Hc, Hh.
  generalize (count_if is_answered (results t)) (count_if is_cited (results t)).
  intros n m. unfold is_cited, is_answered. simpl.
  split; [|split; [|split]].
  - by destruct is_ans.
  - destruct is_ans; [|simpl; lia]. by destruct (nonempty cits).
  - destruct is_ans; lia.
  - apply Forall_app. split; [done|]. apply Forall_singleton.
    unfold result_consistent, is_answered. simpl. by destruct is_ans.
Qed.

Lemma for_each_counts (L : Completion) (model : string)
    (chunks : list (string * string)) :
  ∀ qs t t' log log',
    counts_inv t →
    for_each (query_step L model chunks) t qs log = (Ok t', log') →
    counts_inv t' ∧
    log' = log ++ (request_for (default EmptyString (truthy_key (OPENAI_API_KEY L)))
                     model chunks <$> ungated chunks qs).
Proof.
  induction qs as [|q qs IH]; intros t t' log log' Hinv; simpl.
  - intros [= <- <-]. by rewrite app_nil_r.
  - unfold bind at 1.
    destruct (query_step L model chunks t q log) as [[t1|e] log1] eqn:Hstep;
      [|done].
    intros Hrest.
    destruct (query_step_counts _ _ _ _ _ _ _ _ Hinv Hstep) as [Hinv1 ->].
    destruct (IH _ _ _ _ Hinv1 Hrest) as [Hinv' ->].
    split; [done|].
    rewrite <- app_assoc, <- fmap_app. do 2 f_equal.
    rewrite !ungated_cons. by destruct (gated q chunks).
Qed.

Lemma counts_inv_empty : counts_inv empty_tally.
Proof. by repeat split. Qed.

(** X13. In a report of the per-question engine the answerability rate is
    the number of results with status [answered] over the number of
    questions, rounded, the citation coverage is the number of those that
    also carry a citation, the hallucination rate is 0, and in every
    result the flags say what the status and the citations say, with at
    most three citations. *)
Theorem analyze_report_counts (W : Web) (L : Completion) (site model : string)
    (queries : option (list string)) (r : report string bool)
    (log : list completion_call) :
  run_answerability_benchmark W L site queries model = Some (Ok r, log) →
  answerability_rate (overall r)
    = rate (count_if is_answered (query_results r)) (1 `max` queries_run r) ∧
  citation_coverage (overall r)
    = rate (count_if is_cited (query_results r)) (1 `max` queries_run r) ∧
  (hallucination_rate (overall r) == 0)%Q ∧
  count_if is_cited (query_results r) ≤ count_if is_answered (query_results r) ∧
  count_if is_answered (query_results r) ≤ length (query_results r) ∧
  Forall result_consistent (query_results r).
Proof.
  intros (pages & requested & chunks & t & _ & _ & Hloop & ->)%run_returns.
  destruct (for_each_counts _ _ _ _ _ _ _ _ counts_inv_empty Hloop)
    as [(Ha & Hc & Hh & Hall) _].
  simpl. rewrite Ha, Hc, Hh. split; [done|]. split; [done|].
  split; [by apply round2_zero|].
  destruct (count_if_le is_cited is_answered (results t)) as [H1 H2];
    [by intros x [? _]%andb_true_iff|].
  done.
Qed.

(** X13 on the site of two pages, with a question that is answered and
    cited and a question that stops at the gate. *)
Lemma analyze_report_counts_witness :
  ∃ r log,
    run_answerability_benchmark Fixtures.two_page_web Fixtures.stub_service
      "https://shop.example/"
      (Some ["What services do you offer?"; "Where are you located?"])
      "gpt-4o-mini" = Some (Ok r, log) ∧
    count_if is_answered (query_results r) = 1 ∧
    (answerability_rate (overall r) == 1 # 2)%Q ∧
    answerability_rate (overall r)
      = rate (count_if is_answered (query_results r)) (1 `max` queries_run r).
Proof.
  destruct (run_answerability_benchmark Fixtures.two_page_web Fixtures.stub_service
      "https://shop.example/"
      (Some ["What services do you offer?"; "Where are you located?"])
      "gpt-4o-mini") as [[[r|e] log]|] eqn:Hrun;
    try (vm_compute in Hrun; discriminate).
  exists r, log. split; [done|].
  pose proof (proj1 (analyze_report_counts _ _ _ _ _ _ _ Hrun)) as Hrate.
  vm_compute in Hrun. injection Hrun as <- <-.
  split; [reflexivity|]. split; [reflexivity|]. exact Hrate.
Defined.

(** X14. A run of the per-question engine that returns a report has sent
    one request for each question that passed the relevance gate, in the
    order of the questions, and none for the others; each request carries
    its question with the context of its top chunks, whatever the earlier
    replies were. *)
Theorem analyze_requests (W : Web) (L : Completion) (site model : string)
    (queries : option (list string)) (pages : list PageContent)
    (requested : list string) (chunks : list (string * string))
    (r : report string bool) (log : list completion_call) :
  crawl_site W site 15 50 = Some (Ok (pages, requested)) →
  index_pages pages = Some chunks →
  run_answerability_benchmark W L site queries model = Some (Ok r, log) →
  log = request_for (default EmptyString (truthy_key (OPENAI_API_KEY L)))
          model chunks <$> ungated chunks (queries_or_default queries) ∧
  length log ≤ queries_run r.
Proof.
  intros Hcrawl Hindex
    (pages' & requested' & chunks' & t & Hcrawl' & Hindex' & Hloop & ->)%run_returns.
  rewrite Hcrawl in Hcrawl'. injection Hcrawl' as <- <-.
  rewrite Hindex in Hindex'. injection Hindex' as <-.
  destruct (for_each_counts _ _ _ _ _ _ _ _ counts_inv_empty Hloop) as [_ ->].
  split; [done|]. simpl. rewrite length_fmap. unfold ungated.
  apply length_filter.
Qed.

(** X14 on the site of two pages: of two questions, one passes the
    gate. *)
Lemma analyze_requests_witness :
  ∃ r chunks,
    run_answerability_benchmark Fixtures.two_page_web Fixtures.stub_service
      "https://shop.example/"
      (Some ["Where are you located?"; "What services do you offer?"])
      "gpt-4o-mini"
    = Some (Ok r, [request_for "key" "gpt-4o-mini" chunks
                     "What services do you offer?"]).
Proof.
  destruct (crawl_site Fixtures.two_page_web "https://shop.example/" 15 50)
    as [[[ps rs]|]|] eqn:Hcrawl; try (vm_compute in Hcrawl; discriminate).
  destruct (index_pages ps) as [chunks|] eqn:Hindex;
    [|by destruct (index_pages_total ps) as [? ?]; congruence].
  destruct (run_answerability_benchmark Fixtures.two_page_web Fixtures.stub_service
      "https://shop.example/"
      (Some ["Where are you located?"; "What services do you offer?"])
      "gpt-4o-mini") as [[[r|e] log]|] eqn:Hrun;
    try (vm_compute in Hrun; discriminate).
  exists r, chunks.
  rewrite (proj1 (analyze_requests _ _ _ _ _ _ _ _ _ _ Hcrawl Hindex Hrun)).
  vm_compute in Hcrawl. injection Hcrawl as <- <-.
  vm_compute in Hindex. injection Hindex as <-.
  reflexivity.
Defined.

End RunFacts.

(** ** The single-call engine: the request, the reply and the fallbacks *)

Module ReplyFacts.
Import Text Retriever Effects Synthesizer Url Crawler Report Backend.
Import Spec Props StringFacts RateFacts BackendFacts.

Lemma process_error_result (site msg : string) (pages : list PageContent)
    (queries_list : list string) (t : tally) (i : nat) (q : string) :
  process site pages queries_list t i
    (JObj [("query", JStr q); ("answer", JStr msg); ("found", JBool false)])
  = Ok {| results := results t ++ results (degraded_tally msg [q]);
          answered_count := answered_count t;
          missing := missing t ++ [JStr q] |}.
Proof. reflexivity. Qed.

Lemma process_all_error_results (site msg : string) (pages : list PageContent)
    (queries_list : list string) :
  ∀ qs t i,
    process_all site pages queries_list t i
      ((λ q, JObj [("query", JStr q); ("answer", JStr msg); ("found", JBool false)])
         <$> qs)
    = Ok {| results := results t ++ results (degraded_tally msg qs);
            answered_count := answered_count t;
            missing := missing t ++ (JStr <$> qs) |}.
Proof.
  induction qs as [|q qs IH]; intros t i.
  - simpl. rewrite !app_nil_r. by destruct t.
  - rewrite fmap_cons. cbn [process_all]. rewrite process_error_result, IH.
    simpl. by rewrite <- !app_assoc.
Qed.

(** The run after the crawl, when the reply is replaced by a message. *)
Lemma backend_run_degraded (W : Web) (L : Completion)
    (json_loads : string → option json) (site model domain api_key msg : string)
    (queries : option (list string)) (page : PageContent)
    (pages : list PageContent) (requested : list string) :
  crawl_site W site 10 50 = Some (Ok (page :: pages, requested)) →
  netloc (netloc_ok W) site = Ok domain →
  truthy_key (OPENAI_API_KEY L) = Some api_key →
  ask L json_loads api_key model
      (prompt domain (questions_text (queries_or_default queries))
         (combined_content (page :: pages)))
      (queries_or_default queries)
    = (error_results msg (queries_or_default queries),
       [backend_request api_key model domain (queries_or_default queries)
          (page :: pages)]) →
  run_answerability_benchmark W L json_loads site queries model =
    Some (Ok (make_report site (page :: pages) (queries_or_default queries)
                (degraded_tally msg (queries_or_default queries))),
          [backend_request api_key model domain (queries_or_default queries)
             (page :: pages)]).
Proof.
  intros Hcrawl Hdomain Hkey Hask. unfold run_answerability_benchmark.
  rewrite Hcrawl, Hdomain, Hkey. cbv zeta. rewrite Hask.
  unfold error_results, iterate. by rewrite process_all_error_results.
Qed.

(** X15. When the crawl found a page and the credential is set, a request
    that raises, or a reply that is not JSON, does not end the run of the
    single-call engine: it returns, after the one request, a report in
    which every question has the status [not_found], no citation, and as
    answer the message of the exception after "Error: ", or "Error parsing
    response"; every question is a missing topic and the rates are 0. *)
Theorem backend_reply_fallbacks (W : Web) (L : Completion)
    (json_loads : string → option json) (site model domain api_key : string)
    (queries : option (list string)) (page : PageContent)
    (pages : list PageContent) (requested : list string) :
  let qs := queries_or_default queries in
  let call := backend_request api_key model domain qs (page :: pages) in
  crawl_site W site 10 50 = Some (Ok (page :: pages, requested)) →
  netloc (netloc_ok W) site = Ok domain →
  truthy_key (OPENAI_API_KEY L) = Some api_key →
  (∀ e, create L [] call = Raise e →
     run_answerability_benchmark W L json_loads site queries model =
       Some (Ok (make_report site (page :: pages) qs
                   (degraded_tally ("Error: " +:+ exn_str e) qs)), [call])) ∧
  (∀ content, create L [] call = Ok content →
     json_loads (strip_fences (strip content)) = None →
     run_answerability_benchmark W L json_loads site queries model =
       Some (Ok (make_report site (page :: pages) qs
                   (degraded_tally "Error parsing response" qs)), [call])) ∧
  ∀ msg,
    Forall (λ x, x == 0)%Q
      (rates (overall (make_report site (page :: pages) qs (degraded_tally msg qs)))) ∧
    missing_topics (make_report site (page :: pages) qs (degraded_tally msg qs))
      = JStr <$> qs.
Proof.
  intros qs call Hcrawl Hdomain Hkey. split; [|split].
  - intros e He. eapply backend_run_degraded; [done..|].
    unfold ask. fold qs. fold (backend_request api_key model domain qs (page :: pages)).
    fold call. by rewrite He.
  - intros content Hcontent Hjson. eapply backend_run_degraded; [done..|].
    unfold ask. fold qs. fold (backend_request api_key model domain qs (page :: pages)).
    fold call. by rewrite Hcontent, Hjson.
  - intros msg. split; [|done]. unfold rates. simpl.
    assert (round2 (true_div 0 (1 `max` length qs)) == 0)%Q as H0
      by by apply round2_zero.
    repeat (apply Forall_cons; split; [done|]). constructor.
Qed.

(** X15 on the site of two pages, with a service that is down and with a
    reply that is not JSON. *)
Lemma backend_reply_fallbacks_witness :
  (∃ r log,
     run_answerability_benchmark Fixtures.two_page_web Examples.failing_service
       Examples.no_json "https://shop.example/" (Some ["What is your pricing?"])
       "gpt-4o-mini" = Some (Ok r, log) ∧
     answer <$> query_results r = [JStr "Error: Connection error."] ∧
     length log = 1) ∧
  (∃ r log,
     run_answerability_benchmark Fixtures.two_page_web Fixtures.stub_service
       Examples.no_json "https://shop.example/" (Some ["What is your pricing?"])
       "gpt-4o-mini" = Some (Ok r, log) ∧
     answer <$> query_results r = [JStr "Error parsing response"] ∧
     length log = 1).
Proof.
  destruct (crawl_site Fixtures.two_page_web "https://shop.example/" 10 50)
    as [[[[|p ps] rs]|]|] eqn:Hcrawl; try (vm_compute in Hcrawl; discriminate).
  split.
  - destruct (backend_reply_fallbacks Fixtures.two_page_web Examples.failing_service
                Examples.no_json "https://shop.example/" "gpt-4o-mini"
                "shop.example" "sk-test" (Some ["What is your pricing?"])
                p ps rs Hcrawl eq_refl eq_refl) as (H & _ & _).
    eexists _, _. split; [by apply H|]. by split.
  - destruct (backend_reply_fallbacks Fixtures.two_page_web Fixtures.stub_service
                Examples.no_json "https://shop.example/" "gpt-4o-mini"
                "shop.example" "key" (Some ["What is your pricing?"])
                p ps rs Hcrawl eq_refl eq_refl) as (_ & H & _).
    eexists _, _. split; [by eapply H|]. by split.
Defined.






End ReplyFacts.

(** ** The single-call engine: the content of the prompt and the fences of
     the reply *)

Module ContentFacts.
Import Text Effects Crawler Backend StringFacts.

Lemma str_length_app (s t : string) :
  String.length (s +:+ t) = String.length s + String.length t.
Proof. induction s as [|a s IH]; [done|]. simpl. by rewrite IH. Qed.

Lemma take_chars_length (n : nat) (s : string) :
  String.length (take_chars n s) ≤ n.
Proof.
  revert s. induction n as [|n IH]; intros [|a s]; simpl; try lia.
  specialize (IH s). lia.
Qed.

(** X17. Whatever the pages, the page content that goes into the prompt
    of the single-call engine has at most 50026 characters: 50000 of
    content, a line feed and the 25 characters of the truncation mark. *)
Theorem combined_content_bounded (pages : list PageContent) :
  (N.of_nat (String.length (combined_content pages)) ≤ 50026)%N.
Proof.
  unfold combined_content.
  match goal with |- context [longer_than 50000 ?c] => set (combined := c) end.
  destruct (longer_than 50000 combined) eqn:Hlong.
  - rewrite !str_length_app. unfold truncate.
    pose proof (take_chars_length (N.to_nat 50000) combined) as Hlen.
    change (String.length newline) with 1.
    change (String.length "...[content truncated]...") with 25.
    lia.
  - unfold longer_than in Hlong. apply N.ltb_ge in Hlong. lia.
Qed.

Lemma rev_app_app (s acc : string) :
  String.rev_app s acc = String.rev s +:+ acc.
Proof.
  unfold String.rev. revert acc. induction s as [|a s IH]; intros acc; [done|].
  simpl. rewrite IH, (IH (String a EmptyString)), str_app_assoc. done.
Qed.

Lemma rev_cons (a : ascii) (s : string) :
  String.rev (String a s) = String.rev s +:+ String a EmptyString.
Proof. unfold String.rev at 1. simpl. apply rev_app_app. Qed.

Lemma rev_app (s t : string) :
  String.rev (s +:+ t) = String.rev t +:+ String.rev s.
Proof.
  induction s as [|a s IH]; [by rewrite str_app_nil_l, str_app_nil_r|].
  by rewrite str_app_cons, !rev_cons, IH, str_app_assoc.
Qed.

Lemma rev_involutive (s : string) : String.rev (String.rev s) = s.
Proof.
  induction s as [|a s IH]; [done|]. by rewrite rev_cons, rev_app, IH.
Qed.

Lemma strip_prefix_app (p s : string) : strip_prefix p (p +:+ s) = Some s.
Proof.
  induction p as [|a p IH]; [by destruct s|]. simpl.
  by rewrite bool_decide_eq_true_2.
Qed.

Lemma strip_suffix_app (p s : string) : strip_suffix p (s +:+ p) = Some s.
Proof.
  unfold strip_suffix. rewrite rev_app, strip_prefix_app. simpl.
  by rewrite rev_involutive.
Qed.

(** X18. A reply that does not start with a code fence is decoded as it
    is; from a reply between an opening fence, with or without [json]
    after it, and a closing fence, each on a line of its own, the text
    between the fences is decoded. *)
Theorem strip_fences_fenced (body : string) :
  strip_fences (fence +:+ "json" +:+ newline +:+ body +:+ newline +:+ fence) = body ∧
  strip_fences (fence +:+ newline +:+ body +:+ newline +:+ fence) = body ∧
  ∀ response_text,
    strip_prefix fence response_text = None →
    strip_fences response_text = response_text.
Proof.
  split; [|split].
  - unfold strip_fences. rewrite strip_prefix_app. cbv beta iota zeta.
    rewrite strip_prefix_app. cbn [from_option id].
    rewrite strip_prefix_app. cbn [from_option id].
    rewrite <- str_app_assoc, strip_suffix_app, strip_suffix_app. done.
  - unfold strip_fences. rewrite strip_prefix_app. cbv beta iota zeta.
    change (strip_prefix "json" (newline +:+ body +:+ newline +:+ fence)) with (@None string).
    cbn [from_option id].
    rewrite strip_prefix_app. cbn [from_option id].
    rewrite <- str_app_assoc, strip_suffix_app, strip_suffix_app. done.
  - intros response_text Hfence. unfold strip_fences. by rewrite Hfence.
Qed.

Example strip_fences_reply :
  strip_fences ("```json" +:+ newline +:+ "[1, 2]" +:+ newline +:+ "```") = "[1, 2]" ∧
  strip_fences "[1, 2]" = "[1, 2]".
Proof. split; reflexivity. Qed.

End ContentFacts.

(** ** The API: the domain of a URL *)

Module DomainFacts.
Import Text Effects Url Service StringFacts.







(** Removing is not anchored at the start of the host, and is done in one
    pass: a host label that ends in "www" loses it, and the result can
    hold "www." again. *)
Example get_domain_from_url_hosts :
  get_domain_from_url (λ _, true) "https://www.shop.example/pricing"
    = Ok "shop.example" ∧
  get_domain_from_url (λ _, true) "https://newwww.example/"
    = Ok "newexample" ∧
  get_domain_from_url (λ _, true) "https://wwww.ww.example/"
    = Ok "www.example".
Proof. repeat split; reflexivity. Qed.

End DomainFacts.

(** ** The API: sessions and the benchmark endpoints *)

Module SessionFacts.
Import Text Effects Url Crawler Report Service.

(** X20. A new session answers as pending, with the message of the
    queue and not that of the response to the request that started it;
    its benchmark has not started, a benchmark can be started on it when
    its URL is not empty, and the other sessions are as they were. *)
Theorem start_audit_session (sessions : gmap string session)
    (new_id request_url : string) :
  let sessions' := (start_audit sessions new_id request_url).2 in
  audit_message (start_audit sessions new_id request_url).1 = "Audit started..." ∧
  get_audit_status sessions' new_id =
    Reply {| audit_session_id := new_id; audit_status := "pending";
             audit_progress := 0; audit_message := "Audit queued...";
             response_audit_data := None; response_llmstxt_content := None;
             audit_error := None |} ∧
  get_benchmark_status sessions' new_id = Reply (status_only new_id "not_started") ∧
  (run_benchmark sessions' new_id).1 =
    (if decide (request_url = EmptyString)
     then HTTPException 400 "No URL in session"
     else Reply (status_only new_id "running")) ∧
  ∀ other, other ≠ new_id → sessions' !! other = sessions !! other.
Proof.
  simpl. unfold get_audit_status, get_benchmark_status, run_benchmark.
  rewrite lookup_insert_eq. simpl.
  split; [done|]. split; [done|]. split; [done|]. split.
  - destruct request_url; by destruct (decide _).
  - intros other Hne. by rewrite lookup_insert_ne.
Qed.

(** X21. For a session that is not stored, the three handlers that read a
    session answer 404 and [run_benchmark] stores nothing; the benchmark
    task, which looks the session up only after the run, ends with an
    exception or does not end, and never gives sessions back. *)
Theorem unknown_session (W : Web) (L : Completion)
    (json_loads : string → option Backend.json)
    (sessions : gmap string session) (sid site_url : string)
    (custom_queries : option (list string)) :
  sessions !! sid = None →
  get_audit_status sessions sid = HTTPException 404 "Session not found" ∧
  get_benchmark_status sessions sid = HTTPException 404 "Session not found" ∧
  run_benchmark sessions sid = (HTTPException 404 "Session not found", sessions) ∧
  ∀ sessions',
    run_benchmark_task W L json_loads sessions sid site_url custom_queries
      ≠ Some (Ok sessions').
Proof.
  intros Hnone.
  unfold get_audit_status, get_benchmark_status, run_benchmark,
    run_benchmark_task, write_benchmark.
  rewrite Hnone. split; [done|]. split; [done|]. split; [done|].
  intros sessions'.
  destruct (Backend.run_answerability_benchmark _ _ _ _ _ _) as [[[r|e] log]|];
    done.
Qed.

Lemma unknown_session_witness :
  get_benchmark_status (∅ : gmap string session) "1a2b3c4d"
    = HTTPException 404 "Session not found".
Proof.
  exact (proj1 (proj2 (unknown_session Fixtures.open_web Fixtures.stub_service
                         (λ _, None) ∅ "1a2b3c4d" "https://shop.example/" None
                         (lookup_empty _)))).
Defined.

(** X22. On a stored session with a URL, [run_benchmark] answers
    "running", and so does [get_benchmark_status] until the task ends.
    When the run of the engine ends, the task gives the sessions back and
    [get_benchmark_status] then answers "completed" with the fields of
    the report of the run, or "failed" with the message of the exception
    that ended it. The audit entries of the session, and the other
    sessions, stay as they were. *)
Theorem benchmark_session (W : Web) (L : Completion)
    (json_loads : string → option Backend.json)
    (sessions : gmap string session) (sid : string) (s : session)
    (custom_queries : option (list string))
    (out : result (report Backend.json Backend.json))
    (log : list completion_call) :
  let queries :=
    match custom_queries with Some (q :: qs) => Some (q :: qs) | _ => None end in
  sessions !! sid = Some s →
  url s ≠ EmptyString →
  Backend.run_answerability_benchmark W L json_loads (url s) queries "gpt-4o-mini"
    = Some (out, log) →
  ∃ running done,
    run_benchmark sessions sid = (Reply (status_only sid "running"), running) ∧
    get_benchmark_status running sid = Reply (status_only sid "running") ∧
    run_benchmark_task W L json_loads running sid (url s) custom_queries
      = Some (Ok done) ∧
    get_benchmark_status done sid =
      Reply match out with
            | Ok r =>
                {| session_id := sid; response_status := "completed";
                   response_site_url := Some (site_url r);
                   response_crawled_pages := Some (crawled_pages r);
                   response_indexed_chunks := Some (indexed_chunks r);
                   response_queries_run := Some (queries_run r);
                   response_overall_scores := Some (overall r);
                   response_query_results := Some (query_results r);
                   response_missing_topics := Some (missing_topics r);
                   response_error := None |}
            | Raise e =>
                {| session_id := sid; response_status := "failed";
                   response_site_url := None; response_crawled_pages := None;
                   response_indexed_chunks := None; response_queries_run := None;
                   response_overall_scores := None; response_query_results := None;
                   response_missing_topics := None;
                   response_error := Some (exn_str e) |}
            end ∧
    get_audit_status done sid = get_audit_status sessions sid ∧
    ∀ other, other ≠ sid → done !! other = sessions !! other.
Proof.
  intros queries Hs Hurl Hrun.
  unfold run_benchmark, run_benchmark_task, write_benchmark.
  fold queries. rewrite Hs, Hrun.
  destruct (url s) as [|a u] eqn:Hu; [done|].
  destruct out as [r|e]; eexists _, _;
    (split; [done|]);
    unfold get_benchmark_status, get_audit_status;
    rewrite !lookup_insert_eq, Hs; simpl;
    (split; [done|]); (split; [done|]); (split; [done|]);
    (split; [done|]);
    intros other Hne; by rewrite !lookup_insert_ne.
Qed.

(** X22 on a session for the site of two pages, without credential: the
    benchmark fails with the message of the configuration error. *)
Lemma benchmark_session_witness :
  let sessions := (start_audit ∅ "1a2b3c4d" "https://shop.example/").2 in
  ∃ running done,
    run_benchmark sessions "1a2b3c4d"
      = (Reply (status_only "1a2b3c4d" "running"), running) ∧
    run_benchmark_task Fixtures.two_page_web Fixtures.no_key_service (λ _, None)
      running "1a2b3c4d" "https://shop.example/" None = Some (Ok done) ∧
    (λ r, match r with
          | Reply b => Some (response_status b, response_error b)
          | _ => None
          end) (get_benchmark_status done "1a2b3c4d")
      = Some ("failed", Some "OPENAI_API_KEY is not set").
Proof.
  intros sessions.
  destruct (Backend.run_answerability_benchmark Fixtures.two_page_web
              Fixtures.no_key_service (λ _, None) "https://shop.example/" None
              "gpt-4o-mini") as [[out log]|] eqn:Hrun;
    [|vm_compute in Hrun; discriminate].
  destruct (benchmark_session Fixtures.two_page_web Fixtures.no_key_service
              (λ _, None) sessions "1a2b3c4d"
              {| url := "https://shop.example/"; status := "pending";
                 progress := 0; message := "Audit queued...";
                 audit_data := None; llmstxt_content := None; error := None;
                 benchmark_status := None; session_benchmark_data := None |}
              None out log)
    as (running & done & H1 & _ & H3 & H4 & _);
    [apply lookup_insert_eq|discriminate|exact Hrun|].
  exists running, done. split; [exact H1|]. split; [exact H3|].
  rewrite H4. vm_compute in Hrun. by injection Hrun as <- <-.
Defined.

End SessionFacts.

(** ** Answer synthesizer: the numbers of the context are the numbers of
     the citations *)

Module ContextFacts.
Import Text Retriever Effects Synthesizer Spec Props.
Import StringFacts CitationFacts AnswerFacts.





End ContextFacts.

(** ** The questions of a run, and the index of the per-question engine *)

Module QuestionFacts.
Import Text Chunker Retriever Effects Synthesizer Url Crawler Report.
Import Spec Props ChunkFacts ChunkShapeFacts AnalyzeFacts BackendFacts.



Lemma index_pages_cons (page : PageContent) (pages : list PageContent) :
  Analyze.index_pages (page :: pages) =
    cs ← _chunk_text (text page) 800 120;
    rest ← Analyze.index_pages pages;
    Some (((λ chunk, (Crawler.url page, chunk)) <$> cs) ++ rest).
Proof. reflexivity. Qed.

Lemma index_pages_is_windows (pages : list PageContent) :
  Analyze.index_pages pages =
    Some (pages ≫= λ page,
            (λ chunk, (Crawler.url page, chunk))
              <$> windows (split (text page)) 800 120).
Proof.
  induction pages as [|page pages IH]; [done|].
  rewrite index_pages_cons, chunk_text_is_windows, IH by lia. done.
Qed.

(** X25. The index of the per-question engine holds, page after page in
    the order of the crawl, the windows of 800 words of the text of the
    page, each with the URL of the page; a page without words adds
    nothing, and the number of indexed chunks is the sum of the numbers
    of windows of the pages. *)
Theorem index_pages_windows (pages : list PageContent) :
  ∃ chunks,
    Analyze.index_pages pages = Some chunks ∧
    chunks = (pages ≫= λ page,
                (λ chunk, (Crawler.url page, chunk))
                  <$> windows (split (text page)) 800 120) ∧
    length chunks
      = sum_list ((λ page, window_count 800 120 (length (split (text page))))
                    <$> pages) ∧
    ∀ u chunk, (u, chunk) ∈ chunks →
      ∃ page, page ∈ pages ∧ u = Crawler.url page ∧
              0 < length (split (text page)) ∧
              length (split chunk) ≤ 800.
Proof.
  eexists. split; [apply index_pages_is_windows|]. split; [done|]. split.
  - induction pages as [|page pages IH]; [done|].
    rewrite bind_cons, length_app, IH, fmap_cons. simpl.
    unfold windows at 1. by rewrite !length_fmap, length_seq.
  - intros u chunk (page & Hin & Hpage)%list_elem_of_bind.
    apply list_elem_of_fmap in Hin as (c & [= -> ->] & Hc).
    exists page. split; [done|]. split; [done|].
    apply list_elem_of_lookup in Hc as (i & Hi).
    apply windows_lookup in Hi as [-> Hcount].
    split.
    + destruct (length (split (text page))); [simpl in Hcount|]; lia.
    + unfold window. rewrite split_slice by apply split_words.
      unfold slice. rewrite length_take. lia.
Qed.

End QuestionFacts.

(** ** The single-call engine: a reply that is not an array of objects *)

Module ReplyShapeFacts.
Import Text Retriever Effects Synthesizer Url Crawler Report Backend.
Import Spec Props.




End ReplyShapeFacts.

(** ** Crawler: where the pages come from *)

Module FetchFacts.
Import Text Effects Url Crawler Spec Props CrawlFacts NormalizeFacts ChunkFacts.

Lemma page_fetched_mono (W : Web) (requested requested' : list string)
    (p : PageContent) :
  requested `prefix_of` requested' →
  page_fetched W requested p → page_fetched W requested' p.
Proof.
  intros Hpre (earlier & status_code & html & Hearlier & Hp).
  exists earlier, status_code, html. split; [by etrans|done].
Qed.

(** The invariant of the crawl loop on the origin of the pages: the log
    of requests only grows, and every page comes from a response below
    400 to a logged request. *)
Lemma crawl_loop_fetched (W : Web) (start_url : string)
    (max_pages max_links_per_page : nat) :
  ∀ fuel st out_pages out_requested,
    Forall (page_fetched W (requested st)) (pages st) →
    crawl_loop W start_url max_pages max_links_per_page fuel st
      = Some (Ok (out_pages, out_requested)) →
    requested st `prefix_of` out_requested ∧
    Forall (page_fetched W out_requested) out_pages.
Proof.
  induction fuel as [|fuel IH]; intros st ps rs Hall; [done|].
  rewrite crawl_loop_S.
  destruct (queue st) as [|u queue'] eqn:Hqueue.
  { by intros [= <- <-]. }
  destruct (decide (length (pages st) < max_pages)) as [Hroom|];
    [|by intros [= <- <-]].
  destruct (decide (u ∈ seen st)) as [Hin|Hnew].
  { intros Hrun. by apply IH in Hrun. }
  assert (requested st `prefix_of` requested st ++ [u]) as Hgrow
    by by apply prefix_app_r.
  assert (Forall (page_fetched W (requested st ++ [u])) (pages st)) as Hall'.
  { eapply Forall_impl; [exact Hall|]. intros p. by apply page_fetched_mono. }
  destruct (requests_get W (requested st) u) as [|e|status_code html] eqn:Hget.
  - intros [Hpre Hps]%IH; [|done]. split; [by etrans|done].
  - done.
  - destruct (decide (400 ≤ status_code)%Z) as [|Hok].
    { intros [Hpre Hps]%IH; [|done]. split; [by etrans|done]. }
    cbv zeta.
    destruct (enqueue_links _ _ _ _ _) as [queue''|e] eqn:Henq; [|done].
    intros [Hpre Hps]%IH.
    + split; [by etrans|done].
    + simpl. apply Forall_app. split; [done|]. apply Forall_singleton.
      exists (requested st), status_code, html. simpl.
      split; [done|]. split; [done|]. split; [lia|]. done.
Qed.

Lemma crawl_from_fetched (W : Web) (start_url : string) (queue : list string)
    (max_pages max_links_per_page : nat) (out_pages : list PageContent)
    (out_requested : list string) :
  crawl_from W start_url queue max_pages max_links_per_page
    = Some (Ok (out_pages, out_requested)) →
  Forall (page_fetched W out_requested) out_pages.
Proof.
  unfold crawl_from. intros [_ H]%crawl_loop_fetched; [done|]. constructor.
Qed.

(** A crawl that may keep a page starts with a request for the head of
    its queue. *)
Lemma crawl_from_first (W : Web) (start_url first : string) (queue : list string)
    (max_pages max_links_per_page : nat) (out_pages : list PageContent)
    (out_requested : list string) :
  0 < max_pages →
  crawl_from W start_url (first :: queue) max_pages max_links_per_page
    = Some (Ok (out_pages, out_requested)) →
  [first] `prefix_of` out_requested.
Proof.
  intros Hpos. unfold crawl_from, crawl_fuel. rewrite crawl_loop_S.
  cbn [Crawler.queue Crawler.pages Crawler.seen Crawler.requested length].
  destruct (decide (0 < max_pages)); [|lia].
  destruct (decide (first ∈ (∅ : gset string))) as [Hin|_];
    [by apply not_elem_of_empty in Hin|].
  destruct (requests_get W [] first) as [|e|status_code html] eqn:Hget; [|done|].
  - intros Hrun. by apply crawl_loop_fetched in Hrun as [Hpre _].
  - destruct (decide (400 ≤ status_code)%Z).
    { intros Hrun. by apply crawl_loop_fetched in Hrun as [Hpre _]. }
    cbv zeta. destruct (enqueue_links _ _ _ _ _) as [queue''|e]; [|done].
    intros Hrun. apply crawl_loop_fetched in Hrun as [Hpre _]; [done|]. simpl.
    apply Forall_singleton. exists [], status_code, html. simpl.
    split; [done|]. split; [done|]. split; [lia|done].
Qed.

Lemma normalize_text_fixed (t : string) :
  _normalize_text (_normalize_text t) = _normalize_text t.
Proof.
  rewrite (normalize_text_join (_normalize_text t)), (normalize_text_join t).
  by rewrite split_join by apply split_words.
Qed.

(** X27. Every page that a crawl returns comes from a response with a
    status below 400 to a request of the crawl for its URL; its text is
    the normalised text of that response, so that normalising it again
    changes nothing. A crawl that may keep a page starts with the request
    for its seed: as given in the per-question engine, without its
    trailing slashes in the single-call engine. *)
Theorem crawl_pages_fetched (W : Web) (start_url : string)
    (max_pages max_links_per_page : nat) :
  (∀ out_pages out_requested,
     Analyze.crawl_site W start_url max_pages max_links_per_page
       = Some (Ok (out_pages, out_requested)) →
     Forall (page_fetched W out_requested) out_pages ∧
     Forall (λ p, _normalize_text (text p) = text p) out_pages ∧
     (0 < max_pages → [start_url] `prefix_of` out_requested)) ∧
  (∀ out_pages out_requested,
     Backend.crawl_site W start_url max_pages max_links_per_page
       = Some (Ok (out_pages, out_requested)) →
     Forall (page_fetched W out_requested) out_pages ∧
     Forall (λ p, _normalize_text (text p) = text p) out_pages ∧
     (0 < max_pages → [rstrip_slash start_url] `prefix_of` out_requested)).
Proof.
  assert (∀ rs ps, Forall (page_fetched W rs) ps →
            Forall (λ p, _normalize_text (text p) = text p) ps) as Hnorm.
  { intros rs ps Hps. eapply Forall_impl; [exact Hps|].
    intros p (earlier & status_code & html & _ & _ & _ & -> & _).
    apply normalize_text_fixed. }
  split; intros ps rs Hrun.
  - pose proof (crawl_from_fetched _ _ _ _ _ _ _ Hrun) as Hps.
    split; [done|]. split; [by eapply Hnorm|].
    intros Hpos. by eapply crawl_from_first.
  - pose proof (crawl_from_fetched _ _ _ _ _ _ _ Hrun) as Hps.
    split; [done|]. split; [by eapply Hnorm|].
    intros Hpos. unfold Backend.crawl_site, Backend.priority_paths in Hrun.
    cbv zeta in Hrun. rewrite fmap_cons, <- app_comm_cons in Hrun.
    rewrite StringFacts.str_app_nil_r in Hrun. by eapply crawl_from_first.
Qed.

End FetchFacts.
